(** * Ring signatures over secp256k1: a shallow embedding

    The development follows the compiled ring-signature class
    ([RingSignature.sign], [partialSign], [signature], [computeC],
    [combine], [verify]), the earlier version of the class that keeps
    points as pairs of coordinates ([ArrayVersion]: its [sign] and
    [verify]), the curve description ([Curve], [Curve.isOnCurve]) and the
    vendored short-Weierstrass arithmetic ([mod], [inv], [SECP256K1Point]
    with its group operations, its affine form and its hexadecimal
    encoding).

    JavaScript [bigint] values are integers of [Z]; [%] and [/] on them
    truncate towards zero ([Z.rem], [Z.quot]) and raise a [RangeError] on a
    zero divisor.  Arrays are lists read with stdpp's lookup; reading past
    the end gives [undefined], on which the next method call raises a
    [TypeError].  Exceptions are the [Throw] results of a small error monad. *)

From Stdlib Require Import ZArith Lia Bool String Ascii.
From stdpp Require Import base list strings pretty.

Local Open Scope Z_scope.

(** ** Exceptions *)

Inductive error : Type :=
| RangeError                  (* BigInt division by zero *)
| TypeError                   (* method call on [undefined] *)
| SyntaxError                 (* BigInt() of a string that is no number *)
| InvalidScalar               (* "invalid scalar" *)
| NoInverse                   (* "no inverse ..." *)
| InvalidInverse              (* "invalid inverse" *)
| PointInvalid                (* "Point invalid: ..." *)
| OutOfFuel                   (* artefact of the bounded Euclid loop *)
| UnknownCurve                (* unknownCurve(curve), "unknown curve" *)
| NotImplemented              (* "ED25519 ... is not implemented yet" *)
| EmptyRing                   (* "Ring length must be greater than 0" *)
| PartialSignEmptyRing        (* "To proceed partial signing, ring length must be greater than 0" *)
| RingResponseLengthMismatch  (* "ring and responses length mismatch" *)
| CurveMismatch               (* "Point not on curve", safe-mode constructor *)
| DuplicateRingMember         (* "Ring contains duplicates" *)
| InvalidPoint (index : nat)  (* invalidPoint, with the offending index *)
| InvalidParams               (* invalidParams(...) *)
| InvalidResponses.           (* "At least one response is not valid" *)

Inductive result (A : Type) : Type :=
| Ok (a : A)
| Throw (e : error).
Arguments Ok {A} a.
Arguments Throw {A} e.

#[global] Instance result_ret : MRet result := fun A a => Ok a.
#[global] Instance result_bind : MBind result := fun A B f m =>
  match m with
  | Ok a => f a
  | Throw e => Throw e
  end.

#[global] Instance result_fmap : FMap result := fun A B f m =>
  match m with
  | Ok a => Ok (f a)
  | Throw e => Throw e
  end.

Definition is_ok {A} (m : result A) : bool :=
  match m with Ok _ => true | Throw _ => false end.

(** Array read [a[i]] followed by a use of the element. *)
Definition at_index {A} (a : list A) (i : nat) : result A :=
  match a !! i with
  | Some v => Ok v
  | None => Throw TypeError
  end.

(** [a % b] on bigints. *)
Definition bigint_rem (a b : Z) : result Z :=
  if b =? 0 then Throw RangeError else Ok (Z.rem a b).

(** ** The vendored secp256k1 arithmetic *)

Module Noble.

Definition B256 : Z := 2 ^ 256.
Definition P : Z := B256 - 0x1000003d1.
Definition N : Z := B256 - 0x14551231950b75fc4402da1732fc9bebf.
Definition Gx : Z :=
  0x79be667ef9dcbbac55a06295ce870b07029bfcdb2dce28d959f2815b16f81798.
Definition Gy : Z :=
  0x483ada7726a3c4655da4fbfc0e1108a8fd17b448a68554199c47d08ffb10d4b8.
Definition CURVE_a : Z := 0.
Definition CURVE_b : Z := 7.

(** [mod(a, b)]: [const r = a % b; return r >= 0n ? r : b + r]. *)
Definition mod_ (a b : Z) : result Z :=
  r ← bigint_rem a b;
  Ok (if 0 <=? r then r else b + r).

(** [mod(a)] with the default modulus [P], which is not zero. *)
Definition modP (a : Z) : Z :=
  let r := Z.rem a P in
  if 0 <=? r then r else P + r.

Definition crv (x : Z) : Z := modP (modP (x * x) * x + CURVE_b).
Definition fe (n : Z) : bool := (0 <? n) && (n <? P).
Definition ge (n : Z) : bool := (0 <? n) && (n <? N).

(** Point in projective coordinates. *)
Record SECP256K1Point : Type := mkPoint { px : Z; py : Z; pz : Z }.

Definition fromAffine (p : Z * Z) : SECP256K1Point := mkPoint (fst p) (snd p) 1.
Definition BASE : SECP256K1Point := mkPoint Gx Gy 1.
Definition ZERO : SECP256K1Point := mkPoint 0 1 0.
Definition G : SECP256K1Point := BASE.
Definition I : SECP256K1Point := ZERO.

Definition equals (this other : SECP256K1Point) : bool :=
  let '(mkPoint X1 Y1 Z1) := this in
  let '(mkPoint X2 Y2 Z2) := other in
  let X1Z2 := modP (X1 * Z2) in
  let X2Z1 := modP (X2 * Z1) in
  let Y1Z2 := modP (Y1 * Z2) in
  let Y2Z1 := modP (Y2 * Z1) in
  (X1Z2 =? X2Z1) && (Y1Z2 =? Y2Z1).

Definition negate (this : SECP256K1Point) : SECP256K1Point :=
  mkPoint (px this) (modP (- py this)) (pz this).

(** Complete addition, the forty steps of the source in order. *)
Definition add (this other : SECP256K1Point) : SECP256K1Point :=
  let '(mkPoint X1 Y1 Z1) := this in
  let '(mkPoint X2 Y2 Z2) := other in
  let a := CURVE_a in
  let b := CURVE_b in
  let b3 := modP (b * 3) in
  let t0 := modP (X1 * X2) in
  let t1 := modP (Y1 * Y2) in
  let t2 := modP (Z1 * Z2) in
  let t3 := modP (X1 + Y1) in
  let t4 := modP (X2 + Y2) in
  let t3 := modP (t3 * t4) in
  let t4 := modP (t0 + t1) in
  let t3 := modP (t3 - t4) in
  let t4 := modP (X1 + Z1) in
  let t5 := modP (X2 + Z2) in
  let t4 := modP (t4 * t5) in
  let t5 := modP (t0 + t2) in
  let t4 := modP (t4 - t5) in
  let t5 := modP (Y1 + Z1) in
  let X3 := modP (Y2 + Z2) in
  let t5 := modP (t5 * X3) in
  let X3 := modP (t1 + t2) in
  let t5 := modP (t5 - X3) in
  let Z3 := modP (a * t4) in
  let X3 := modP (b3 * t2) in
  let Z3 := modP (X3 + Z3) in
  let X3 := modP (t1 - Z3) in
  let Z3 := modP (t1 + Z3) in
  let Y3 := modP (X3 * Z3) in
  let t1 := modP (t0 + t0) in
  let t1 := modP (t1 + t0) in
  let t2 := modP (a * t2) in
  let t4 := modP (b3 * t4) in
  let t1 := modP (t1 + t2) in
  let t2 := modP (t0 - t2) in
  let t2 := modP (a * t2) in
  let t4 := modP (t4 + t2) in
  let t0 := modP (t1 * t4) in
  let Y3 := modP (Y3 + t0) in
  let t0 := modP (t5 * t4) in
  let X3 := modP (t3 * X3) in
  let X3 := modP (X3 - t0) in
  let t0 := modP (t3 * t1) in
  let Z3 := modP (t5 * Z3) in
  let Z3 := modP (Z3 + t0) in
  mkPoint X3 Y3 Z3.

Definition double (this : SECP256K1Point) : SECP256K1Point := add this this.

(** *** Scalar multiplication

    The ladder is instrumented: every call of [add] made by [mul] is logged,
    with the variable it updates. *)
Inductive group_op : Type :=
| AddResult   (* p = p.add(d) *)
| AddFake     (* f = f.add(d) *)
| Double.     (* d = d.double() *)

#[global] Instance group_op_eq_dec : EqDecision group_op.
Proof. solve_decision. Defined.

Record ladder : Type := mkLadder
  { result_point : SECP256K1Point;
    fake_point : SECP256K1Point;
    ops : list group_op }.

(** One pass through the loop body for the lowest bit of the scalar. *)
Definition ladder_body (bit safe : bool) (d : SECP256K1Point) (s : ladder) : ladder :=
  if bit then mkLadder (add (result_point s) d) (fake_point s) (ops s ++ [AddResult])
  else if safe then mkLadder (result_point s) (add (fake_point s) d) (ops s ++ [AddFake])
  else s.

(** [for (let d = this; n > 0n; d = d.double(), n >>= 1n) { body }].
    A positive bigint is its binary digits, lowest first: [n & 1n] reads the
    head constructor and [n >>= 1n] drops it, so the loop is a recursion on
    the digits ([mul_loop_step] states it with [Z.land] and [Z.shiftr]). *)
Fixpoint mul_loop (n : positive) (safe : bool) (d : SECP256K1Point) (s : ladder) : ladder :=
  let bit := match n with xO _ => false | _ => true end in
  let s1 := ladder_body bit safe d s in
  let s2 := mkLadder (result_point s1) (fake_point s1) (ops s1 ++ [Double]) in
  match n with
  | xH => s2
  | xO n' | xI n' => mul_loop n' safe (double d) s2
  end.

Definition mul_loopZ (n : Z) (safe : bool) (d : SECP256K1Point) (s : ladder) : ladder :=
  match n with
  | Zpos q => mul_loop q safe d s
  | _ => s
  end.

(** [mul(n, safe = true)], with the log of the additions it made. *)
Definition mul_ops (this : SECP256K1Point) (n : Z) (safe : bool)
  : result (SECP256K1Point * list group_op) :=
  if negb safe && (n =? 0) then Ok (I, [])
  else if negb (ge n) then Throw InvalidScalar
  else
    let s := mul_loopZ n safe this (mkLadder I G []) in
    Ok (result_point s, ops s).

Definition mul (this : SECP256K1Point) (n : Z) (safe : bool) : result SECP256K1Point :=
  fst <$> mul_ops this n safe.

(** *** Modular inverse and affine form *)

(** The [while (a !== 0n)] loop of [inv]; [fuel] bounds the number of rounds. *)
Fixpoint inv_loop (fuel : nat) (a b x y u v : Z) : result (Z * Z) :=
  if a =? 0 then Ok (b, x)
  else
    match fuel with
    | O => Throw OutOfFuel
    | S fuel' =>
        let q := Z.quot b a in
        let r := Z.rem b a in
        let m := x - u * q in
        let n := y - v * q in
        inv_loop fuel' r a u v m n
    end.

Definition inv (num md : Z) : result Z :=
  if (num =? 0) || (md <=? 0) then Throw NoInverse
  else
    a ← mod_ num md;
    '(b, x) ← inv_loop (Z.to_nat (2 * Z.log2_up md + 2)) a md 0 1 1 0;
    if b =? 1 then mod_ x md else Throw NoInverse.

Definition toAffine (this : SECP256K1Point) : result (Z * Z) :=
  let '(mkPoint x y z) := this in
  if equals this I then Ok (0, 0)
  else if z =? 1 then Ok (x, y)
  else
    iz ← inv z P;
    if negb (modP (z * iz) =? 1) then Throw InvalidInverse
    else Ok (modP (x * iz), modP (y * iz)).

Definition assertValidity (this : SECP256K1Point) : result SECP256K1Point :=
  '(x, y) ← toAffine this;
  if negb (fe x) || negb (fe y) then Throw PointInvalid
  else if modP (y * y) =? crv x then Ok this
  else Throw PointInvalid.

End Noble.


(** *** The log of a safe multiplication, bit by bit *)

Definition bit_length (n : Z) : nat := Z.to_nat (Z.log2 n + 1).

(** What one round of the safe ladder logs for bit [i] of the scalar. *)
Definition iteration_ops (n : Z) (i : nat) : list Noble.group_op :=
  [if Z.testbit n (Z.of_nat i) then Noble.AddResult else Noble.AddFake; Noble.Double].

Definition safe_trace (n : Z) : list Noble.group_op :=
  flat_map (iteration_ops n) (seq 0 (bit_length n)).

Definition count_op (o : Noble.group_op) (t : list Noble.group_op) : nat :=
  length (filter (fun x => x = o) t).

(** ** Curves *)

Record Curve : Type := mkCurve
  { curve_name : string;
    curve_G : Z * Z;
    curve_N : Z;
    curve_P : Z }.

#[global] Instance Curve_eq_dec : EqDecision Curve.
Proof. solve_decision. Defined.

Definition SECP256K1 : string := "SECP256K1".
Definition ED25519 : string := "ED25519".

(** [new Curve(curve)]. *)
Definition Curve_new (curve : string) : result Curve :=
  if String.eqb curve SECP256K1
  then Ok (mkCurve curve (Noble.Gx, Noble.Gy) Noble.N Noble.P)
  else Throw UnknownCurve.

Definition secp256k1 : Curve := mkCurve SECP256K1 (Noble.Gx, Noble.Gy) Noble.N Noble.P.

(** Modelled from the spec: the helper [modulo] of the utilities is not among
    the sources; it is the reduction to the canonical representative, the
    same computation as the vendored [mod]. *)
Definition modulo (n p : Z) : result Z := Noble.mod_ n p.

(** [Curve.isOnCurve(point)], on the coordinates read from the point. *)
Definition isOnCurve (this : Curve) (point : Z * Z) : result bool :=
  let '(x, y) := point in
  if String.eqb (curve_name this) SECP256K1 then
    if (curve_P this <=? x) || (curve_P this <=? y) || (x <=? 0) || (y <=? 0)
    then Ok false
    else
      m ← modulo (x ^ 3 + 7 - y ^ 2) (curve_P this);
      Ok (m =? 0)
  else Ok false.

(** ** Points

    The class [Point] is not among the sources.  Its fields are the ones the
    sources read ([curve], [x], [y]); a [Point] object also has an identity,
    which is what a JavaScript [Set] compares. *)

Record Point : Type := mkPt
  { point_curve : Curve;
    point_x : Z;
    point_y : Z }.

#[global] Instance Point_eq_dec : EqDecision Point.
Proof. solve_decision. Defined.

Record PointObj : Type := mkObj
  { addr : nat;       (* identity of the object *)
    val : Point }.    (* its fields *)

(** [curve.GtoPoint()]. *)
Definition GtoPoint (this : Curve) : Point :=
  mkPt this (fst (curve_G this)) (snd (curve_G this)).

(** [new Set(ring).size]: objects are set members by identity. *)
Definition Set_size (ring : list PointObj) : nat :=
  length (remove_dups (addr <$> ring)).

(** White space and line terminators, among the code units below 256. *)
Definition is_white_space (ch : ascii) : bool :=
  let n := nat_of_ascii ch in
  ((9 <=? n) && (n <=? 13) || (n =? 32) || (n =? 160))%nat.

Fixpoint trimEnd (s : string) : string :=
  match s with
  | EmptyString => EmptyString
  | String ch s' =>
      match trimEnd s' with
      | EmptyString => if is_white_space ch then EmptyString else String ch EmptyString
      | t => String ch t
      end
  end.

(** [BigInt("0x" + s)]: white space at the end of the literal is dropped;
    what is left after the prefix has to be one hexadecimal digit or more. *)
Definition hex_digit (ch : ascii) : option Z :=
  let n := Z.of_nat (nat_of_ascii ch) in
  if (48 <=? n) && (n <=? 57) then Some (n - 48)
  else if (97 <=? n) && (n <=? 102) then Some (n - 87)
  else if (65 <=? n) && (n <=? 70) then Some (n - 55)
  else None.

Fixpoint hex_value (acc : Z) (s : string) : option Z :=
  match s with
  | EmptyString => Some acc
  | String ch s' =>
      match hex_digit ch with
      | Some d => hex_value (16 * acc + d) s'
      | None => None
      end
  end.

Definition BigInt_0x (s : string) : result Z :=
  match trimEnd s with
  | EmptyString => Throw SyntaxError
  | digits => match hex_value 0 digits with
              | Some z => Ok z
              | None => Throw SyntaxError
              end
  end.

(** [a.slice(0, i).concat([v], a.slice(j))]. *)
Definition splice {A} (a : list A) (i j : nat) (v : A) : list A :=
  take i a ++ [v] ++ drop j a.

(** *** Indices that are JavaScript numbers

    [slice] reads an index through ToIntegerOrInfinity: [NaN] is [0], an
    index below zero counts from the end of the array, and the position is
    clamped to the array.  The numbers of the model are the integers, [NaN]
    and the two infinities; on an integer, [pi + 1] is the next integer (a
    double of [2^53] or more and its successor both lie beyond every array,
    so the rounding of the sum there changes nothing).  Numbers with a
    fractional part are not in the model. *)
Inductive number : Type :=
| Integer (z : Z)
| NaN
| Infinity
| MinusInfinity.

(** [n + 1]. *)
Definition number_succ (n : number) : number :=
  match n with
  | Integer z => Integer (z + 1)
  | _ => n
  end.

(** The position [slice] makes of an index, in an array of [len] elements. *)
Definition slice_index (len : nat) (n : number) : nat :=
  match n with
  | Integer z => if z <? 0 then Z.to_nat (Z.max (Z.of_nat len + z) 0)
                 else Z.to_nat (Z.min z (Z.of_nat len))
  | NaN => 0
  | Infinity => len
  | MinusInfinity => 0
  end.

(** [a.slice(start, end)], and [a.slice(start)] when [end_] is [None]. *)
Definition slice {A} (a : list A) (start : number) (end_ : option number) : list A :=
  let k := slice_index (length a) start in
  let final := match end_ with
               | Some e => slice_index (length a) e
               | None => length a
               end in
  take (final - k) (drop k a).

(** [a[i] = v] on an array: overwrite inside, push at the end; a write
    further out would leave holes, on which the later reads fail. *)
Definition array_set {A} (a : list A) (i : nat) (v : A) : result (list A) :=
  if (i <? length a)%nat then Ok (<[i := v]> a)
  else if (i =? length a)%nat then Ok (a ++ [v])
  else Throw TypeError.

(** ** What a run takes from outside

    [randomBigint] and [getRandomSecuredNumber] are not among the sources;
    their results are read from the record below.  Modelled from the spec:
    [randomBigint(max)] is an integer of [[1, max - 1]] and
    [getRandomSecuredNumber(min, max)] an integer of [[min, max]]; the
    theorems state these ranges as hypotheses ([draws_in_range]). *)
Record world : Type := mkWorld
  { randomBigint_draw : nat -> Z;   (* result of the k-th call of randomBigint *)
    securedNumber_draw : nat;       (* result of getRandomSecuredNumber *)
    fresh_addr : nat }.             (* identity of the next object created *)

Record RingSignature : Type := mkRingSignature
  { sig_message : string;
    sig_ring : list PointObj;
    sig_c : Z;
    sig_responses : list Z;
    sig_curve : Curve }.

Record PartialSignature : Type := mkPartialSignature
  { ps_message : string;
    ps_ring : list PointObj;
    ps_c : Z;
    ps_cpi : Z;
    ps_responses : list Z;
    ps_pi : number;
    ps_alpha : Z;
    ps_curve : Curve }.

(** The object [signature] returns. *)
Record RawSignature : Type := mkRaw
  { raw_ring : list PointObj;
    raw_pi : nat;
    raw_cees : list Z;
    raw_alpha : Z;
    raw_signerIndex : nat;
    raw_responses : list Z }.

(** [new RingSignature(message, ring, c, responses, curve, safeMode = false)]. *)
Definition RingSignature_new (message : string) (ring : list PointObj) (c : Z)
    (responses : list Z) (curve : Curve) (safeMode : bool) : result RingSignature :=
  if negb (length ring =? length responses)%nat then Throw RingResponseLengthMismatch
  else if safeMode &&
          existsb (fun i => negb (String.eqb (curve_name (point_curve (val i)))
                                             (curve_name curve))) ring
  then Throw CurveMismatch
  else Ok (mkRingSignature message ring c responses curve).

(** ** Ring validation *)

(** Modelled from the spec: [checkPoint] is only declared in the sources.
    It fails with [InvalidPoint] if the point's recorded curve differs from
    the reference curve or the point fails [isOnCurve]. *)
Definition checkPoint (index : nat) (point : Point) (curve : Curve) : result unit :=
  if negb (bool_decide (point_curve point = curve)) then Throw (InvalidPoint index)
  else
    isOnCurve curve (point_x point, point_y point) ≫= fun valid : bool =>
    if valid then Ok tt else Throw (InvalidPoint index).

Fixpoint checkPoints (index : nat) (ring : list PointObj) (curve : Curve) : result unit :=
  match ring with
  | [] => Ok tt
  | K :: ring' =>
      checkPoint index (val K) curve ≫= fun _ =>
      checkPoints (S index) ring' curve
  end.

(** Two entries are affine-equal: same curve, same coordinates. *)
Fixpoint has_affine_duplicates (ring : list Point) : bool :=
  match ring with
  | [] => false
  | K :: ring' => existsb (fun K' => bool_decide (K = K')) ring' || has_affine_duplicates ring'
  end.

(** Modelled from the spec: [checkRing] is only declared in the sources.
    It fails with [EmptyRing] for an empty ring unless [allowEmpty], with
    [DuplicateRingMember] if two entries are affine-equal, and with
    [InvalidPoint], with the index, for an entry that is not a valid point
    of the curve.  The spec does not say which of the last two checks comes
    first: [checkRing] takes them in the order the spec lists them, and
    [checkRing_points_first] in the other order. *)
Definition checkRing (ring : list PointObj) (curve : Curve) (allowEmpty : bool)
  : result unit :=
  if (length ring =? 0)%nat && negb allowEmpty then Throw EmptyRing
  else if has_affine_duplicates (val <$> ring) then Throw DuplicateRingMember
  else checkPoints 0 ring curve.

Definition checkRing_points_first (ring : list PointObj) (curve : Curve) (allowEmpty : bool)
  : result unit :=
  if (length ring =? 0)%nat && negb allowEmpty then Throw EmptyRing
  else
    checkPoints 0 ring curve ≫= fun _ =>
    if has_affine_duplicates (val <$> ring) then Throw DuplicateRingMember else Ok tt.

(** The neutral element as a ring member: the affine form [toAffine] gives it. *)
Definition identity_point (curve : Curve) : Point := mkPt curve 0 0.

(** ** The library under the ring-signature class

    The class [Point], the hash and the ed25519 key expansion are not among
    the sources; the protocol is written against this interface. *)
Class Library : Type := mkLibrary
  { smul : Z -> Point -> Point;                  (* the curve's k·P *)
    padd : Point -> Point -> Point;              (* the curve's P + Q *)
    Point_toString : Point -> string;            (* point.toString() *)
    keccak256 : string -> string;                (* hexadecimal digest *)
    (* ed.utils.getExtendedPublicKey(key): the expanded scalar, and the
       point that pointBytes encodes *)
    getExtendedPublicKey : Z -> Z * Point }.

Section RingProtocol.

Context {lib : Library}.

(** Modelled from the spec: [Point.mult] is not among the sources; scalar
    multiplication fails with [InvalidScalar] if the scalar is not in
    [[1, N-1]], as the vendored [mul] does in safe mode.  The spec lets an
    implementation return the identity for the scalar [0] where no key is
    involved; the model takes the rule without that exception. *)
Definition Point_mult (this : Point) (scalar : Z) : result Point :=
  if (0 <? scalar) && (scalar <? curve_N (point_curve this))
  then Ok (smul scalar this)
  else Throw InvalidScalar.

(** Modelled from the spec: [Point.add] is not among the sources; the group
    law is complete, so addition does not fail. *)
Definition Point_add (this other : Point) : Point := padd this other.

(** [derivePubKey(privateKey, curve)]; the result is a new object. *)
Definition derivePubKey (w : world) (privateKey : Z) (curve : Curve) : result PointObj :=
  K ← Point_mult (GtoPoint curve) privateKey;
  Ok (mkObj (fresh_addr w) K).

(** Modelled from the spec: [piSignature] is only declared in the sources.
    It returns [(alpha - c * privateKey) mod N] and fails with
    [InvalidParams] if the private key is [0] or [>= N]. *)
Definition piSignature (alpha c signerPrivKey : Z) (curve : Curve) : result Z :=
  if (signerPrivKey =? 0) || (curve_N curve <=? signerPrivKey) then Throw InvalidParams
  else modulo (alpha - c * signerPrivKey) (curve_N curve).

(** Modelled from the spec: [verifyPiSignature] is only declared in the
    sources.  It accepts iff [G·response + signerPubKey·c == G·alpha]. *)
Definition verifyPiSignature (alpha : Z) (signerPubKey : Point) (c piSig : Z)
    (curve : Curve) : result bool :=
  let G := GtoPoint curve in
  rG ← Point_mult G piSig;
  cK ← Point_mult signerPubKey c;
  aG ← Point_mult G alpha;
  Ok (bool_decide (Point_add rG cK = aG)).

(** A JavaScript value of one of the two kinds the class hands to
    [verifyPiSignature]. *)
Inductive value : Type :=
| Bigint (z : Z)
| PointValue (K : Point).

(** Modelled from the spec: a call [verifyPiSignature(a1, a2, a3, a4, curve)]
    binds its arguments to the parameters in the order of the declaration,
    [(alpha, signerPubKey, c, piSignature, curve)], whatever they are.  The
    function multiplies [signerPubKey] by a method call and hands the three
    others to scalar multiplication as bigints: on a value of the other
    kind in one of these places the call raises a [TypeError]. *)
Definition verifyPiSignature_call (a1 a2 a3 a4 : value) (curve : Curve) : result bool :=
  match a1, a2, a3, a4 with
  | Bigint alpha, PointValue signerPubKey, Bigint c, Bigint piSig =>
      verifyPiSignature alpha signerPubKey c piSig curve
  | _, _, _, _ => Throw TypeError
  end.

(** [ring + ...]: an array in a string concatenation is its elements
    joined by commas. *)
Definition ring_toString (ring : list PointObj) : string :=
  String.concat "," ((fun K => Point_toString (val K)) <$> ring).

(** [RingSignature.computeC]. *)
Definition computeC (ring : list PointObj) (message : string) (G : Point) (N : Z)
    (r previousC : Z) (previousPubKey : Point) : result Z :=
  rG ← Point_mult G r;
  cK ← Point_mult previousPubKey previousC;
  h ← BigInt_0x (keccak256 (ring_toString ring +:+ message
                             +:+ Point_toString (Point_add rG cK)));
  modulo h N.

(** The loop [for (let i = pi + 2; i < ring.length; i++)] of [signature],
    with [steps] rounds left. *)
Fixpoint cValuesPI1N_loop (ring : list PointObj) (messageDigest : string) (G : Point)
    (N : Z) (responses : list Z) (pi : nat)
    (steps i : nat) (cValuesPI1N : list Z) : result (list Z) :=
  match steps with
  | O => Ok cValuesPI1N
  | S steps' =>
      r ← at_index responses (i - 1);
      previousC ← at_index cValuesPI1N (i - pi - 2);
      K ← at_index ring (i - 1);
      cnew ← computeC ring messageDigest G N r previousC (val K);
      cValuesPI1N_loop ring messageDigest G N responses pi steps' (S i)
        (cValuesPI1N ++ [cnew])
  end.

(** The loop [for (let i = 1; i < pi + 1; i++)] of [signature]. *)
Fixpoint cValues0PI_loop (ring : list PointObj) (messageDigest : string) (G : Point)
    (N : Z) (responses : list Z)
    (steps i : nat) (cValues0PI : list Z) : result (list Z) :=
  match steps with
  | O => Ok cValues0PI
  | S steps' =>
      r ← at_index responses (i - 1);
      previousC ← at_index cValues0PI (i - 1);
      K ← at_index ring (i - 1);
      cnew ← computeC ring messageDigest G N r previousC (val K);
      cValues0PI ← array_set cValues0PI i cnew;
      cValues0PI_loop ring messageDigest G N responses steps' (S i) cValues0PI
  end.

(** [RingSignature.signature(curve, ring, signerKey, message)]; the key is
    a private key (a bigint) or a public key (a point). *)
Definition signature (w : world) (curve : Curve) (ring : list PointObj)
    (signerKey : Z + PointObj) (message : string) : result RawSignature :=
  let G := GtoPoint curve in
  let messageDigest := keccak256 message in
  let alpha := randomBigint_draw w 0 in
  signerPubKey ← match signerKey with
                 | inl k => derivePubKey w k curve
                 | inr K => Ok K
                 end;
  let pi := securedNumber_draw w in
  let ring := splice ring pi pi signerPubKey in
  if negb (Set_size ring =? length ring)%nat then Throw DuplicateRingMember
  else
    let responses := (fun i => randomBigint_draw w (S i)) <$> seq 0 (length ring) in
    aG ← Point_mult G alpha;
    h ← BigInt_0x (keccak256 (ring_toString ring +:+ messageDigest
                               +:+ Point_toString aG));
    cpi1 ← modulo h (curve_N curve);
    cValuesPI1N ← cValuesPI1N_loop ring messageDigest G (curve_N curve) responses pi
                    (length ring - (pi + 2)) (pi + 2) [cpi1];
    rl ← at_index responses (length responses - 1);
    cl ← at_index cValuesPI1N (length cValuesPI1N - 1);
    Kl ← at_index ring (length ring - 1);
    c0 ← computeC ring messageDigest G (curve_N curve) rl cl (val Kl);
    cValues0PI ← cValues0PI_loop ring messageDigest G (curve_N curve) responses
                   pi 1 [c0];
    let cees := cValues0PI ++ cValuesPI1N in
    Ok (mkRaw ring pi cees alpha pi responses).

(** [RingSignature.signEd25519XRPL]. *)
Definition signEd25519XRPL (w : world) (ring : list PointObj) (signerPrivateKey : Z)
    (message : string) (curve : Curve) : result RingSignature :=
  let ExtendedPublicKey := getExtendedPublicKey signerPrivateKey in
  if (length ring =? 0)%nat then
    let c := randomBigint_draw w 0 in
    alpha ← modulo (2 * c + 1) (curve_N curve);
    sig ← piSignature alpha c (fst ExtendedPublicKey) curve;
    RingSignature_new message [mkObj (fresh_addr w) (snd ExtendedPublicKey)] c [sig]
      curve false
  else
    rawSignature ← signature w curve ring (inl (fst ExtendedPublicKey)) message;
    cpi ← at_index (raw_cees rawSignature) (raw_pi rawSignature);
    signerResponse ← piSignature (raw_alpha rawSignature) cpi (fst ExtendedPublicKey) curve;
    c0 ← at_index (raw_cees rawSignature) 0;
    RingSignature_new message (raw_ring rawSignature) c0
      (splice (raw_responses rawSignature) (raw_pi rawSignature)
              (raw_pi rawSignature + 1) signerResponse)
      curve false.

(** [RingSignature.sign(ring, signerPrivateKey, message, curve)]. *)
Definition sign (w : world) (ring : list PointObj) (signerPrivateKey : Z)
    (message : string) (curve : Curve) : result RingSignature :=
  if String.eqb (curve_name curve) ED25519
  then signEd25519XRPL w ring signerPrivateKey message curve
  else if (length ring =? 0)%nat then
    let c := randomBigint_draw w 0 in
    alpha ← modulo (2 * c + 1) (curve_N curve);
    sig ← piSignature alpha c signerPrivateKey curve;
    K ← Point_mult (GtoPoint curve) signerPrivateKey;
    RingSignature_new message [mkObj (fresh_addr w) K] c [sig] curve false
  else
    rawSignature ← signature w curve ring (inl signerPrivateKey) message;
    cpi ← at_index (raw_cees rawSignature) (raw_pi rawSignature);
    signerResponse ← piSignature (raw_alpha rawSignature) cpi signerPrivateKey curve;
    c0 ← at_index (raw_cees rawSignature) 0;
    RingSignature_new message (raw_ring rawSignature) c0
      (splice (raw_responses rawSignature) (raw_pi rawSignature)
              (raw_pi rawSignature + 1) signerResponse)
      curve false.

(** [RingSignature.partialSign(ring, message, signerPubKey, curve)]. *)
Definition partialSign (w : world) (ring : list PointObj) (message : string)
    (signerPubKey : PointObj) (curve : Curve) : result PartialSignature :=
  if (length ring =? 0)%nat then Throw PartialSignEmptyRing
  else
    rawSignature ← signature w curve ring (inr signerPubKey) message;
    c0 ← at_index (raw_cees rawSignature) 0;
    cpi ← at_index (raw_cees rawSignature) (raw_pi rawSignature);
    Ok (mkPartialSignature message (raw_ring rawSignature) c0 cpi
          (raw_responses rawSignature) (Integer (Z.of_nat (raw_pi rawSignature)))
          (raw_alpha rawSignature) curve).

(** [RingSignature.combine(partialSig, signerResponse)]:
    [responses.slice(0, pi).concat([signerResponse], responses.slice(pi + 1))],
    for whatever number [pi] the caller's object holds. *)
Definition combine (partialSig : PartialSignature) (signerResponse : Z)
  : result RingSignature :=
  RingSignature_new (ps_message partialSig) (ps_ring partialSig) (ps_c partialSig)
    (slice (ps_responses partialSig) (Integer 0) (Some (ps_pi partialSig))
     ++ [signerResponse]
     ++ slice (ps_responses partialSig) (number_succ (ps_pi partialSig)) None)
    (ps_curve partialSig) false.

(** The loop [for (let i = 2; i < this.ring.length; i++)] of [verify]. *)
Fixpoint verify_loop (this : RingSignature) (messageDigest : string) (G : Point)
    (steps i : nat) (lastComputedCp : Z) : result Z :=
  match steps with
  | O => Ok lastComputedCp
  | S steps' =>
      r ← at_index (sig_responses this) (i - 1);
      K ← at_index (sig_ring this) (i - 1);
      cnew ← computeC (sig_ring this) messageDigest G (curve_N (sig_curve this))
               r lastComputedCp (val K);
      verify_loop this messageDigest G steps' (S i) cnew
  end.

(** [RingSignature.prototype.verify()].  On a ring of one key it calls
    [verifyPiSignature(this.ring[0], this.responses[0], modulo(2n * this.c + 1n, N),
    this.c, this.curve)]. *)
Definition verify (this : RingSignature) : result bool :=
  if (length (sig_ring this) =? 0)%nat then Throw EmptyRing
  else if negb (length (sig_ring this) =? length (sig_responses this))%nat
  then Throw RingResponseLengthMismatch
  else
    let G := GtoPoint (sig_curve this) in
    if (1 <? length (sig_ring this))%nat then
      let messageDigest := keccak256 (sig_message this) in
      r0 ← at_index (sig_responses this) 0;
      K0 ← at_index (sig_ring this) 0;
      c1 ← computeC (sig_ring this) messageDigest G (curve_N (sig_curve this))
             r0 (sig_c this) (val K0);
      lastComputedCp ← verify_loop this messageDigest G
                         (length (sig_ring this) - 2) 2 c1;
      rl ← at_index (sig_responses this) (length (sig_responses this) - 1);
      Kl ← at_index (sig_ring this) (length (sig_ring this) - 1);
      c0 ← computeC (sig_ring this) messageDigest G (curve_N (sig_curve this))
             rl lastComputedCp (val Kl);
      Ok (sig_c this =? c0)
    else
      K0 ← at_index (sig_ring this) 0;
      r0 ← at_index (sig_responses this) 0;
      alpha ← modulo (2 * sig_c this + 1) (curve_N (sig_curve this));
      verifyPiSignature_call (PointValue (val K0)) (Bigint r0) (Bigint alpha)
        (Bigint (sig_c this)) (sig_curve this).

(** ** The chain as a run of one step *)

(** One link of the chain: the challenge that follows slot [j], computed
    from that slot's response, challenge and key. *)
Definition chain_step (ring : list PointObj) (messageDigest : string) (G : Point) (N : Z)
    (responses : list Z) (j : nat) (c : Z) : result Z :=
  r ← at_index responses j;
  K ← at_index ring j;
  computeC ring messageDigest G N r c (val K).

(** The links of the slots [slots], one after the other, starting from [c]. *)
Fixpoint chain_run (step : nat -> Z -> result Z) (slots : list nat) (c : Z) : result Z :=
  match slots with
  | [] => Ok c
  | j :: slots' => step j c ≫= chain_run step slots'
  end.

(** Challenge [j+1] (cyclically) of [cees] is the link of slot [j]. *)
Definition linked (ring : list PointObj) (messageDigest : string) (G : Point) (N : Z)
    (responses cees : list Z) (j : nat) : Prop :=
  exists c c',
    cees !! j = Some c /\
    cees !! ((j + 1) `mod` length cees)%nat = Some c' /\
    chain_step ring messageDigest G N responses j c = Ok c'.


(** Ranges of the values drawn, as the spec gives them. *)
Definition draws_in_range (w : world) (ring : list PointObj) (curve : Curve) : Prop :=
  (forall k, 0 < randomBigint_draw w k < curve_N curve) /\
  (securedNumber_draw w <= length ring - 1)%nat.

(** The errors the chain can raise: from scalar multiplication, from the
    conversion of the digest, from a reduction modulo zero, from a read past
    the end of an array. *)
Definition chain_error (e : error) : Prop :=
  e = InvalidScalar \/ e = SyntaxError \/ e = RangeError \/ e = TypeError.

(** Those of them that an operation the chain calls raises: scalar
    multiplication, the conversion of the digest, the reduction. *)
Definition operation_error (e : error) : Prop :=
  e = InvalidScalar \/ e = SyntaxError \/ e = RangeError.

(** The digest is a string of hexadecimal digits. *)
Definition digest_is_hex : Prop :=
  forall s, exists z, BigInt_0x (keccak256 s) = Ok z.

End RingProtocol.

(** ** The duplicate check of the array version

    The version of [sign] and [partialSign] that keeps the ring as an array
    of coordinate pairs compares them pairwise:
    [for i: for j = i + 1: if (ring[i][0] === ring[j][0] && ring[i][1] === ring[j][1]) throw]. *)
Fixpoint duplicate_of (Ki : Z * Z) (rest : list (Z * Z)) : result unit :=
  match rest with
  | [] => Ok tt
  | Kj :: rest' =>
      if (fst Ki =? fst Kj) && (snd Ki =? snd Kj) then Throw DuplicateRingMember
      else duplicate_of Ki rest'
  end.

Fixpoint check_duplicates (ring : list (Z * Z)) : result unit :=
  match ring with
  | [] => Ok tt
  | Ki :: rest => duplicate_of Ki rest ≫= fun _ => check_duplicates rest
  end.

Definition coordinates (K : PointObj) : Z * Z := (point_x (val K), point_y (val K)).

(** ** The array version

    [src/src/ringSignature.ts] is an earlier version of the class: a point
    is the pair of its coordinates, the responses are points, the curve is
    a member of an enumeration, and the constructor checks nothing.  Its
    helpers [mult], [add] and [modulo], the hash and [piSignature] are not
    among the sources: they are the operations of the class [Utils], and
    may raise.  A read past the end of an array hands [undefined] to one
    of them, which is taken to raise a [TypeError]; the draws are read from
    the record [world], as in the class version. *)
Module ArrayVersion.

(** The constants of [src/src/utils/curveConst.ts], which the class reads
    as [SECP256K1.P] and [SECP256K1.G]; [l] is the order of the group. *)
Module SECP256K1.

Definition P : Z := 2 ^ 256 - 2 ^ 32 - 977.
Definition Gx : Z :=
  55066263022277343669578718895168534326250603453777594175500187360389116729240.
Definition Gy : Z :=
  32670510020758816978083085130507043184471273380659243275938904335757337482424.
Definition G : Z * Z := (Gx, Gy).
Definition l : Z := 0xFFFFFFFFFFFFFFFFFFFFFFFFFFFFFFFEBAAEDCE6AF48A03BBFD25E8CD0364141.

End SECP256K1.

(** The enumeration [Curve]; [Curve_other] is a value outside it, which
    JavaScript lets a caller pass. *)
Inductive Curve : Type := Curve_SECP256K1 | Curve_ED25519 | Curve_other.

Record RingSignature : Type := mkRingSignature
  { sig_message : string;
    sig_ring : list (Z * Z);
    sig_c : Z;
    sig_responses : list (Z * Z);
    sig_curve : Curve }.

Class Utils : Type := mkUtils
  { mult : Z -> Z * Z -> result (Z * Z);          (* mult(scalar, point) *)
    add : Z * Z -> Z * Z -> result (Z * Z);       (* add(point, point) *)
    modulo_string : Z * Z -> Z -> result string;  (* String(modulo(point, P)) *)
    keccak256 : string -> string;                 (* hexadecimal digest *)
    (* piSignature(alpha, c, signerPrivKey, curve), a point in this version *)
    piSignature : Z -> Z -> Z -> Curve -> result (Z * Z) }.

Section Protocol.

Context {utils : Utils}.

(** [ring + ...]: the coordinates of all the pairs, joined by commas. *)
Definition ring_toString (ring : list (Z * Z)) : string :=
  String.concat "," ((fun K => pretty (fst K) +:+ "," +:+ pretty (snd K)) <$> ring).

(** [BigInt("0x" + keccak256(ring + messageDigest + String(modulo(point, P))))],
    the expression every challenge of this version is. *)
Definition challenge (ring : list (Z * Z)) (messageDigest : string) (P : Z)
    (point : Z * Z) : result Z :=
  s ← modulo_string point P;
  BigInt_0x (keccak256 (ring_toString ring +:+ messageDigest +:+ s)).

(** The challenge that follows a slot:
    [challenge] of [add(response, mult(c, publicKey))]. *)
Definition next_challenge (ring : list (Z * Z)) (messageDigest : string) (P : Z)
    (response : Z * Z) (c : Z) (publicKey : Z * Z) : result Z :=
  cK ← mult c publicKey;
  sum ← add response cK;
  challenge ring messageDigest P sum.

(** The loop [for (let i = pi + 2; i < ring.length; i++)] of [sign]. *)
Fixpoint cValuesPI1N_loop (ring : list (Z * Z)) (messageDigest : string) (P : Z)
    (responses : list (Z * Z)) (pi : nat)
    (steps i : nat) (cValuesPI1N : list Z) : result (list Z) :=
  match steps with
  | O => Ok cValuesPI1N
  | S steps' =>
      r ← at_index responses (i - 1);
      previousC ← at_index cValuesPI1N (i - pi - 2);
      K ← at_index ring (i - 1);
      cnew ← next_challenge ring messageDigest P r previousC K;
      cValuesPI1N_loop ring messageDigest P responses pi steps' (S i)
        (cValuesPI1N ++ [cnew])
  end.

(** The loop [for (let i = 1; i < pi + 1; i++)] of [sign]. *)
Fixpoint cValues0PI_loop (ring : list (Z * Z)) (messageDigest : string) (P : Z)
    (responses : list (Z * Z))
    (steps i : nat) (cValues0PI : list Z) : result (list Z) :=
  match steps with
  | O => Ok cValues0PI
  | S steps' =>
      r ← at_index responses (i - 1);
      previousC ← at_index cValues0PI (i - 1);
      K ← at_index ring (i - 1);
      cnew ← next_challenge ring messageDigest P r previousC K;
      cValues0PI ← array_set cValues0PI i cnew;
      cValues0PI_loop ring messageDigest P responses steps' (S i) cValues0PI
  end.

(** [RingSignature.sign(ring, signerPrivKey, message, curve)].  The test
    [curve !== Curve.SECP256K1] that follows the [switch] cannot fail after
    it, and is left out. *)
Definition sign (w : world) (ring : list (Z * Z)) (signerPrivKey : Z) (message : string)
    (curve : Curve) : result RingSignature :=
  match curve with
  | Curve_ED25519 => Throw NotImplemented
  | Curve_other => Throw UnknownCurve
  | Curve_SECP256K1 =>
      let P := SECP256K1.P in
      let G := SECP256K1.G in
      let messageDigest := keccak256 message in
      let alpha := randomBigint_draw w 0 in
      signerPubKey ← mult signerPrivKey G;
      let pi := securedNumber_draw w in
      let ring := splice ring pi pi signerPubKey in
      _ ← check_duplicates ring;
      responses ← mapM (fun i => mult (randomBigint_draw w (S i)) G) (seq 0 (length ring));
      aG ← mult alpha G;
      cpi1 ← challenge ring messageDigest P aG;
      cValuesPI1N ← cValuesPI1N_loop ring messageDigest P responses pi
                      (length ring - (pi + 2)) (pi + 2) [cpi1];
      rl ← at_index responses (length responses - 1);
      cl ← at_index cValuesPI1N (length cValuesPI1N - 1);
      Kl ← at_index ring (length ring - 1);
      c0 ← next_challenge ring messageDigest P rl cl Kl;
      cValues0PI ← cValues0PI_loop ring messageDigest P responses pi 1 [c0];
      let cees := cValues0PI ++ cValuesPI1N in
      cpi ← at_index cees pi;
      signerResponse ← piSignature alpha cpi signerPrivKey curve;
      c ← at_index cees 0;
      Ok (mkRingSignature message ring c
            (splice responses pi (pi + 1) signerResponse) curve)
  end.

(** The loop [for (let i = 2; i < this.ring.length; i++)] of [verify]. *)
Fixpoint verify_loop (this : RingSignature) (messageDigest : string) (P : Z)
    (steps i : nat) (lastComputedCp : Z) : result Z :=
  match steps with
  | O => Ok lastComputedCp
  | S steps' =>
      r ← at_index (sig_responses this) (i - 1);
      K ← at_index (sig_ring this) (i - 1);
      cnew ← next_challenge (sig_ring this) messageDigest P r lastComputedCp K;
      verify_loop this messageDigest P steps' (S i) cnew
  end.

(** [RingSignature.prototype.verify()]. *)
Definition verify (this : RingSignature) : result bool :=
  if negb (length (sig_ring this) =? length (sig_responses this))%nat
  then Throw RingResponseLengthMismatch
  else
    match sig_curve this with
    | Curve_ED25519 => Throw NotImplemented
    | Curve_other => Throw UnknownCurve
    | Curve_SECP256K1 =>
        let P := SECP256K1.P in
        if (1 <? length (sig_ring this))%nat then
          let messageDigest := keccak256 (sig_message this) in
          r0 ← at_index (sig_responses this) 0;
          K0 ← at_index (sig_ring this) 0;
          c1 ← next_challenge (sig_ring this) messageDigest P r0 (sig_c this) K0;
          lastComputedCp ← verify_loop this messageDigest P
                             (length (sig_ring this) - 2) 2 c1;
          rl ← at_index (sig_responses this) (length (sig_responses this) - 1);
          Kl ← at_index (sig_ring this) (length (sig_ring this) - 1);
          c0 ← next_challenge (sig_ring this) messageDigest P rl lastComputedCp Kl;
          Ok (sig_c this =? c0)
        else Ok false
    end.

(** One link of the chain at slot [j], as in the class version. *)
Definition chain_step (ring : list (Z * Z)) (messageDigest : string) (P : Z)
    (responses : list (Z * Z)) (j : nat) (c : Z) : result Z :=
  r ← at_index responses j;
  K ← at_index ring j;
  next_challenge ring messageDigest P r c K.

(** Challenge [j+1] (cyclically) of [cees] is the link of slot [j]. *)
Definition linked (ring : list (Z * Z)) (messageDigest : string) (P : Z)
    (responses : list (Z * Z)) (cees : list Z) (j : nat) : Prop :=
  exists c c',
    cees !! j = Some c /\
    cees !! ((j + 1) `mod` length cees)%nat = Some c' /\
    chain_step ring messageDigest P responses j c = Ok c'.

End Protocol.

End ArrayVersion.

(** ** Two libraries to run the protocol on *)

(** Modelled from the spec: the arithmetic of the class [Point] is not among
    the sources.  On secp256k1 it is the vendored arithmetic, with the result
    normalised to affine coordinates. *)
Definition secp_affine (cv : Curve) (p : result Noble.SECP256K1Point) : Point :=
  match p ≫= Noble.toAffine with
  | Ok (x, y) => mkPt cv x y
  | Throw _ => mkPt cv 0 0
  end.

Definition secp_smul (k : Z) (p : Point) : Point :=
  secp_affine (point_curve p)
    (Noble.mul (Noble.fromAffine (point_x p, point_y p)) k true).

Definition secp_padd (p q : Point) : Point :=
  secp_affine (point_curve p)
    (Ok (Noble.add (Noble.fromAffine (point_x p, point_y p))
                   (Noble.fromAffine (point_x q, point_y q)))).

(** The secp256k1 library, for any rendering of points, hash and key
    expansion. *)
Definition secp_library (toString : Point -> string) (hash : string -> string)
    (expand : Z -> Z * Point) : Library :=
  mkLibrary secp_smul secp_padd toString hash expand.

(** The additive group of the integers modulo [N], generated by [1]: a
    library on which every step of the protocol can be evaluated. *)
Definition Zn_curve : Curve := mkCurve "CUSTOM" (1, 0) 101 103.

Definition Zn_smul (k : Z) (p : Point) : Point :=
  mkPt (point_curve p) ((k * point_x p) mod curve_N (point_curve p)) 0.

Definition Zn_padd (p q : Point) : Point :=
  mkPt (point_curve p) ((point_x p + point_x q) mod curve_N (point_curve p)) 0.

Definition Zn_toString (p : Point) : string :=
  pretty (point_x p) +:+ "," +:+ pretty (point_y p).

Definition hex_char (n : nat) : ascii :=
  ascii_of_nat (if (n <? 10)%nat then 48 + n else 87 + n).

(** A stand-in digest: a checksum of the characters, as two hexadecimal
    digits. *)
Fixpoint checksum (s : string) (acc : nat) : nat :=
  match s with
  | EmptyString => acc
  | String ch s' => checksum s' ((acc * 31 + nat_of_ascii ch) `mod` 256)
  end.

Definition checksum_digest (s : string) : string :=
  String (hex_char ((checksum s 7 / 16) `mod` 16))
    (String (hex_char (checksum s 7 `mod` 16)) EmptyString).

Definition Zn_library : Library :=
  mkLibrary Zn_smul Zn_padd Zn_toString checksum_digest
    (fun key => (key mod 101, Zn_smul (key mod 101) (GtoPoint Zn_curve))).

Definition Zn_world : world :=
  mkWorld (fun k => 1 + Z.of_nat k mod 100) 1 99.

Definition Zn_ring : list PointObj :=
  [mkObj 0 (mkPt Zn_curve 17 0); mkObj 1 (mkPt Zn_curve 42 0); mkObj 2 (mkPt Zn_curve 5 0)].

(** The library used to run the protocol on secp256k1; the runs below stop
    before any point is rendered or hashed. *)
Definition secp_run : Library :=
  secp_library Zn_toString checksum_digest
    (fun key => (key, secp_smul key (GtoPoint secp256k1))).

(** The signature [sign] returns on [Zn_ring] for the key [7] and the
    message "hello", with the third response raised by one. *)
Definition Zn_tampered : RingSignature :=
  mkRingSignature "hello"
    [mkObj 0 (mkPt Zn_curve 17 0); mkObj 99 (mkPt Zn_curve 7 0);
     mkObj 1 (mkPt Zn_curve 42 0); mkObj 2 (mkPt Zn_curve 5 0)]
    75 [2; 96; 5; 5] Zn_curve.

(** Two entries with the same coordinates, held by two objects. *)
Definition twin_ring : list PointObj :=
  [mkObj 0 (GtoPoint secp256k1); mkObj 1 (GtoPoint secp256k1)].

(** A partial signature with a zero among its responses. *)
Definition zero_response_partial : PartialSignature :=
  mkPartialSignature "m"
    [mkObj 0 (GtoPoint secp256k1); mkObj 1 (secp_smul 2 (GtoPoint secp256k1))]
    5 7 [11; 0] (Integer 0) 3 secp256k1.

(** ** Utilities to run the array version on

    Modelled from the spec: [mult], [add], [modulo] and [piSignature] of
    the array version are not among the sources.  These stand-ins work in
    the integers modulo 101, held in the first coordinate: [mult] and [add]
    are the scalar multiple and the sum, [modulo] reduces both coordinates,
    and the signer's response is the point [(alpha - c * key)·G]. *)
Definition Zn_mult (k : Z) (K : Z * Z) : result (Z * Z) :=
  Ok ((k * fst K) mod 101, 0).

Definition Zn_add (A B : Z * Z) : result (Z * Z) :=
  Ok ((fst A + fst B) mod 101, 0).

Definition Zn_modulo_string (K : Z * Z) (P : Z) : result string :=
  x ← modulo (fst K) P;
  y ← modulo (snd K) P;
  Ok (pretty x +:+ "," +:+ pretty y).

Definition Zn_piSignature (alpha c signerPrivKey : Z) (curve : ArrayVersion.Curve)
  : result (Z * Z) :=
  Zn_mult (alpha - c * signerPrivKey) ArrayVersion.SECP256K1.G.

Definition Zn_utils (hash : string -> string) : ArrayVersion.Utils :=
  ArrayVersion.mkUtils Zn_mult Zn_add Zn_modulo_string hash Zn_piSignature.



(** The draws of [Zn_world], with the index [0]. *)
Definition Zn_world_0 : world :=
  mkWorld (fun k => 1 + Z.of_nat k mod 100) 0 99.

(** ** The ladder as a sum, and reduced coordinates *)

(** What the ladder of [mul] accumulates from [start]: over the bits of [n],
    lowest first, the [2^i]-fold doubling of the point is added when bit [i]
    is set. *)
Definition ladder_sum (this : Noble.SECP256K1Point) (n : Z) (start : Noble.SECP256K1Point)
  : Noble.SECP256K1Point :=
  fold_left (fun acc i => if Z.testbit n (Z.of_nat i)
                          then Noble.add acc (Nat.iter i Noble.double this) else acc)
            (seq 0 (bit_length n)) start.

(** The three coordinates are residues of [[0, P-1]]. *)
Definition reduced (p : Noble.SECP256K1Point) : Prop :=
  0 <= Noble.px p < Noble.P /\ 0 <= Noble.py p < Noble.P /\ 0 <= Noble.pz p < Noble.P.

(** The homogeneous equation of the curve, [Y²Z = X³ + 7Z³] modulo [P]. *)
Definition on_curve (p : Noble.SECP256K1Point) : Prop :=
  (Noble.py p * Noble.py p * Noble.pz p) mod Noble.P
  = (Noble.px p * Noble.px p * Noble.px p
     + Noble.CURVE_b * (Noble.pz p * Noble.pz p * Noble.pz p)) mod Noble.P.

(** The three polynomials [add] computes with [a = 0] and [3b = 21]. *)
Definition add_x (X1 Y1 Z1 X2 Y2 Z2 : Z) : Z :=
  (X1 * Y2 + X2 * Y1) * (Y1 * Y2 - 21 * (Z1 * Z2))
  - 21 * ((X1 * Z2 + X2 * Z1) * (Y1 * Z2 + Y2 * Z1)).
Definition add_y (X1 Y1 Z1 X2 Y2 Z2 : Z) : Z :=
  (Y1 * Y2 - 21 * (Z1 * Z2)) * (Y1 * Y2 + 21 * (Z1 * Z2))
  + 63 * ((X1 * X2) * (X1 * Z2 + X2 * Z1)).
Definition add_z (X1 Y1 Z1 X2 Y2 Z2 : Z) : Z :=
  (Y1 * Z2 + Y2 * Z1) * (Y1 * Y2 + 21 * (Z1 * Z2))
  + 3 * ((X1 * X2) * (X1 * Y2 + X2 * Y1)).

(** ** Hexadecimal encoding

    The helpers under [toHex] in the vendored file.  A string is the
    sequence of its code units, here below 256; a byte array is the list of
    its elements. *)

Inductive hex_error : Type :=
| HexInvalid1       (* "hex invalid 1" *)
| HexInvalid2       (* "hex invalid 2" *)
| BigintExpected.   (* "bigint expected" *)

(** [n.toString(16)] for a non-negative [n], digit by digit from the lowest;
    [fuel] bounds the number of digits. *)
Fixpoint hex_digits (fuel : nat) (n : Z) (acc : string) : string :=
  match fuel with
  | O => acc
  | S fuel' =>
      let acc' := String (hex_char (Z.to_nat (n mod 16))) acc in
      if n / 16 =? 0 then acc' else hex_digits fuel' (n / 16) acc'
  end.

(** [n.toString(16)]: lower-case digits, a minus sign before those of a
    negative number. *)
Definition toString16 (n : Z) : string :=
  if n <? 0 then String "-" (hex_digits (S (Z.to_nat (Z.log2 (- n)))) (- n) "")
  else hex_digits (S (Z.to_nat (Z.log2 n))) n "".

(** [s.padStart(targetLength, "0")]. *)
Fixpoint zeros (k : nat) (s : string) : string :=
  match k with
  | O => s
  | S k' => String "0" (zeros k' s)
  end.

Definition padStart0 (s : string) (targetLength : nat) : string :=
  zeros (targetLength - String.length s) s.

(** [padh(n, pad) = n.toString(16).padStart(pad, "0")]. *)
Definition padh (n : Z) (pad : nat) : string := padStart0 (toString16 n) pad.

(** [b2h(b) = Array.from(b).map((e) => padh(e, 2)).join("")]. *)
Definition b2h (b : list Z) : string :=
  fold_right (fun e s => padh e 2 +:+ s) "" b.

(** [Number.parseInt(h, 16)], [None] for [NaN]: leading white space is
    dropped, then a sign, then a prefix [0x] or [0X]; the digits that follow
    are read up to the first character that is not one.  [h2b] calls it on
    at most two characters, where the number read is exact; a negative zero
    is the integer [0] here, and like it is not below [0]. *)
Fixpoint trimStart (s : string) : string :=
  match s with
  | String ch s' => if is_white_space ch then trimStart s' else s
  | EmptyString => s
  end.

Fixpoint digits_prefix (acc : option Z) (s : string) : option Z :=
  match s with
  | String ch s' =>
      match hex_digit ch with
      | Some d => digits_prefix (Some (16 * default 0 acc + d)) s'
      | None => acc
      end
  | EmptyString => acc
  end.

Definition parseInt16 (h : string) : option Z :=
  let inputString := trimStart h in
  let '(sign, rest) :=
    match inputString with
    | String "-" rest => (-1, rest)
    | String "+" rest => (1, rest)
    | _ => (1, inputString)
    end in
  let rest :=
    match rest with
    | String "0" (String "x" rest') => rest'
    | String "0" (String "X" rest') => rest'
    | _ => rest
    end in
  match digits_prefix None rest with
  | Some mathInt => Some (sign * mathInt)
  | None => None
  end.

(** The loop [for (let i = 0; i < arr.length; i++)] of [h2b]; a store into
    the byte array keeps the value modulo 256. *)
Fixpoint h2b_loop (hex : string) (steps i : nat) (arr : list Z) : hex_error + list Z :=
  match steps with
  | O => inr arr
  | S steps' =>
      let j := (i * 2)%nat in
      let h := substring j 2 hex in
      match parseInt16 h with
      | None => inl HexInvalid2
      | Some b =>
          if b <? 0 then inl HexInvalid2
          else h2b_loop hex steps' (S i) (<[i := b mod 256]> arr)
      end
  end.

(** [h2b(hex)]. *)
Definition h2b (hex : string) : hex_error + list Z :=
  let l := String.length hex in
  if negb (l mod 2 =? 0)%nat then inl HexInvalid1
  else h2b_loop hex (l / 2) 0 (replicate (l / 2) 0).

(** [n2b(num)], with [fLen = 32]. *)
Definition n2b (num : Z) : hex_error + list Z :=
  if (0 <=? num) && (num <? Noble.B256) then h2b (padh num (2 * 32))
  else inl BigintExpected.

(** [n2h(num) = b2h(n2b(num))]. *)
Definition n2h (num : Z) : hex_error + string :=
  match n2b num with
  | inr b => inr (b2h b)
  | inl e => inl e
  end.

(** The digits of a string of hexadecimal digits, and what they stand for:
    the string, the bytes two by two, the number. *)
Definition hexs (ds : list nat) : string :=
  fold_right (fun d s => String (hex_char d) s) "" ds.

Fixpoint bytes_of (ds : list nat) : list Z :=
  match ds with
  | d1 :: d2 :: ds' => Z.of_nat (16 * d1 + d2) :: bytes_of ds'
  | _ => []
  end.

Definition digits_value (ds : list nat) : Z :=
  fold_left (fun a d => 16 * a + Z.of_nat d) ds 0.

(** [toHex(isCompressed = true)]: the affine form first, whose failure is
    the outer error; then the prefix and the digits. *)
Definition toHex (this : Noble.SECP256K1Point) (isCompressed : bool)
  : result (hex_error + string) :=
  '(x, y) ← Noble.toAffine this;
  let head := if isCompressed then (if Z.land y 1 =? 0 then "02" else "03") else "04" in
  Ok (match n2h x with
      | inl e => inl e
      | inr hx =>
          if isCompressed then inr ((head +:+ hx) +:+ "")
          else match n2h y with
               | inl e => inl e
               | inr hy => inr ((head +:+ hx) +:+ hy)
               end
      end).

(** [toRawBytes(isCompressed = true) = h2b(this.toHex(isCompressed))]. *)
Definition toRawBytes (this : Noble.SECP256K1Point) (isCompressed : bool)
  : result (hex_error + list Z) :=
  hex ← toHex this isCompressed;
  Ok (match hex with
      | inl e => inl e
      | inr s => h2b s
      end).

(** [mulAddQUns(R, u1, u2)]: [this.mul(u1, false).add(R.mul(u2, false)).ok()]. *)
Definition mulAddQUns (this R : Noble.SECP256K1Point) (u1 u2 : Z)
  : result Noble.SECP256K1Point :=
  a ← Noble.mul this u1 false;
  b ← Noble.mul R u2 false;
  Noble.assertValidity (Noble.add a b).

(** * Properties *)


(** ** Modular reduction *)

Lemma rem_canonical (a b : Z) :
  0 < b ->
  (if 0 <=? Z.rem a b then Z.rem a b else b + Z.rem a b) = a mod b.
Proof.
  intros Hb.
  destruct (Z.leb_spec 0 (Z.rem a b)) as [Hr | Hr].
  - destruct (Z.le_gt_cases 0 a) as [Ha | Ha].
    + rewrite Z.rem_mod_nonneg by lia. reflexivity.
    + assert (Hz : Z.rem a b = 0).
      { pose proof (Z.rem_nonpos a b ltac:(lia) ltac:(lia)). lia. }
      rewrite Hz. symmetry. apply Z.mod_divide; [lia |].
      apply Z.rem_divide; [lia | exact Hz].
  - assert (Ha : a < 0).
    { destruct (Z.le_gt_cases 0 a) as [Ha | Ha]; [| exact Ha].
      pose proof (Z.rem_nonneg a b ltac:(lia) Ha). lia. }
    pose proof (Z.rem_bound_pos_neg a b Hb ltac:(lia)) as Hbd.
    pose proof (Z.quot_rem a b ltac:(lia)) as Hqr.
    apply (Z.mod_unique_pos a b (Z.quot a b - 1)); lia.
Qed.

Lemma mod_ok (a b : Z) : 0 < b -> Noble.mod_ a b = Ok (a mod b).
Proof.
  intros Hb. unfold Noble.mod_, bigint_rem.
  destruct (Z.eqb_spec b 0) as [-> | _]; [lia |].
  cbn. f_equal. apply rem_canonical, Hb.
Qed.

Lemma modP_mod (a : Z) : Noble.modP a = a mod Noble.P.
Proof. unfold Noble.modP. apply rem_canonical. reflexivity. Qed.

(** C10. [mod(a, b)] is total and canonical for a positive modulus: it raises
    nothing, and its value lies in [[0, b)] and is congruent to [a] modulo
    [b], for negative [a] as well. *)
Theorem mod_total_canonical (a b : Z) :
  0 < b ->
  exists r, Noble.mod_ a b = Ok r /\ 0 <= r < b /\ (b | a - r).
Proof.
  intros Hb. exists (a mod b). split; [apply mod_ok, Hb |]. split.
  - apply Z.mod_pos_bound, Hb.
  - exists (a / b). pose proof (Z.div_mod a b ltac:(lia)). lia.
Qed.

Lemma mod_total_canonical_witness :
  0 < 7 /\ exists r, Noble.mod_ (-10) 7 = Ok r /\ 0 <= r < 7 /\ (7 | -10 - r).
Proof. split; [lia | apply (mod_total_canonical (-10) 7); lia]. Defined.

Example mod_negative : Noble.mod_ (-10) 7 = Ok 4.
Proof. reflexivity. Qed.

Example mod_zero_modulus : Noble.mod_ 5 0 = Throw RangeError.
Proof. reflexivity. Qed.

(** ** Scalar multiplication: the shape of the ladder *)

(** The recursion on binary digits is the source's loop: while [n > 0], run
    the body on [n & 1n], double [d] and shift [n] right by one. *)
Lemma mul_loop_step (n : Z) (safe : bool) (d : Noble.SECP256K1Point) (s : Noble.ladder) :
  0 < n ->
  Noble.mul_loopZ n safe d s =
    let s1 := Noble.ladder_body (negb (Z.land n 1 =? 0)) safe d s in
    let s2 := Noble.mkLadder (Noble.result_point s1) (Noble.fake_point s1)
                (Noble.ops s1 ++ [Noble.Double]) in
    if 0 <? Z.shiftr n 1 then Noble.mul_loopZ (Z.shiftr n 1) safe (Noble.double d) s2
    else s2.
Proof.
  destruct n as [| q | q]; [lia | | lia]. intros _.
  destruct q as [q | q |]; reflexivity.
Qed.

Lemma flat_map_seq_S {A} (f : nat -> list A) (k start : nat) :
  flat_map f (seq (S start) k) = flat_map (fun i => f (S i)) (seq start k).
Proof.
  revert start. induction k as [| k IH]; intros start; [reflexivity |].
  cbn [seq flat_map]. f_equal. apply IH.
Qed.

Lemma flat_map_ext_seq {A} (f g : nat -> list A) (k start : nat) :
  (forall i, f i = g i) -> flat_map f (seq start k) = flat_map g (seq start k).
Proof.
  intros E. revert start. induction k as [| k IH]; intros start; [reflexivity |].
  cbn [seq flat_map]. rewrite E. f_equal. apply IH.
Qed.

Lemma bit_length_double (q : positive) :
  bit_length (Zpos q~0) = S (bit_length (Zpos q)).
Proof.
  unfold bit_length. change (Zpos q~0) with (2 * Zpos q).
  rewrite Z.log2_double by lia.
  pose proof (Z.log2_nonneg (Zpos q)). lia.
Qed.

Lemma bit_length_succ_double (q : positive) :
  bit_length (Zpos q~1) = S (bit_length (Zpos q)).
Proof.
  unfold bit_length. change (Zpos q~1) with (2 * Zpos q + 1).
  rewrite Z.log2_succ_double by lia.
  pose proof (Z.log2_nonneg (Zpos q)). lia.
Qed.

Lemma iteration_ops_double (q : positive) (i : nat) :
  iteration_ops (Zpos q~0) (S i) = iteration_ops (Zpos q) i.
Proof.
  unfold iteration_ops. change (Zpos q~0) with (2 * Zpos q).
  rewrite Nat2Z.inj_succ, Z.double_bits_succ. reflexivity.
Qed.

Lemma iteration_ops_succ_double (q : positive) (i : nat) :
  iteration_ops (Zpos q~1) (S i) = iteration_ops (Zpos q) i.
Proof.
  unfold iteration_ops. change (Zpos q~1) with (2 * Zpos q + 1).
  rewrite Nat2Z.inj_succ, Z.testbit_odd_succ by lia. reflexivity.
Qed.

Lemma mul_loop_safe_ops (q : positive) (d : Noble.SECP256K1Point) (s : Noble.ladder) :
  Noble.ops (Noble.mul_loop q true d s) = Noble.ops s ++ safe_trace (Zpos q).
Proof.
  revert d s. induction q as [q IH | q IH |]; intros d s.
  - cbn [Noble.mul_loop]. rewrite IH. cbn [Noble.ladder_body Noble.ops].
    unfold safe_trace. rewrite bit_length_succ_double. cbn [seq flat_map].
    rewrite flat_map_seq_S.
    rewrite (flat_map_ext_seq (fun i => iteration_ops (Zpos q~1) (S i))
               (iteration_ops (Zpos q)))
      by apply iteration_ops_succ_double.
    rewrite <- !app_assoc. reflexivity.
  - cbn [Noble.mul_loop]. rewrite IH. cbn [Noble.ladder_body Noble.ops].
    unfold safe_trace. rewrite bit_length_double. cbn [seq flat_map].
    rewrite flat_map_seq_S.
    rewrite (flat_map_ext_seq (fun i => iteration_ops (Zpos q~0) (S i))
               (iteration_ops (Zpos q)))
      by apply iteration_ops_double.
    rewrite <- !app_assoc. reflexivity.
  - cbn. rewrite <- app_assoc. reflexivity.
Qed.

Lemma rounds_length (n : Z) (k start : nat) :
  length (flat_map (iteration_ops n) (seq start k)) = (2 * k)%nat.
Proof.
  revert start. induction k as [| k IH]; intros start; [reflexivity |].
  cbn [seq flat_map]. rewrite length_app, IH. cbn. lia.
Qed.

Lemma count_op_app (o : Noble.group_op) (t u : list Noble.group_op) :
  count_op o (t ++ u) = (count_op o t + count_op o u)%nat.
Proof. unfold count_op. rewrite filter_app, length_app. reflexivity. Qed.

Lemma iteration_ops_counts (n : Z) (i : nat) :
  (count_op Noble.AddResult (iteration_ops n i)
   + count_op Noble.AddFake (iteration_ops n i) = 1)%nat
  /\ count_op Noble.Double (iteration_ops n i) = 1%nat.
Proof. unfold iteration_ops. destruct (Z.testbit n (Z.of_nat i)); split; reflexivity. Qed.

Lemma rounds_counts (n : Z) (k start : nat) :
  let t := flat_map (iteration_ops n) (seq start k) in
  (count_op Noble.AddResult t + count_op Noble.AddFake t = k)%nat
  /\ count_op Noble.Double t = k.
Proof.
  revert start. induction k as [| k IH]; intros start; [split; reflexivity |].
  cbn [seq flat_map]. cbv zeta in IH |- *. rewrite !count_op_app.
  destruct (IH (S start)) as [IH1 IH2].
  destruct (iteration_ops_counts n start) as [H1 H2]. lia.
Qed.

Lemma safe_trace_length (n : Z) : length (safe_trace n) = (2 * bit_length n)%nat.
Proof. apply rounds_length. Qed.

Lemma safe_trace_counts (n : Z) :
  (count_op Noble.AddResult (safe_trace n) + count_op Noble.AddFake (safe_trace n)
   = bit_length n)%nat
  /\ count_op Noble.Double (safe_trace n) = bit_length n.
Proof. apply rounds_counts. Qed.

Lemma mul_ops_safe (this : Noble.SECP256K1Point) (n : Z) :
  1 <= n < Noble.N ->
  exists p, Noble.mul_ops this n true = Ok (p, safe_trace n).
Proof.
  intros Hn. unfold Noble.mul_ops, Noble.ge. cbn [negb andb].
  destruct (Z.ltb_spec 0 n); [| lia]. destruct (Z.ltb_spec n Noble.N); [| lia].
  cbn [negb andb]. destruct n as [| q | q]; [lia | | lia].
  cbn [Noble.mul_loopZ]. rewrite mul_loop_safe_ops. eexists. reflexivity.
Qed.

(** C8, as the ladder is written.  In safe mode the log of group operations
    of [mul] is fixed by the bit length of the scalar: each round makes one
    addition, into the result if the bit is set and into the fake point if it
    is not, and one doubling; two scalars of [[1, N-1]] with the same bit
    length cause the same number of operations, twice that length. *)
Theorem mul_safe_operation_count (this : Noble.SECP256K1Point) (n m : Z) :
  1 <= n < Noble.N ->
  1 <= m < Noble.N ->
  Z.log2 n = Z.log2 m ->
  exists p q tn tm,
    Noble.mul_ops this n true = Ok (p, tn) /\
    Noble.mul_ops this m true = Ok (q, tm) /\
    tn = safe_trace n /\ tm = safe_trace m /\
    length tn = length tm /\
    length tn = (2 * bit_length n)%nat /\
    (count_op Noble.AddResult tn + count_op Noble.AddFake tn = bit_length n)%nat /\
    count_op Noble.Double tn = bit_length n.
Proof.
  intros Hn Hm Hlog.
  destruct (mul_ops_safe this n Hn) as [p Hp].
  destruct (mul_ops_safe this m Hm) as [q Hq].
  exists p, q, (safe_trace n), (safe_trace m).
  repeat split; try assumption.
  - rewrite !safe_trace_length. unfold bit_length. rewrite Hlog. reflexivity.
  - apply safe_trace_length.
  - apply safe_trace_counts.
  - apply safe_trace_counts.
Qed.

Lemma mul_safe_operation_count_witness :
  exists p q tn tm,
    Noble.mul_ops Noble.G 5 true = Ok (p, tn) /\
    Noble.mul_ops Noble.G 6 true = Ok (q, tm) /\
    tn = safe_trace 5 /\ tm = safe_trace 6 /\
    length tn = length tm /\
    length tn = (2 * bit_length 5)%nat /\
    (count_op Noble.AddResult tn + count_op Noble.AddFake tn = bit_length 5)%nat /\
    count_op Noble.Double tn = bit_length 5.
Proof.
  apply (mul_safe_operation_count Noble.G 5 6); [unfold Noble.N, Noble.B256; lia .. | reflexivity].
Defined.

(** The reading of C8 in which every round adds once into the result and
    once into the fake point fails: for the scalar [1] the single round adds
    into the result only. *)
Lemma mul_safe_both_adds_counterexample :
  ~ (forall this n, 1 <= n < Noble.N ->
       exists p t, Noble.mul_ops this n true = Ok (p, t) /\
                   count_op Noble.AddResult t = bit_length n /\
                   count_op Noble.AddFake t = bit_length n).
Proof.
  intros H.
  destruct (H Noble.G 1 ltac:(unfold Noble.N, Noble.B256; lia)) as (p & t & Hr & _ & Hf).
  vm_compute in Hr. injection Hr as _ <-. vm_compute in Hf. discriminate Hf.
Qed.

Example mul_one_trace :
  snd <$> Noble.mul_ops Noble.G 1 true = Ok [Noble.AddResult; Noble.Double].
Proof. vm_compute. reflexivity. Qed.

Example mul_unsafe_trace :
  snd <$> Noble.mul_ops Noble.G 4 false = Ok [Noble.Double; Noble.Double; Noble.AddResult; Noble.Double].
Proof. vm_compute. reflexivity. Qed.

(** ** Ring validation *)

Lemma toAffine_identity : Noble.toAffine Noble.I = Ok (0, 0).
Proof. reflexivity. Qed.

Lemma isOnCurve_out_of_range (curve : Curve) (x y : Z) :
  x <= 0 \/ curve_P curve <= x \/ y <= 0 \/ curve_P curve <= y ->
  isOnCurve curve (x, y) = Ok false.
Proof.
  intros H. unfold isOnCurve.
  destruct (String.eqb (curve_name curve) SECP256K1); [| reflexivity].
  destruct (Z.leb_spec (curve_P curve) x), (Z.leb_spec (curve_P curve) y),
    (Z.leb_spec x 0), (Z.leb_spec y 0); cbn; try reflexivity; lia.
Qed.

(** [isOnCurve] raises nothing. *)
Lemma isOnCurve_total (curve : Curve) (point : Z * Z) :
  exists b, isOnCurve curve point = Ok b.
Proof.
  destruct point as [x y]. unfold isOnCurve.
  destruct (String.eqb (curve_name curve) SECP256K1); [| eexists; reflexivity].
  destruct (Z.leb_spec (curve_P curve) x), (Z.leb_spec (curve_P curve) y),
    (Z.leb_spec x 0), (Z.leb_spec y 0); cbn; try (eexists; reflexivity).
  unfold modulo. rewrite mod_ok by lia. eexists. reflexivity.
Qed.

Lemma checkPoint_identity (index : nat) (curve : Curve) (K : Point) :
  point_x K = 0 -> point_y K = 0 ->
  checkPoint index K curve = Throw (InvalidPoint index).
Proof.
  intros Hx Hy. unfold checkPoint.
  destruct (bool_decide (point_curve K = curve)); [| reflexivity]. cbn [negb].
  rewrite Hx, Hy, isOnCurve_out_of_range by lia. reflexivity.
Qed.

Lemma checkPoint_cases (index : nat) (K : Point) (curve : Curve) :
  checkPoint index K curve = Ok tt \/ checkPoint index K curve = Throw (InvalidPoint index).
Proof.
  unfold checkPoint. destruct (bool_decide (point_curve K = curve)); [| right; reflexivity].
  cbn [negb]. destruct (isOnCurve_total curve (point_x K, point_y K)) as [[] ->];
    [left | right]; reflexivity.
Qed.

Lemma checkPoints_identity (ring : list PointObj) (curve : Curve) (start : nat) :
  (exists K, K ∈ ring /\ point_x (val K) = 0 /\ point_y (val K) = 0) ->
  exists i, checkPoints start ring curve = Throw (InvalidPoint i).
Proof.
  revert start. induction ring as [| K0 ring IH]; intros start (K & Hin & Hx & Hy).
  - inversion Hin.
  - cbn [checkPoints]. destruct (checkPoint_cases start (val K0) curve) as [E | E]; rewrite E.
    + apply elem_of_cons in Hin as [-> | Hin].
      * rewrite checkPoint_identity in E by assumption. discriminate E.
      * cbn. apply IH. exists K. auto.
    + exists start. reflexivity.
Qed.

(** A ring that holds the neutral element is rejected by ring validation
    in whichever order the two checks run.  The error is [InvalidPoint],
    unless two entries are affine-equal and the duplicates are looked for
    first. *)
Lemma identity_rejected (ring : list PointObj) (curve : Curve) (allowEmpty : bool)
    (K : PointObj) :
  K ∈ ring ->
  val K = identity_point curve ->
  (exists i, checkRing_points_first ring curve allowEmpty = Throw (InvalidPoint i))
  /\ (has_affine_duplicates (val <$> ring) = false ->
      exists i, checkRing ring curve allowEmpty = Throw (InvalidPoint i))
  /\ (has_affine_duplicates (val <$> ring) = true ->
      checkRing ring curve allowEmpty = Throw DuplicateRingMember).
Proof.
  intros Hin HK.
  assert (Hlen : (length ring =? 0)%nat = false).
  { destruct ring; [inversion Hin | reflexivity]. }
  assert (Hpoints : exists i, checkPoints 0 ring curve = Throw (InvalidPoint i)).
  { apply checkPoints_identity. exists K. rewrite HK. auto. }
  unfold checkRing, checkRing_points_first. rewrite Hlen. cbn [andb].
  split; [| split].
  - destruct Hpoints as [i ->]. exists i. reflexivity.
  - intros ->. exact Hpoints.
  - intros ->. reflexivity.
Qed.

(** The two orders accept the same rings. *)
Lemma checkRing_orders (ring : list PointObj) (curve : Curve) (allowEmpty : bool) :
  checkRing ring curve allowEmpty = Ok tt
  <-> checkRing_points_first ring curve allowEmpty = Ok tt.
Proof.
  unfold checkRing, checkRing_points_first.
  destruct ((length ring =? 0)%nat && negb allowEmpty); [reflexivity |].
  destruct (has_affine_duplicates (val <$> ring)).
  - destruct (checkPoints 0 ring curve); cbn; split; discriminate.
  - destruct (checkPoints 0 ring curve) as [[] | e]; cbn; reflexivity.
Qed.

Section RingProtocolProperties.

Context {lib : Library}.

Lemma bind_Ok {A B} (m : result A) (f : A -> result B) (b : B) :
  m ≫= f = Ok b -> exists a, m = Ok a /\ f a = Ok b.
Proof. destruct m as [a | e]; cbn; [eauto | discriminate]. Qed.

Lemma bind_eq_Ok {A B} (m : result A) (f : A -> result B) (a : A) :
  m = Ok a -> m ≫= f = f a.
Proof. intros ->. reflexivity. Qed.

Lemma bind_eq_Throw {A B} (m : result A) (f : A -> result B) (e : error) :
  m = Throw e -> m ≫= f = Throw e.
Proof. intros ->. reflexivity. Qed.

Lemma at_index_Ok {A} (a : list A) (i : nat) (v : A) :
  at_index a i = Ok v <-> a !! i = Some v.
Proof.
  unfold at_index. destruct (a !! i); split; intros H; inversion H; reflexivity.
Qed.

Ltac inv_bind H :=
  repeat match type of H with
    | (_ ≫= _) = Ok _ =>
        let a := fresh "v" in
        let E := fresh "E" in
        apply bind_Ok in H; destruct H as (a & E & H)
    end.

Lemma modulo_Ok (n p r : Z) : modulo n p = Ok r -> 0 < p -> r = n mod p.
Proof. intros H Hp. unfold modulo in H. rewrite mod_ok in H by exact Hp. congruence. Qed.

Lemma Point_mult_Ok (p q : Point) (k : Z) :
  Point_mult p k = Ok q <-> 0 < k < curve_N (point_curve p) /\ q = smul k p.
Proof.
  unfold Point_mult.
  destruct (Z.ltb_spec 0 k), (Z.ltb_spec k (curve_N (point_curve p))); cbn;
    split; try (intros [? ?]; lia); try discriminate.
  - intros [= <-]. split; [lia | reflexivity].
  - intros [_ ->]. reflexivity.
Qed.

Lemma Point_mult_Throw (p : Point) (k : Z) :
  ~ (0 < k < curve_N (point_curve p)) -> Point_mult p k = Throw InvalidScalar.
Proof.
  intros H. unfold Point_mult.
  destruct (Z.ltb_spec 0 k), (Z.ltb_spec k (curve_N (point_curve p))); cbn;
    try reflexivity; lia.
Qed.

Lemma computeC_range ring md G N r c K c' :
  computeC ring md G N r c K = Ok c' -> 0 < N -> 0 <= c' < N.
Proof.
  intros H HN. unfold computeC in H. inv_bind H.
  apply modulo_Ok in H; [| exact HN]. subst c'. apply Z.mod_pos_bound, HN.
Qed.

Lemma chain_step_range ring md G N responses j c c' :
  chain_step ring md G N responses j c = Ok c' -> 0 < N -> 0 <= c' < N.
Proof.
  intros H HN. unfold chain_step in H. inv_bind H. eapply computeC_range; eassumption.
Qed.

Lemma chain_run_app step (l1 l2 : list nat) (c : Z) :
  chain_run step (l1 ++ l2) c = chain_run step l1 c ≫= chain_run step l2.
Proof.
  revert c. induction l1 as [| j l1 IH]; intros c; [reflexivity |].
  cbn [chain_run app]. destruct (step j c) as [c1 | e]; cbn; [apply IH | reflexivity].
Qed.

Lemma array_set_push {A} (a : list A) (v : A) : array_set a (length a) v = Ok (a ++ [v]).
Proof.
  unfold array_set. rewrite Nat.ltb_irrefl, Nat.eqb_refl. reflexivity.
Qed.

Lemma cValuesPI1N_loop_spec ring md G N resp pi steps : forall i cV L,
  cValuesPI1N_loop ring md G N resp pi steps i cV = Ok L ->
  i = (pi + 1 + length cV)%nat ->
  (1 <= length cV)%nat ->
  exists ext, L = cV ++ ext /\ length ext = steps /\
    forall m, (length cV <= m < length L)%nat ->
      exists c c', L !! (m - 1)%nat = Some c /\ L !! m = Some c' /\
                   chain_step ring md G N resp (pi + m) c = Ok c'.
Proof.
  induction steps as [| steps IH]; intros i cV L H Hi Hlen.
  - cbn in H. injection H as <-. exists []. rewrite app_nil_r.
    split; [reflexivity |]. split; [reflexivity |]. intros m Hm. lia.
  - cbn [cValuesPI1N_loop] in H.
    apply bind_Ok in H as (r & Er & H).
    apply bind_Ok in H as (previousC & Ec & H).
    apply bind_Ok in H as (K & EK & H).
    apply bind_Ok in H as (cnew & Enew & H).
    apply IH in H; [| rewrite length_app; cbn; lia | rewrite length_app; cbn; lia].
    destruct H as (ext & -> & Hext & Hlinks).
    exists (cnew :: ext). split; [rewrite <- app_assoc; reflexivity |].
    split; [cbn; lia |].
    intros m Hm. destruct (decide (m = length cV)) as [-> | Hne].
    + exists previousC, cnew. split; [| split].
      * apply at_index_Ok in Ec. rewrite <- app_assoc.
        rewrite lookup_app_l by lia. rewrite <- Ec. f_equal. lia.
      * rewrite <- app_assoc. apply list_lookup_middle. reflexivity.
      * unfold chain_step. replace (pi + length cV)%nat with (i - 1)%nat by lia.
        rewrite Er. cbn. rewrite EK. cbn. exact Enew.
    + apply Hlinks. rewrite !length_app in Hm. rewrite !length_app. cbn in Hm |- *. lia.
Qed.

Lemma cValues0PI_loop_spec ring md G N resp steps : forall i cV M,
  cValues0PI_loop ring md G N resp steps i cV = Ok M ->
  i = length cV ->
  (1 <= length cV)%nat ->
  exists ext, M = cV ++ ext /\ length ext = steps /\
    forall m, (length cV <= m < length M)%nat ->
      exists c c', M !! (m - 1)%nat = Some c /\ M !! m = Some c' /\
                   chain_step ring md G N resp (m - 1) c = Ok c'.
Proof.
  induction steps as [| steps IH]; intros i cV M H Hi Hlen.
  - cbn in H. injection H as <-. exists []. rewrite app_nil_r.
    split; [reflexivity |]. split; [reflexivity |]. intros m Hm. lia.
  - cbn [cValues0PI_loop] in H.
    apply bind_Ok in H as (r & Er & H).
    apply bind_Ok in H as (previousC & Ec & H).
    apply bind_Ok in H as (K & EK & H).
    apply bind_Ok in H as (cnew & Enew & H).
    apply bind_Ok in H as (cV' & Eset & H).
    subst i. rewrite array_set_push in Eset. injection Eset as <-.
    apply IH in H; [| rewrite length_app; cbn; lia | rewrite length_app; cbn; lia].
    destruct H as (ext & -> & Hext & Hlinks).
    exists (cnew :: ext). split; [rewrite <- app_assoc; reflexivity |].
    split; [cbn; lia |].
    intros m Hm. destruct (decide (m = length cV)) as [-> | Hne].
    + exists previousC, cnew. split; [| split].
      * apply at_index_Ok in Ec. rewrite <- app_assoc.
        rewrite lookup_app_l by lia. exact Ec.
      * rewrite <- app_assoc. apply list_lookup_middle. reflexivity.
      * unfold chain_step. rewrite Er. cbn. rewrite EK. cbn. exact Enew.
    + apply Hlinks. rewrite !length_app in Hm. rewrite !length_app. cbn in Hm |- *. lia.
Qed.

Lemma splice_length {A} (a : list A) (i : nat) (v : A) :
  length (splice a i i v) = S (length a).
Proof.
  unfold splice. rewrite !length_app, length_take, length_drop. cbn. lia.
Qed.

(** What a successful run of [signature] has computed. *)
Lemma signature_inv w curve ring key msg raw :
  signature w curve ring key msg = Ok raw ->
  (securedNumber_draw w < length ring)%nat ->
  let G := GtoPoint curve in
  let N := curve_N curve in
  let md := keccak256 msg in
  let pi := securedNumber_draw w in
  exists Ks aG h cpi1,
    match key with
    | inl k => Point_mult G k = Ok (val Ks)
    | inr K => Ks = K
    end /\
    raw_ring raw = splice ring pi pi Ks /\
    raw_pi raw = pi /\
    raw_alpha raw = randomBigint_draw w 0 /\
    raw_responses raw = (fun i => randomBigint_draw w (S i)) <$> seq 0 (S (length ring)) /\
    length (raw_cees raw) = S (length ring) /\
    Point_mult G (randomBigint_draw w 0) = Ok aG /\
    BigInt_0x (keccak256 (ring_toString (raw_ring raw) +:+ md +:+ Point_toString aG)) = Ok h /\
    modulo h N = Ok cpi1 /\
    raw_cees raw !! (pi + 1)%nat = Some cpi1 /\
    forall j, (j < S (length ring))%nat -> j <> pi ->
      linked (raw_ring raw) md G N (raw_responses raw) (raw_cees raw) j.
Proof.
  intros H Hpi G N md pi. unfold signature in H.
  apply bind_Ok in H as (Ks & EKs & H).
  fold G N md pi in H.
  set (ring' := splice ring pi pi Ks) in H.
  assert (Hlen : length ring' = S (length ring)) by apply splice_length.
  destruct (negb (Set_size ring' =? length ring')%nat); [discriminate H |].
  set (resp := (fun i => randomBigint_draw w (S i)) <$> seq 0 (length ring')) in H.
  assert (Hresp : length resp = S (length ring)).
  { unfold resp. rewrite length_fmap, length_seq. exact Hlen. }
  apply bind_Ok in H as (aG & EaG & H).
  apply bind_Ok in H as (h & Eh & H).
  apply bind_Ok in H as (cpi1 & Ecpi1 & H).
  apply bind_Ok in H as (L & EL & H).
  apply bind_Ok in H as (rl & Erl & H).
  apply bind_Ok in H as (cl & Ecl & H).
  apply bind_Ok in H as (Kl & EKl & H).
  apply bind_Ok in H as (c0 & Ec0 & H).
  apply bind_Ok in H as (M & EM & H).
  injection H as <-. cbn [raw_ring raw_pi raw_cees raw_alpha raw_responses].
  apply cValuesPI1N_loop_spec in EL; [| cbn; lia | cbn; lia].
  destruct EL as (extL & -> & HextL & HlinksL).
  apply cValues0PI_loop_spec in EM; [| reflexivity | cbn; lia].
  destruct EM as (extM & -> & HextM & HlinksM).
  assert (HlenL : length ([cpi1] ++ extL) = (length ring - pi)%nat)
    by (rewrite length_app, HextL, Hlen; cbn; lia).
  assert (HlenM : length ([c0] ++ extM) = S pi)
    by (rewrite length_app, HextM; cbn; lia).
  exists Ks, aG, h, cpi1.
  split.
  { destruct key as [k | K].
    - unfold derivePubKey in EKs. apply bind_Ok in EKs as (K & EK & EKs).
      injection EKs as <-. exact EK.
    - injection EKs as <-. reflexivity. }
  split; [reflexivity |]. split; [reflexivity |]. split; [reflexivity |].
  split; [unfold resp; rewrite Hlen; reflexivity |].
  split; [rewrite length_app, HlenL, HlenM; lia |].
  split; [exact EaG |]. split; [exact Eh |]. split; [exact Ecpi1 |].
  split.
  { rewrite lookup_app_r by (rewrite HlenM; lia).
    rewrite HlenM. replace (pi + 1 - S pi)%nat with 0%nat by lia. reflexivity. }
  intros j Hj Hne. unfold linked.
  rewrite length_app, HlenL, HlenM.
  replace (S pi + (length ring - pi))%nat with (S (length ring)) by lia.
  destruct (decide (j < pi)%nat) as [Hlt | Hge].
  - (* a slot before the signer's *)
    destruct (HlinksM (S j)) as (c & c' & E1 & E2 & E3); [cbn [length]; rewrite HlenM; lia |].
    exists c, c'. rewrite Nat.mod_small by lia.
    replace (S j - 1)%nat with j in E1, E3 by lia.
    replace (j + 1)%nat with (S j) by lia.
    rewrite (lookup_app_l _ _ j) by (rewrite HlenM; lia).
    rewrite (lookup_app_l _ _ (S j)) by (rewrite HlenM; lia). auto.
  - destruct (decide (j = length ring)) as [-> | Hlast].
    + (* the last slot, whose link closes the ring *)
      exists cl, c0. replace (length ring + 1)%nat with (S (length ring)) by lia.
      rewrite Nat.Div0.mod_same.
      split; [| split].
      * rewrite lookup_app_r by (rewrite HlenM; lia). rewrite HlenM.
        apply at_index_Ok in Ecl. rewrite <- Ecl. f_equal. rewrite HlenL. lia.
      * reflexivity.
      * unfold chain_step.
        rewrite Hresp in Erl. rewrite Hlen in EKl.
        replace (S (length ring) - 1)%nat with (length ring) in Erl, EKl by lia.
        rewrite Erl. cbn. rewrite EKl. cbn. exact Ec0.
    + (* a slot after the signer's *)
      destruct (HlinksL (j - pi)%nat) as (c & c' & E1 & E2 & E3);
        [cbn [length]; rewrite HlenL; lia |].
      exists c, c'. rewrite Nat.mod_small by lia.
      rewrite (lookup_app_r _ _ j) by (rewrite HlenM; lia).
      rewrite (lookup_app_r _ _ (j + 1)) by (rewrite HlenM; lia). rewrite HlenM.
      replace (j - S pi)%nat with (j - pi - 1)%nat by lia.
      replace (j + 1 - S pi)%nat with (j - pi)%nat by lia.
      replace (pi + (j - pi))%nat with j in E3 by lia. auto.
Qed.

Lemma splice_insert {A} (a : list A) (i : nat) (v : A) :
  (i < length a)%nat -> splice a i (i + 1) v = <[i := v]> a.
Proof.
  intros Hi. unfold splice. rewrite insert_take_drop by exact Hi.
  replace (i + 1)%nat with (S i) by lia. reflexivity.
Qed.

Lemma chain_step_unfold ring md G N resp j c :
  chain_step ring md G N resp j c =
    match at_index resp j with
    | Ok r => match at_index ring j with
              | Ok K => computeC ring md G N r c (val K)
              | Throw e => Throw e
              end
    | Throw e => Throw e
    end.
Proof.
  unfold chain_step. destruct (at_index resp j); [| reflexivity].
  cbn. destruct (at_index ring j); reflexivity.
Qed.

Lemma verify_loop_chain_run this md G steps : forall i last,
  (1 <= i)%nat ->
  verify_loop this md G steps i last =
    chain_run (chain_step (sig_ring this) md G (curve_N (sig_curve this)) (sig_responses this))
      (seq (i - 1) steps) last.
Proof.
  induction steps as [| steps IH]; intros i last Hi; [reflexivity |].
  cbn [verify_loop seq chain_run]. rewrite chain_step_unfold.
  destruct (at_index (sig_responses this) (i - 1)) as [r | e]; [| reflexivity].
  destruct (at_index (sig_ring this) (i - 1)) as [K | e]; [| reflexivity].
  cbn. destruct (computeC _ _ _ _ _ _ _) as [cnew | e]; [| reflexivity].
  cbn. rewrite IH by lia. replace (S i - 1)%nat with (S (i - 1)) by lia. reflexivity.
Qed.

(** On a ring of two keys or more, [verify] runs the links of all slots in
    order, from [c], and compares the last challenge with [c]. *)
Lemma verify_chain_run (this : RingSignature) :
  (1 < length (sig_ring this))%nat ->
  length (sig_ring this) = length (sig_responses this) ->
  verify this =
    chain_run (chain_step (sig_ring this) (keccak256 (sig_message this))
                 (GtoPoint (sig_curve this)) (curve_N (sig_curve this)) (sig_responses this))
      (seq 0 (length (sig_ring this))) (sig_c this)
    ≫= fun c0 => Ok (sig_c this =? c0).
Proof.
  intros Hlen Heq. unfold verify.
  destruct (Nat.eqb_spec (length (sig_ring this)) 0) as [E | _]; [lia |].
  rewrite <- Heq, Nat.eqb_refl. cbn [negb].
  destruct (Nat.ltb_spec 1 (length (sig_ring this))) as [_ | E]; [| lia].
  replace (seq 0 (length (sig_ring this)))
    with ([0%nat] ++ seq 1 (length (sig_ring this) - 2) ++ [(length (sig_ring this) - 1)%nat]).
  2:{ replace (length (sig_ring this)) with (1 + ((length (sig_ring this) - 2) + 1))%nat at 3 by lia.
      rewrite seq_app, seq_app. cbn [seq]. do 3 f_equal. lia. }
  cbn [app chain_run]. rewrite chain_step_unfold.
  destruct (at_index (sig_responses this) 0) as [r0 | e]; [| reflexivity].
  destruct (at_index (sig_ring this) 0) as [K0 | e]; [| reflexivity].
  cbn. destruct (computeC _ _ _ _ _ _ _) as [c1 | e]; [| reflexivity].
  cbn. rewrite chain_run_app, verify_loop_chain_run by lia. change (2 - 1)%nat with 1%nat.
  destruct (chain_run _ (seq 1 _) c1) as [lastC | e]; [| reflexivity].
  cbn. rewrite chain_step_unfold.
  destruct (at_index (sig_responses this) _) as [rl | e]; [| reflexivity].
  destruct (at_index (sig_ring this) _) as [Kl | e]; [| reflexivity].
  cbn. destruct (computeC _ _ _ _ _ _ _) as [c0 | e]; reflexivity.
Qed.

(** A run over slots that are all linked ends on the challenge of the slot
    after the last one. *)
Lemma chain_run_linked step (cees : list Z) (m : nat) : forall start c,
  (start + m <= length cees)%nat ->
  cees !! start = Some c ->
  (forall j, (start <= j < start + m)%nat ->
     exists cj cj', cees !! j = Some cj /\
       cees !! ((j + 1) `mod` length cees)%nat = Some cj' /\ step j cj = Ok cj') ->
  exists c_end, cees !! ((start + m) `mod` length cees)%nat = Some c_end /\
                chain_run step (seq start m) c = Ok c_end.
Proof.
  induction m as [| m IH]; intros start c Hle Hc Hlinks.
  - exists c. split; [| reflexivity].
    rewrite Nat.add_0_r, Nat.mod_small; [exact Hc |]. apply lookup_lt_Some in Hc. exact Hc.
  - destruct (Hlinks start) as (cj & cj' & E1 & E2 & E3); [lia |].
    rewrite Hc in E1. injection E1 as <-.
    cbn [seq chain_run]. rewrite E3. cbn.
    destruct m as [| m'].
    + exists cj'. split; [| reflexivity]. exact E2.
    + rewrite Nat.mod_small in E2 by lia.
      destruct (IH (S start) cj') as (c_end & F1 & F2).
      * lia.
      * replace (S start) with (start + 1)%nat by lia. exact E2.
      * intros j Hj. apply Hlinks. lia.
      * exists c_end. split; [| exact F2].
        replace (start + S (S m'))%nat with (S start + S m')%nat by lia. exact F1.
Qed.

(** ** The signer's slot *)

Variable curve : Curve.

(** The generator spans a group whose order divides [N]: the laws of scalar
    multiplication that the Schnorr relation uses. *)
Hypothesis smul_curve : forall k, point_curve (smul k (GtoPoint curve)) = curve.
Hypothesis smul_add : forall a b,
  padd (smul a (GtoPoint curve)) (smul b (GtoPoint curve)) = smul (a + b) (GtoPoint curve).
Hypothesis smul_mul : forall a b,
  smul a (smul b (GtoPoint curve)) = smul (a * b) (GtoPoint curve).
Hypothesis smul_order : forall a,
  smul (a mod curve_N curve) (GtoPoint curve) = smul a (GtoPoint curve).

Lemma schnorr_relation (alpha c k : Z) :
  padd (smul ((alpha - c * k) mod curve_N curve) (GtoPoint curve))
       (smul c (smul k (GtoPoint curve)))
  = smul alpha (GtoPoint curve).
Proof.
  rewrite smul_order, smul_mul, smul_add. f_equal. lia.
Qed.

Lemma piSignature_Ok (alpha c k sr : Z) :
  piSignature alpha c k curve = Ok sr ->
  0 < curve_N curve ->
  k <> 0 /\ k < curve_N curve /\ sr = (alpha - c * k) mod curve_N curve.
Proof.
  unfold piSignature. intros H HN.
  destruct (Z.eqb_spec k 0); [discriminate H |].
  destruct (Z.leb_spec (curve_N curve) k); [discriminate H |].
  cbn in H. apply modulo_Ok in H; [| exact HN]. auto.
Qed.

(** The link of the signer's slot: with the response [piSignature] gives,
    the chain function returns the seed challenge, unless it is handed a
    zero scalar. *)
Lemma signer_link ring md (alpha cpi k sr h cpi1 : Z) (aG : Point) :
  0 <= cpi < curve_N curve ->
  sr = (alpha - cpi * k) mod curve_N curve ->
  Point_mult (GtoPoint curve) alpha = Ok aG ->
  BigInt_0x (keccak256 (ring_toString ring +:+ md +:+ Point_toString aG)) = Ok h ->
  modulo h (curve_N curve) = Ok cpi1 ->
  computeC ring md (GtoPoint curve) (curve_N curve) sr cpi (smul k (GtoPoint curve))
  = if (cpi =? 0) || (sr =? 0) then Throw InvalidScalar else Ok cpi1.
Proof.
  intros Hcpi Hsr HaG Hh Hmod.
  apply Point_mult_Ok in HaG as [Halpha ->]. cbn [GtoPoint point_curve] in Halpha.
  assert (Hrange : 0 <= sr < curve_N curve) by (subst sr; apply Z.mod_pos_bound; lia).
  unfold computeC.
  destruct (Z.eqb_spec sr 0) as [Hsr0 | Hsr0].
  { rewrite (Point_mult_Throw (GtoPoint curve) sr) by (cbn [GtoPoint point_curve]; lia).
    rewrite orb_true_r. reflexivity. }
  rewrite orb_false_r.
  rewrite (proj2 (Point_mult_Ok (GtoPoint curve) (smul sr (GtoPoint curve)) sr))
    by (cbn [GtoPoint point_curve]; split; [lia | reflexivity]).
  cbn [mbind result_bind].
  destruct (Z.eqb_spec cpi 0) as [Hc0 | Hc0].
  { rewrite (Point_mult_Throw (smul k (GtoPoint curve)) cpi) by (rewrite smul_curve; lia).
    reflexivity. }
  rewrite (proj2 (Point_mult_Ok _ (smul cpi (smul k (GtoPoint curve))) cpi))
    by (rewrite smul_curve; split; [lia | reflexivity]).
  cbn [mbind result_bind]. unfold Point_add. rewrite Hsr, schnorr_relation, Hh.
  cbn [mbind result_bind]. exact Hmod.
Qed.

Lemma signature_cees_range w ring key msg raw :
  signature w curve ring key msg = Ok raw ->
  (securedNumber_draw w < length ring)%nat ->
  0 < curve_N curve ->
  forall i c, raw_cees raw !! i = Some c -> 0 <= c < curve_N curve.
Proof.
  intros H Hpi HN i c Hi.
  destruct (signature_inv _ _ _ _ _ _ H Hpi)
    as (Ks & aG & h & cpi1 & _ & _ & _ & _ & _ & Hlen & _ & _ & Hmod & Hseed & Hlinks).
  pose proof (lookup_lt_Some _ _ _ Hi) as Hlt. rewrite Hlen in Hlt.
  destruct (decide (i = securedNumber_draw w + 1)%nat) as [-> | Hne].
  - rewrite Hseed in Hi. injection Hi as <-.
    apply modulo_Ok in Hmod; [| exact HN]. subst cpi1. apply Z.mod_pos_bound, HN.
  - set (j := if decide (i = 0%nat) then length ring else (i - 1)%nat).
    assert (Hj : (j < S (length ring))%nat /\ j <> securedNumber_draw w
                 /\ ((j + 1) `mod` S (length ring))%nat = i).
    { unfold j. destruct (decide (i = 0%nat)) as [-> | Hi0].
      - split; [lia |]. split; [lia |].
        replace (length ring + 1)%nat with (S (length ring)) by lia.
        apply Nat.Div0.mod_same.
      - split; [lia |]. split; [lia |].
        replace (i - 1 + 1)%nat with i by lia. apply Nat.mod_small. lia. }
    destruct Hj as (Hj1 & Hj2 & Hj3).
    destruct (Hlinks j Hj1 Hj2) as (cj & cj' & _ & E2 & E3).
    rewrite Hlen, Hj3, Hi in E2. injection E2 as <-.
    eapply chain_step_range; eassumption.
Qed.

Lemma splice_ring_lookup (ring : list PointObj) (pi : nat) (Ks : PointObj) :
  (pi <= length ring)%nat -> splice ring pi pi Ks !! pi = Some Ks.
Proof.
  intros Hpi. unfold splice. apply list_lookup_middle.
  rewrite length_take. lia.
Qed.

(** The ring [signature] built, closed with the response [piSignature] gives
    for the signer's slot, verifies, unless the signer's challenge or
    response is zero. *)
Lemma signed_ring_verifies w ring k msg raw cpi sr c0 :
  signature w curve ring (inl k) msg = Ok raw ->
  (securedNumber_draw w < length ring)%nat ->
  at_index (raw_cees raw) (raw_pi raw) = Ok cpi ->
  piSignature (raw_alpha raw) cpi k curve = Ok sr ->
  at_index (raw_cees raw) 0 = Ok c0 ->
  verify (mkRingSignature msg (raw_ring raw) c0
            (splice (raw_responses raw) (raw_pi raw) (raw_pi raw + 1) sr) curve)
  = if (cpi =? 0) || (sr =? 0) then Throw InvalidScalar else Ok true.
Proof.
  intros H Hpi Hcpi Hsr Hc0.
  destruct (signature_inv _ _ _ _ _ _ H Hpi)
    as (Ks & aG & h & cpi1 & HKs & Hring & Hrpi & Halpha & Hresp & Hlen & HaG & Hh
        & Hmod & Hseed & Hlinks).
  assert (HN : 0 < curve_N curve).
  { apply Point_mult_Ok in HaG as [HaG _]. cbn [GtoPoint point_curve] in HaG. lia. }
  pose proof (signature_cees_range _ _ _ _ _ H Hpi HN) as Hrange.
  rewrite Hrpi in *. set (pi := securedNumber_draw w) in *.
  apply at_index_Ok in Hcpi, Hc0.
  apply piSignature_Ok in Hsr as (_ & _ & Hsr); [| exact HN].
  apply Point_mult_Ok in HKs as [_ HKs]. rewrite Halpha in Hsr.
  assert (Hlring : length (raw_ring raw) = S (length ring))
    by (rewrite Hring; apply splice_length).
  assert (Hlresp : length (raw_responses raw) = S (length ring))
    by (rewrite Hresp, length_fmap, length_seq; reflexivity).
  rewrite splice_insert by lia.
  rewrite verify_chain_run;
    cbn [sig_ring sig_responses sig_message sig_c sig_curve];
    [| lia | rewrite length_insert; lia].
  set (step' := chain_step (raw_ring raw) (keccak256 msg) (GtoPoint curve) (curve_N curve)
                  (<[pi := sr]> (raw_responses raw))).
  assert (Hstep : forall j c, j <> pi ->
            step' j c = chain_step (raw_ring raw) (keccak256 msg) (GtoPoint curve)
                          (curve_N curve) (raw_responses raw) j c).
  { intros j c Hj. unfold step'. rewrite !chain_step_unfold.
    unfold at_index. rewrite list_lookup_insert_ne by congruence. reflexivity. }
  assert (Hlinks' : forall j, (j < S (length ring))%nat -> j <> pi ->
            exists cj cj', raw_cees raw !! j = Some cj /\
              raw_cees raw !! ((j + 1) `mod` length (raw_cees raw))%nat = Some cj' /\
              step' j cj = Ok cj').
  { intros j Hj Hne. destruct (Hlinks j Hj Hne) as (cj & cj' & E1 & E2 & E3).
    exists cj, cj'. rewrite Hstep by exact Hne. auto. }
  assert (Hsigner : step' pi cpi
                    = if (cpi =? 0) || (sr =? 0) then Throw InvalidScalar else Ok cpi1).
  { unfold step'. rewrite chain_step_unfold. unfold at_index.
    rewrite list_lookup_insert_eq by lia.
    rewrite Hring, splice_ring_lookup by lia. rewrite HKs.
    eapply signer_link; try eassumption.
    - eapply Hrange. exact Hcpi.
    - rewrite <- Hring. exact Hh. }
  rewrite Hlring.
  replace (seq 0 (S (length ring)))
    with (seq 0 pi ++ [pi] ++ seq (S pi) (length ring - pi)).
  2:{ replace (S (length ring)) with (pi + (1 + (length ring - pi)))%nat by lia.
      rewrite seq_app, seq_app. cbn [Nat.add seq].
      replace (pi + 1)%nat with (S pi) by lia. reflexivity. }
  rewrite chain_run_app.
  destruct (chain_run_linked step' (raw_cees raw) pi 0 c0) as (cend & E1 & E2).
  { lia. } { exact Hc0. } { intros j Hj. apply Hlinks'; lia. }
  rewrite Nat.add_0_l, Nat.mod_small, Hcpi in E1 by lia. injection E1 as <-.
  rewrite E2. cbn [mbind result_bind]. rewrite chain_run_app. cbn [chain_run].
  rewrite Hsigner.
  destruct ((cpi =? 0) || (sr =? 0)); [reflexivity |].
  cbn [mbind result_bind].
  destruct (chain_run_linked step' (raw_cees raw) (length ring - pi) (S pi) cpi1)
    as (cend & F1 & F2).
  { lia. } { replace (S pi) with (pi + 1)%nat by lia. exact Hseed. }
  { intros j Hj. apply Hlinks'; lia. }
  replace (S pi + (length ring - pi))%nat with (length (raw_cees raw)) in F1 by lia.
  rewrite Nat.Div0.mod_same, Hc0 in F1. injection F1 as <-.
  rewrite F2. cbn [mbind result_bind]. rewrite Z.eqb_refl. reflexivity.
Qed.

Lemma RingSignature_new_Ok message ring c responses cv sig :
  RingSignature_new message ring c responses cv false = Ok sig ->
  sig = mkRingSignature message ring c responses cv.
Proof.
  unfold RingSignature_new.
  destruct (negb (length ring =? length responses)%nat); [discriminate |].
  cbn [andb]. congruence.
Qed.

(** ** The errors of [verify] *)

Lemma Point_mult_error p k e : Point_mult p k = Throw e -> e = InvalidScalar.
Proof.
  unfold Point_mult. destruct ((0 <? k) && (k <? curve_N (point_curve p))); congruence.
Qed.

Lemma BigInt_0x_error s e : BigInt_0x s = Throw e -> e = SyntaxError.
Proof.
  unfold BigInt_0x. destruct (trimEnd s); [congruence |].
  destruct (hex_value 0 _); congruence.
Qed.

Lemma modulo_error n p e : modulo n p = Throw e -> e = RangeError.
Proof.
  unfold modulo, Noble.mod_, bigint_rem. destruct (p =? 0); cbn; congruence.
Qed.

Lemma computeC_cases ring md G N r c K :
  (exists c', computeC ring md G N r c K = Ok c')
  \/ (exists e, computeC ring md G N r c K = Throw e /\ chain_error e
                /\ (digest_is_hex -> 0 < N -> e = InvalidScalar)).
Proof.
  unfold computeC, chain_error.
  destruct (Point_mult G r) as [rG | e] eqn:E1.
  2:{ right. exists e. apply Point_mult_error in E1. subst e. cbn. auto. }
  destruct (Point_mult K c) as [cK | e] eqn:E2.
  2:{ right. exists e. apply Point_mult_error in E2. subst e. cbn. auto. }
  cbn [mbind result_bind].
  destruct (BigInt_0x _) as [h | e] eqn:E3.
  2:{ right. exists e. pose proof (BigInt_0x_error _ _ E3). subst e. cbn.
      split; [reflexivity |]. split; [auto |]. intros Hhex _.
      destruct (Hhex (ring_toString ring +:+ md +:+ Point_toString (Point_add rG cK)))
        as [z Hz]. congruence. }
  cbn [mbind result_bind].
  destruct (modulo h N) as [c' | e] eqn:E4; [left; eauto |].
  right. exists e. pose proof (modulo_error _ _ _ E4). subst e.
  split; [reflexivity |]. split; [auto |]. intros _ HN.
  unfold modulo in E4. rewrite mod_ok in E4 by exact HN. discriminate E4.
Qed.

Lemma computeC_operation_error ring md G N r c K e :
  computeC ring md G N r c K = Throw e -> operation_error e.
Proof.
  intros H. destruct (computeC_cases ring md G N r c K) as [[c' E] | (e' & E & _)];
    [congruence |].
  rewrite E in H. injection H as <-. unfold computeC, operation_error in *.
  destruct (Point_mult G r) as [rG | e1] eqn:E1;
    [| injection E as <-; apply Point_mult_error in E1; auto].
  destruct (Point_mult K c) as [cK | e2] eqn:E2;
    [| injection E as <-; apply Point_mult_error in E2; auto].
  cbn [mbind result_bind] in E.
  destruct (BigInt_0x _) as [h | e3] eqn:E3;
    [| injection E as <-; apply BigInt_0x_error in E3; auto].
  cbn [mbind result_bind] in E. apply modulo_error in E. auto.
Qed.

(** The reads of a link are in range for a slot of the ring, so what it
    raises is raised by one of the operations it calls. *)
Lemma chain_step_operation_error ring md G N resp j c e :
  (j < length resp)%nat -> (j < length ring)%nat ->
  chain_step ring md G N resp j c = Throw e -> operation_error e.
Proof.
  intros Hresp Hring. rewrite chain_step_unfold. unfold at_index.
  destruct (lookup_lt_is_Some_2 resp j Hresp) as [r ->].
  destruct (lookup_lt_is_Some_2 ring j Hring) as [K ->].
  apply computeC_operation_error.
Qed.

Lemma chain_run_operation_error ring md G N resp (slots : list nat) : forall c e,
  Forall (fun j => (j < length resp)%nat /\ (j < length ring)%nat) slots ->
  chain_run (chain_step ring md G N resp) slots c = Throw e -> operation_error e.
Proof.
  induction slots as [| j slots IH]; intros c e Hall H; [discriminate H |].
  apply Forall_cons in Hall as [[H1 H2] Hall]. cbn [chain_run] in H.
  destruct (chain_step ring md G N resp j c) as [c1 | e1] eqn:E1; cbn [mbind result_bind] in H.
  - eapply IH; eassumption.
  - injection H as <-. eapply chain_step_operation_error; eassumption.
Qed.

(** [verify] on a ring of one key: the key is handed over in the place of
    [alpha] and the response in the place of the key, and the call raises. *)
Lemma verify_one_key (msg : string) (K : PointObj) (c0 r : Z) (cv : Curve) :
  verify (mkRingSignature msg [K] c0 [r] cv)
  = (modulo (2 * c0 + 1) (curve_N cv) ≫= fun _ => Throw TypeError).
Proof. reflexivity. Qed.

(** On a ring that is not empty and has as many responses as keys, [verify]
    returns a boolean or raises one of the errors of the chain. *)
Lemma verify_cases (this : RingSignature) :
  length (sig_ring this) <> 0%nat ->
  length (sig_ring this) = length (sig_responses this) ->
  (exists b, verify this = Ok b)
  \/ (exists e, verify this = Throw e /\ chain_error e).
Proof.
  intros Hne Heq.
  destruct (decide (1 < length (sig_ring this))%nat) as [Hlen | Hlen].
  - rewrite verify_chain_run by assumption.
    destruct (chain_run _ _ _) as [c0 | e] eqn:E.
    + left. eexists. reflexivity.
    + right. exists e. split; [reflexivity |].
      apply chain_run_operation_error in E.
      * unfold chain_error. destruct E as [-> | [-> | ->]]; auto.
      * apply Forall_forall. intros j Hj. apply elem_of_seq in Hj. lia.
  - destruct this as [msg ring c resp cv]. cbn [sig_ring sig_responses sig_curve] in *.
    destruct ring as [| K [| K' ring]]; [contradiction | | cbn in Hlen; lia].
    destruct resp as [| r [| r' resp]]; [discriminate Heq | | discriminate Heq].
    rewrite verify_one_key. right.
    destruct (modulo (2 * c + 1) (curve_N cv)) as [alpha | e] eqn:E.
    + exists TypeError. split; [reflexivity | unfold chain_error; auto].
    + exists e. apply modulo_error in E. subst e.
      split; [reflexivity | unfold chain_error; auto].
Qed.


(** ** The duplicate check of [signature] and [combine] *)

Lemma Set_size_NoDup (ring : list PointObj) :
  Set_size ring = length ring <-> NoDup (addr <$> ring).
Proof.
  unfold Set_size. rewrite <- (length_fmap addr ring).
  generalize (addr <$> ring) as l. clear ring. intros l.
  assert (Hle : forall l' : list nat, (length (remove_dups l') <= length l')%nat).
  { induction l' as [| x l' IH]; [reflexivity |]. cbn.
    destruct (decide_rel elem_of x l'); cbn; lia. }
  induction l as [| x l IH]; [split; [constructor | reflexivity] |].
  cbn. destruct (decide_rel elem_of x l) as [Hin | Hnin].
  - split.
    + intros H. pose proof (Hle l). lia.
    + intros H. apply NoDup_cons in H as [H _]. contradiction.
  - cbn. split.
    + intros H. apply NoDup_cons. split; [exact Hnin |]. apply IH. lia.
    + intros H. apply NoDup_cons in H as [_ H]. apply IH in H. lia.
Qed.

Lemma cValuesPI1N_loop_errors ring md G N resp pi steps : forall i cV e,
  cValuesPI1N_loop ring md G N resp pi steps i cV = Throw e -> chain_error e.
Proof.
  induction steps as [| steps IH]; intros i cV e H; [discriminate H |].
  cbn [cValuesPI1N_loop] in H. unfold at_index in H.
  destruct (resp !! (i - 1)%nat); [| injection H as <-; unfold chain_error; auto].
  destruct (cV !! (i - pi - 2)%nat); [| injection H as <-; unfold chain_error; auto].
  destruct (ring !! (i - 1)%nat) as [K |]; [| injection H as <-; unfold chain_error; auto].
  cbn [mbind result_bind] in H.
  destruct (computeC_cases ring md G N z z0 (val K)) as [[c' E] | (e' & E & Hce & _)];
    rewrite E in H; cbn [mbind result_bind] in H.
  - eapply IH. exact H.
  - injection H as <-. exact Hce.
Qed.

Lemma cValues0PI_loop_errors ring md G N resp steps : forall i cV e,
  cValues0PI_loop ring md G N resp steps i cV = Throw e -> chain_error e.
Proof.
  induction steps as [| steps IH]; intros i cV e H; [discriminate H |].
  cbn [cValues0PI_loop] in H. unfold at_index in H.
  destruct (resp !! (i - 1)%nat); [| injection H as <-; unfold chain_error; auto].
  destruct (cV !! (i - 1)%nat); [| injection H as <-; unfold chain_error; auto].
  destruct (ring !! (i - 1)%nat) as [K |]; [| injection H as <-; unfold chain_error; auto].
  cbn [mbind result_bind] in H.
  destruct (computeC_cases ring md G N z z0 (val K)) as [[c' E] | (e' & E & Hce & _)];
    rewrite E in H; cbn [mbind result_bind] in H.
  - unfold array_set in H.
    destruct (i <? length cV)%nat; cbn [mbind result_bind] in H; [eapply IH; exact H |].
    destruct (i =? length cV)%nat; cbn [mbind result_bind] in H; [eapply IH; exact H |].
    injection H as <-. unfold chain_error. auto.
  - injection H as <-. exact Hce.
Qed.

Lemma signature_inl w cv ring k msg :
  signature w cv ring (inl k) msg
  = derivePubKey w k cv ≫= fun Ks => signature w cv ring (inr Ks) msg.
Proof. unfold signature. destruct (derivePubKey w k cv); reflexivity. Qed.

Lemma signature_public_key_duplicates w cv ring Ks msg :
  signature w cv ring (inr Ks) msg = Throw DuplicateRingMember
  <-> ~ NoDup (addr <$> splice ring (securedNumber_draw w) (securedNumber_draw w) Ks).
Proof.
  assert (Hnot : ~ chain_error DuplicateRingMember).
  { intros [H | [H | [H | H]]]; discriminate H. }
  unfold signature. cbn [mbind result_bind].
  set (ring' := splice ring (securedNumber_draw w) (securedNumber_draw w) Ks).
  destruct (Nat.eqb_spec (Set_size ring') (length ring')) as [Hsize | Hsize]; cbn [negb].
  - split; [| intros Hdup; exfalso; apply Hdup, Set_size_NoDup, Hsize].
    intros H. exfalso. apply Hnot.
    repeat match type of H with
      | (?m ≫= _) = Throw _ =>
          let E := fresh "E" in
          destruct m eqn:E; cbn [mbind result_bind] in H;
          [| injection H as <-;
             first [ apply Point_mult_error in E; rewrite E; unfold chain_error; auto; fail
                   | apply BigInt_0x_error in E; rewrite E; unfold chain_error; auto; fail
                   | apply modulo_error in E; rewrite E; unfold chain_error; auto; fail
                   | eapply cValuesPI1N_loop_errors; exact E
                   | eapply cValues0PI_loop_errors; exact E
                   | unfold at_index in E;
                     match type of E with
                     | match ?o with _ => _ end = _ => destruct o; inversion E
                     end; unfold chain_error; auto; fail
                   | match type of E with
                     | computeC ?a ?b ?c ?d ?f ?g ?h = _ =>
                         destruct (computeC_cases a b c d f g h)
                           as [[? E'] | (? & E' & Hce & _)];
                         [rewrite E' in E; discriminate E
                         | rewrite E' in E; injection E as <-; exact Hce]
                     end ] ]
      end.
    discriminate H.
  - split; [| reflexivity]. intros _ Hnodup. apply Hsize, Set_size_NoDup, Hnodup.
Qed.

(** [signature] raises "Ring contains duplicates" exactly when, the
    signer's key in place, two entries of the ring are the same object. *)
Lemma signature_duplicate_check w cv ring key msg :
  signature w cv ring key msg = Throw DuplicateRingMember
  <-> exists Ks,
        match key with
        | inl k => derivePubKey w k cv = Ok Ks
        | inr K => Ks = K
        end
        /\ ~ NoDup (addr <$> splice ring (securedNumber_draw w) (securedNumber_draw w) Ks).
Proof.
  destruct key as [k | K].
  - rewrite signature_inl. destruct (derivePubKey w k cv) as [Ks | e] eqn:E;
      cbn [mbind result_bind].
    + rewrite signature_public_key_duplicates. split.
      * intros H. exists Ks. auto.
      * intros (Ks' & [= <-] & H). exact H.
    + split.
      * intros [= ->]. unfold derivePubKey in E.
        destruct (Point_mult (GtoPoint cv) k) eqn:E'; [discriminate E |].
        apply Point_mult_error in E'. cbn in E. congruence.
      * intros (Ks & HKs & _). discriminate HKs.
  - rewrite signature_public_key_duplicates. split.
    + intros H. exists K. auto.
    + intros (Ks & -> & H). exact H.
Qed.

(** The pairwise check of the array version raises its error exactly when
    two entries have the same coordinates. *)
Lemma duplicate_of_spec (Ki : Z * Z) (rest : list (Z * Z)) :
  (Ki ∈ rest -> duplicate_of Ki rest = Throw DuplicateRingMember)
  /\ (Ki ∉ rest -> duplicate_of Ki rest = Ok tt).
Proof.
  induction rest as [| Kj rest [IH1 IH2]].
  - split; [intros H; inversion H | reflexivity].
  - cbn [duplicate_of]. destruct Ki as [xi yi], Kj as [xj yj]. cbn [fst snd].
    destruct (Z.eqb_spec xi xj) as [-> | Hx]; cbn [andb];
      [destruct (Z.eqb_spec yi yj) as [-> | Hy] |].
    + split; [reflexivity |]. intros H. exfalso. apply H. constructor.
    + split; intros H.
      * apply IH1. apply elem_of_cons in H as [H | H]; [congruence | exact H].
      * apply IH2. intros Hin. apply H. apply elem_of_cons. auto.
    + split; intros H.
      * apply IH1. apply elem_of_cons in H as [H | H]; [congruence | exact H].
      * apply IH2. intros Hin. apply H. apply elem_of_cons. auto.
Qed.

Lemma check_duplicates_spec (ring : list (Z * Z)) :
  check_duplicates ring = Throw DuplicateRingMember <-> ~ NoDup ring.
Proof.
  induction ring as [| Ki rest IH].
  - split; [discriminate | intros H; exfalso; apply H; constructor].
  - cbn [check_duplicates]. destruct (duplicate_of_spec Ki rest) as [H1 H2].
    destruct (decide (Ki ∈ rest)) as [Hin | Hnin].
    + rewrite H1 by exact Hin. split; [| reflexivity].
      intros _ Hnd. apply NoDup_cons in Hnd as [Hnd _]. contradiction.
    + rewrite H2 by exact Hnin. cbn [mbind result_bind]. rewrite IH.
      split; intros H Hnd; apply H.
      * apply NoDup_cons in Hnd. tauto.
      * apply NoDup_cons. auto.
Qed.

(** The two slices of [combine], for an index that is a natural number. *)
Lemma slice_to (A : Type) (a : list A) (i : nat) :
  slice a (Integer 0) (Some (Integer (Z.of_nat i))) = take i a.
Proof.
  unfold slice, slice_index. cbn [Z.ltb Z.compare].
  destruct (Z.ltb_spec (Z.of_nat i) 0) as [H | _]; [lia |].
  replace (Z.to_nat (Z.min 0 (Z.of_nat (length a)))) with 0%nat by lia.
  rewrite drop_0, Nat.sub_0_r.
  destruct (Nat.le_gt_cases i (length a)) as [Hle | Hgt].
  - f_equal. lia.
  - replace (Z.to_nat (Z.min (Z.of_nat i) (Z.of_nat (length a)))) with (length a) by lia.
    rewrite !take_ge by lia. reflexivity.
Qed.

Lemma slice_from (A : Type) (a : list A) (i : nat) :
  slice a (Integer (Z.of_nat i)) None = drop i a.
Proof.
  unfold slice, slice_index.
  destruct (Z.ltb_spec (Z.of_nat i) 0) as [H | _]; [lia |].
  destruct (Nat.le_gt_cases i (length a)) as [Hle | Hgt].
  - replace (Z.to_nat (Z.min (Z.of_nat i) (Z.of_nat (length a)))) with i by lia.
    apply take_ge. rewrite length_drop. lia.
  - replace (Z.to_nat (Z.min (Z.of_nat i) (Z.of_nat (length a)))) with (length a) by lia.
    rewrite Nat.sub_diag, take_0, drop_ge by lia. reflexivity.
Qed.

Lemma slice_splice (A : Type) (a : list A) (i : nat) (v : A) :
  slice a (Integer 0) (Some (Integer (Z.of_nat i)))
  ++ [v] ++ slice a (number_succ (Integer (Z.of_nat i))) None
  = splice a i (i + 1) v.
Proof.
  cbn [number_succ]. replace (Z.of_nat i + 1) with (Z.of_nat (i + 1)) by lia.
  rewrite slice_to, slice_from. reflexivity.
Qed.

(** What [combine] returns when the slot exists: the signature with the
    signer's response in place, whatever the responses are. *)
Lemma combine_Ok (partialSig : PartialSignature) (signerResponse : Z) (i : nat) :
  ps_pi partialSig = Integer (Z.of_nat i) ->
  length (ps_ring partialSig) = length (ps_responses partialSig) ->
  (i < length (ps_responses partialSig))%nat ->
  combine partialSig signerResponse
  = Ok (mkRingSignature (ps_message partialSig) (ps_ring partialSig) (ps_c partialSig)
          (<[i := signerResponse]> (ps_responses partialSig))
          (ps_curve partialSig)).
Proof.
  intros Hpi Hlen Hi. unfold combine, RingSignature_new.
  rewrite Hpi, slice_splice.
  rewrite splice_insert by exact Hi. rewrite length_insert, Hlen, Nat.eqb_refl.
  reflexivity.
Qed.

End RingProtocolProperties.

(** * The theorems at concrete inputs *)

(** ** The integers modulo [N] satisfy the laws assumed of the generator *)

Lemma Zn_smul_curve (k : Z) :
  point_curve (Zn_smul k (GtoPoint Zn_curve)) = Zn_curve.
Proof. reflexivity. Qed.

Lemma Zn_smul_add (a b : Z) :
  Zn_padd (Zn_smul a (GtoPoint Zn_curve)) (Zn_smul b (GtoPoint Zn_curve))
  = Zn_smul (a + b) (GtoPoint Zn_curve).
Proof.
  unfold Zn_padd, Zn_smul. cbn. f_equal.
  rewrite !Z.mul_1_r. symmetry. apply Z.add_mod. discriminate.
Qed.

Lemma Zn_smul_mul (a b : Z) :
  Zn_smul a (Zn_smul b (GtoPoint Zn_curve)) = Zn_smul (a * b) (GtoPoint Zn_curve).
Proof.
  unfold Zn_smul. cbn. f_equal.
  rewrite !Z.mul_1_r. apply Z.mul_mod_idemp_r. discriminate.
Qed.

Lemma Zn_smul_order (a : Z) :
  Zn_smul (a mod curve_N Zn_curve) (GtoPoint Zn_curve) = Zn_smul a (GtoPoint Zn_curve).
Proof.
  unfold Zn_smul. cbn. f_equal.
  rewrite !Z.mul_1_r. apply Z.mod_mod. discriminate.
Qed.

Lemma hex_char_digit (n : nat) : (n < 16)%nat -> hex_digit (hex_char n) = Some (Z.of_nat n).
Proof.
  intros H. do 16 (destruct n as [| n]; [reflexivity |]). lia.
Qed.

Lemma hex_char_not_space (n : nat) : (n < 16)%nat -> is_white_space (hex_char n) = false.
Proof.
  intros H. do 16 (destruct n as [| n]; [reflexivity |]). lia.
Qed.

Lemma trimEnd_two (a b : ascii) :
  is_white_space b = false -> trimEnd (String a (String b "")) = String a (String b "").
Proof. intros H. cbn [trimEnd]. rewrite H. reflexivity. Qed.

Lemma checksum_digest_hex : digest_is_hex (lib := Zn_library).
Proof.
  intros s. change (keccak256 s) with (checksum_digest s).
  unfold checksum_digest, BigInt_0x.
  rewrite trimEnd_two by (apply hex_char_not_space, Nat.mod_upper_bound; discriminate).
  cbn [hex_value].
  rewrite !hex_char_digit by (apply Nat.mod_upper_bound; discriminate).
  eexists. reflexivity.
Qed.

Lemma Zn_draws_in_range : draws_in_range Zn_world Zn_ring Zn_curve.
Proof.
  split; [| cbn; lia]. intros k. cbn.
  pose proof (Z.mod_pos_bound (Z.of_nat k) 100 ltac:(lia)). lia.
Qed.

(** ** C6 *)

(** C6, at a ring the check misses.  On [twin_ring] the set-based check of
    [signature] does not raise
    "Ring contains duplicates", for any library and any draws that place a
    new key object in the ring, while the two entries are affine-equal and
    the pairwise check of the array version raises on their coordinates. *)
Theorem signature_misses_affine_duplicates :
  has_affine_duplicates (val <$> twin_ring) = true
  /\ check_duplicates (coordinates <$> twin_ring) = Throw DuplicateRingMember
  /\ checkRing twin_ring secp256k1 false = Throw DuplicateRingMember
  /\ forall (lib : Library) (signerPrivateKey : Z) (message : string),
       signature (lib := lib) (mkWorld (fun _ => 1) 0 2) secp256k1 twin_ring
         (inl signerPrivateKey) message
       <> Throw DuplicateRingMember.
Proof.
  split; [reflexivity |]. split; [reflexivity |]. split; [reflexivity |].
  intros lib k msg H. apply signature_duplicate_check in H as (Ks & HKs & Hdup).
  apply Hdup. unfold derivePubKey in HKs.
  destruct (Point_mult (GtoPoint secp256k1) k); [| discriminate HKs].
  injection HKs as <-. cbn. apply (bool_decide_unpack _). vm_compute. exact I.
Qed.

(** On the same ring the protocol goes on to compute the challenges: with
    the key [5] the run ends with a raw signature of three keys. *)
Example signature_runs_on_twin_ring :
  exists raw,
    signature (lib := secp_run) (mkWorld (fun k => 1 + Z.of_nat k) 0 2) secp256k1 twin_ring
      (inl 5) "m" = Ok raw
    /\ length (raw_ring raw) = 3%nat /\ length (raw_cees raw) = 3%nat.
Proof. eexists. split; [vm_compute; reflexivity | split; reflexivity]. Qed.

(** ** C7 *)

(** C7, at inputs [combine] accepts.  [combine] returns a ring signature
    when the signer's response is [0], and when a response already in the
    partial signature is [0]: it checks neither. *)
Theorem combine_accepts_zero_response :
  combine zero_response_partial 0
  = Ok (mkRingSignature "m" (ps_ring zero_response_partial) 5 [0; 0] secp256k1)
  /\ combine zero_response_partial 9
     = Ok (mkRingSignature "m" (ps_ring zero_response_partial) 5 [9; 0] secp256k1)
  /\ forall partialSig pi,
       ps_pi partialSig = Integer pi ->
       length (ps_ring partialSig) = length (ps_responses partialSig) ->
       0 <= pi < Z.of_nat (length (ps_responses partialSig)) ->
       is_ok (combine partialSig 0) = true.
Proof.
  split; [reflexivity |]. split; [reflexivity |].
  intros ps pi Hpi Hlen Hrange.
  rewrite (combine_Ok ps 0 (Z.to_nat pi)); [reflexivity | | exact Hlen | lia].
  rewrite Hpi. f_equal. lia.
Qed.

(** * The vendored arithmetic: group laws, inverse, affine form *)

#[local] Existing Instances eqm_setoid Zplus_eqm Zminus_eqm Zmult_eqm Zopp_eqm.

(** Equations between residues modulo [P]: the inner reductions are dropped
    under the outer one, and what is left is an identity of the ring. *)
Ltac residues :=
  rewrite ?modP_mod; unfold Noble.CURVE_a, Noble.CURVE_b;
  change (?a mod Noble.P = ?b mod Noble.P) with (eqm Noble.P a b);
  repeat setoid_rewrite (Zmod_eqm Noble.P);
  unfold eqm; f_equal; ring.

Lemma P_gt_1 : 1 < Noble.P.
Proof. reflexivity. Qed.

Lemma modP_range (a : Z) : 0 <= Noble.modP a < Noble.P.
Proof. rewrite modP_mod. apply Z.mod_pos_bound. pose proof P_gt_1. lia. Qed.

Lemma equals_true (p q : Noble.SECP256K1Point) :
  Noble.equals p q = true
  <-> (Noble.px p * Noble.pz q) mod Noble.P = (Noble.px q * Noble.pz p) mod Noble.P
      /\ (Noble.py p * Noble.pz q) mod Noble.P = (Noble.py q * Noble.pz p) mod Noble.P.
Proof.
  destruct p, q; unfold Noble.equals; cbn [Noble.px Noble.py Noble.pz].
  rewrite !modP_mod, andb_true_iff, !Z.eqb_eq. reflexivity.
Qed.

Lemma equals_I (p : Noble.SECP256K1Point) :
  Noble.equals p Noble.I = true <-> Noble.pz p mod Noble.P = 0.
Proof.
  rewrite equals_true. unfold Noble.I, Noble.ZERO; cbn [Noble.px Noble.py Noble.pz].
  rewrite !Z.mul_0_r, !Z.mul_0_l, Z.mul_1_l, Zmod_0_l. split.
  - intros [_ H]. symmetry. exact H.
  - intros H. split; [reflexivity | symmetry; exact H].
Qed.

Lemma equals_I_false (p : Noble.SECP256K1Point) :
  Noble.equals p Noble.I = false <-> Noble.pz p mod Noble.P <> 0.
Proof.
  rewrite <- equals_I. destruct (Noble.equals p Noble.I); split; congruence.
Qed.

(** ** Group laws *)

(** X1. [add] is commutative: the two sums are the same triple, for any two
    triples of integers. *)
Theorem add_commutes (p q : Noble.SECP256K1Point) : Noble.add p q = Noble.add q p.
Proof.
  destruct p as [X1 Y1 Z1], q as [X2 Y2 Z2]. unfold Noble.add.
  f_equal; residues.
Qed.

(** X2. [I] is neutral for [add] on either side, up to [equals]: the sum
    of a triple and [I] is the triple with its coordinates multiplied by
    its [y]. *)
Theorem add_identity (p : Noble.SECP256K1Point) :
  Noble.add p Noble.I
  = Noble.mkPoint (Noble.modP (Noble.px p * Noble.py p))
                  (Noble.modP (Noble.py p * Noble.py p))
                  (Noble.modP (Noble.pz p * Noble.py p))
  /\ Noble.equals (Noble.add p Noble.I) p = true
  /\ Noble.equals (Noble.add Noble.I p) p = true.
Proof.
  destruct p as [X1 Y1 Z1]. split; [| split].
  - unfold Noble.add, Noble.I, Noble.ZERO; cbn [Noble.px Noble.py Noble.pz].
    f_equal; residues.
  - apply equals_true.
    unfold Noble.add, Noble.I, Noble.ZERO; cbn [Noble.px Noble.py Noble.pz].
    split; residues.
  - apply equals_true.
    unfold Noble.add, Noble.I, Noble.ZERO; cbn [Noble.px Noble.py Noble.pz].
    split; residues.
Qed.

(** X3. [negate] gives the inverse for [add]: the sum of a triple and its
    negation equals [I], whatever the triple; negating twice gives the
    triple back with its [y] reduced. *)
Theorem add_negate (p : Noble.SECP256K1Point) :
  Noble.equals (Noble.add p (Noble.negate p)) Noble.I = true
  /\ Noble.equals (Noble.add (Noble.negate p) p) Noble.I = true
  /\ Noble.negate (Noble.negate p)
     = Noble.mkPoint (Noble.px p) (Noble.py p mod Noble.P) (Noble.pz p).
Proof.
  destruct p as [X1 Y1 Z1]. split; [| split].
  - apply equals_true.
    unfold Noble.add, Noble.negate, Noble.I, Noble.ZERO; cbn [Noble.px Noble.py Noble.pz].
    split; residues.
  - apply equals_true.
    unfold Noble.add, Noble.negate, Noble.I, Noble.ZERO; cbn [Noble.px Noble.py Noble.pz].
    split; residues.
  - unfold Noble.negate; cbn [Noble.px Noble.py Noble.pz]. f_equal. residues.
Qed.

(** X4. [equals] compares projective triples: it is reflexive and symmetric,
    a triple equals each of its multiples, and the triples equal to [I] are
    those with [z] a multiple of [P].  The triple of zeros equals every
    triple, so [equals] is not transitive on triples at large. *)
Theorem equals_projective (p q : Noble.SECP256K1Point) (k : Z) :
  Noble.equals p p = true
  /\ Noble.equals p q = Noble.equals q p
  /\ Noble.equals (Noble.mkPoint (k * Noble.px p) (k * Noble.py p) (k * Noble.pz p)) p = true
  /\ (Noble.equals p Noble.I = true <-> Noble.pz p mod Noble.P = 0)
  /\ Noble.equals (Noble.mkPoint 0 0 0) q = true
  /\ Noble.equals Noble.G Noble.I = false.
Proof.
  split; [| split; [| split; [| split; [| split]]]].
  - apply equals_true. split; reflexivity.
  - destruct p as [X1 Y1 Z1], q as [X2 Y2 Z2]. unfold Noble.equals.
    rewrite (Z.eqb_sym (Noble.modP (X1 * Z2))), (Z.eqb_sym (Noble.modP (Y1 * Z2))).
    reflexivity.
  - apply equals_true. cbn [Noble.px Noble.py Noble.pz]. split; f_equal; ring.
  - apply equals_I.
  - apply equals_true. cbn [Noble.px Noble.py Noble.pz].
    rewrite !Z.mul_0_l, !Z.mul_0_r. split; reflexivity.
  - reflexivity.
Qed.

(** ** Scalar multiplication: the value of the ladder *)

Lemma fold_left_seq_S {A} (f : A -> nat -> A) (k start : nat) (a : A) :
  fold_left f (seq (S start) k) a = fold_left (fun acc i => f acc (S i)) (seq start k) a.
Proof.
  revert start a. induction k as [| k IH]; intros start a; [reflexivity |].
  cbn [seq fold_left]. apply IH.
Qed.

Lemma fold_left_ext_seq {A} (f g : A -> nat -> A) (k start : nat) (a : A) :
  (forall acc i, f acc i = g acc i) -> fold_left f (seq start k) a = fold_left g (seq start k) a.
Proof.
  intros E. revert start a. induction k as [| k IH]; intros start a; [reflexivity |].
  cbn [seq fold_left]. rewrite E. apply IH.
Qed.

Lemma mul_loop_sum (q : positive) (safe : bool) : forall d s,
  Noble.result_point (Noble.mul_loop q safe d s)
  = ladder_sum d (Zpos q) (Noble.result_point s).
Proof.
  induction q as [q IH | q IH |]; intros d s.
  - cbn [Noble.mul_loop]. rewrite IH. cbn [Noble.ladder_body Noble.result_point].
    unfold ladder_sum. rewrite bit_length_succ_double. cbn [seq fold_left Nat.iter].
    change (Z.testbit (Z.pos q~1) (Z.of_nat 0)) with true. cbv iota.
    rewrite fold_left_seq_S. apply fold_left_ext_seq. intros acc i.
    change (Zpos q~1) with (2 * Zpos q + 1).
    rewrite Nat2Z.inj_succ, Z.testbit_odd_succ by lia.
    rewrite Nat.iter_succ_r. reflexivity.
  - cbn [Noble.mul_loop]. rewrite IH.
    assert (E : Noble.result_point (Noble.ladder_body false safe d s) = Noble.result_point s)
      by (destruct safe; reflexivity).
    cbn [Noble.result_point]. rewrite E.
    unfold ladder_sum. rewrite bit_length_double. cbn [seq fold_left Nat.iter].
    change (Z.testbit (Z.pos q~0) (Z.of_nat 0)) with false. cbv iota.
    rewrite fold_left_seq_S. apply fold_left_ext_seq. intros acc i.
    change (Zpos q~0) with (2 * Zpos q).
    rewrite Nat2Z.inj_succ, Z.double_bits_succ.
    rewrite Nat.iter_succ_r. reflexivity.
  - reflexivity.
Qed.

(** X5. What [mul] returns.  Outside [[1, N-1]] it raises "invalid
    scalar", but for [0] in unsafe mode, where it returns [I]; inside, it
    returns the sum, from [I] and from the lowest bit up, of the [2^i]-fold
    doublings of the point over the set bits of the scalar.  The safe flag
    has no part in the result. *)
Theorem mul_sum_of_doublings (this : Noble.SECP256K1Point) (n : Z) (safe : bool) :
  Noble.mul this n safe
  = if negb safe && (n =? 0) then Ok Noble.I
    else if (0 <? n) && (n <? Noble.N) then Ok (ladder_sum this n Noble.I)
    else Throw InvalidScalar.
Proof.
  unfold Noble.mul, Noble.mul_ops, Noble.ge.
  destruct (negb safe && (n =? 0)); [reflexivity |].
  destruct ((0 <? n) && (n <? Noble.N)) eqn:Hge; [| reflexivity].
  cbn [negb fmap result_fmap fst]. f_equal.
  destruct n as [| q | q]; [discriminate | | discriminate].
  cbn [Noble.mul_loopZ]. rewrite mul_loop_sum. reflexivity.
Qed.

Example mul_five :
  Noble.mul Noble.G 5 true
  = Ok (Noble.add (Noble.add Noble.I Noble.G)
                  (Noble.double (Noble.double Noble.G))).
Proof. reflexivity. Qed.

(** ** Reduced coordinates *)

Lemma add_reduced (p q : Noble.SECP256K1Point) : reduced (Noble.add p q).
Proof.
  destruct p as [X1 Y1 Z1], q as [X2 Y2 Z2]. unfold Noble.add, reduced.
  cbn [Noble.px Noble.py Noble.pz]. repeat split; apply modP_range.
Qed.

Lemma ladder_sum_reduced (this : Noble.SECP256K1Point) (n : Z) (start : Noble.SECP256K1Point) :
  0 < n -> reduced (ladder_sum this n start).
Proof.
  intros Hn. unfold ladder_sum, bit_length.
  pose proof (Z.log2_nonneg n) as Hl.
  replace (Z.to_nat (Z.log2 n + 1)) with (S (Z.to_nat (Z.log2 n))) by lia.
  rewrite seq_S, fold_left_app. cbn [fold_left Nat.add].
  rewrite Z2Nat.id by exact Hl. rewrite Z.bit_log2 by exact Hn.
  apply add_reduced.
Qed.

(** X6. Every coordinate of a point returned by [add], by [double] or by
    [mul] on a scalar of [[1, N-1]] is a residue of [[0, P-1]]; on a point
    with such coordinates [negate] is an involution. *)
Theorem results_reduced (p q : Noble.SECP256K1Point) (n : Z) (safe : bool) :
  reduced (Noble.add p q)
  /\ reduced (Noble.double p)
  /\ (0 < n < Noble.N -> exists r, Noble.mul p n safe = Ok r /\ reduced r)
  /\ (reduced p -> Noble.negate (Noble.negate p) = p).
Proof.
  split; [apply add_reduced |]. split; [apply add_reduced |]. split.
  - intros Hn. unfold Noble.mul, Noble.mul_ops, Noble.ge.
    destruct (Z.eqb_spec n 0); [lia |]. rewrite andb_false_r.
    destruct (Z.ltb_spec 0 n); [| lia]. destruct (Z.ltb_spec n Noble.N); [| lia].
    cbn [andb negb fmap result_fmap fst]. eexists. split; [reflexivity |].
    destruct n as [| k | k]; [lia | | lia].
    cbn [Noble.mul_loopZ]. rewrite mul_loop_sum. apply ladder_sum_reduced. lia.
  - intros (_ & Hy & _). destruct p as [X1 Y1 Z1]. cbn [Noble.py] in Hy.
    unfold Noble.negate; cbn [Noble.px Noble.py Noble.pz]. f_equal.
    rewrite <- (Z.mod_small Y1 Noble.P) at 2 by exact Hy. residues.
Qed.

Lemma results_reduced_witness :
  0 < 5 < Noble.N
  /\ reduced Noble.G
  /\ (exists r, Noble.mul Noble.G 5 true = Ok r /\ reduced r)
  /\ Noble.negate (Noble.negate Noble.G) = Noble.G.
Proof.
  assert (Hn : 0 < 5 < Noble.N) by (split; reflexivity).
  assert (HG : reduced Noble.G) by (repeat split; discriminate).
  destruct (results_reduced Noble.G Noble.G 5 true) as (_ & _ & Hmul & Hneg).
  split; [exact Hn |]. split; [exact HG |].
  split; [exact (Hmul Hn) | exact (Hneg HG)].
Defined.

(** ** Modular inverse *)

(** The loop of [inv] on [0 <= a < b]: the product [a * b] at least halves
    in every round, so [fuel] rounds are enough once [a * b < 2 ^ fuel]; the
    loop ends on the greatest common divisor, with a coefficient that
    multiplies [num] to it modulo [md]. *)
Lemma inv_loop_spec (num md : Z) (fuel : nat) : forall a b x y u v,
  0 <= a < b ->
  a * b < 2 ^ Z.of_nat fuel ->
  eqm md (x * num) b ->
  eqm md (u * num) a ->
  exists t, Noble.inv_loop fuel a b x y u v = Ok (Z.gcd a b, t)
            /\ eqm md (t * num) (Z.gcd a b).
Proof.
  induction fuel as [| fuel IH]; intros a b x y u v Hab Hfuel Hx Hu.
  - assert (a = 0) by (cbn in Hfuel; nia). subst a. cbn.
    exists x. rewrite Z.abs_eq by lia. split; [reflexivity | exact Hx].
  - cbn [Noble.inv_loop]. destruct (Z.eqb_spec a 0) as [-> | Ha].
    + exists x. cbn [Z.gcd]. rewrite Z.abs_eq by lia. split; [reflexivity | exact Hx].
    + rewrite Z.quot_div_nonneg, Z.rem_mod_nonneg by lia.
      pose proof (Z.mod_pos_bound b a ltac:(lia)) as Hr.
      pose proof (Z.div_mod b a Ha) as Hdiv.
      assert (Hq : 1 <= b / a) by (apply Z.div_le_lower_bound; lia).
      destruct (IH (b mod a) a u v (x - u * (b / a)) (y - v * (b / a))) as (t & Ht & Hc).
      * lia.
      * rewrite Nat2Z.inj_succ, Z.pow_succ_r in Hfuel by lia. nia.
      * exact Hu.
      * transitivity (x * num - u * num * (b / a)).
        { unfold eqm. f_equal. ring. }
        rewrite Hx, Hu. unfold eqm. f_equal. lia.
      * exists t. rewrite Z.gcd_mod in Ht, Hc by exact Ha. split; assumption.
Qed.

Lemma inv_fuel (a md : Z) :
  0 <= a < md -> a * md < 2 ^ Z.of_nat (Z.to_nat (2 * Z.log2_up md + 2)).
Proof.
  intros Ha. pose proof (Z.log2_up_nonneg md) as Hl.
  rewrite Z2Nat.id by lia.
  assert (Hmd : md <= 2 ^ Z.log2_up md).
  { destruct (Z.eq_dec md 1) as [-> | ?]; [cbn; lia |].
    apply Z.log2_up_spec. lia. }
  replace (2 * Z.log2_up md + 2) with (Z.log2_up md + Z.log2_up md + 2) by lia.
  rewrite !Z.pow_add_r by lia.
  assert (0 < 2 ^ Z.log2_up md) by (apply Z.pow_pos_nonneg; lia).
  change (2 ^ 2) with 4. nia.
Qed.

(** The bound on the rounds is never reached: [inv] ends in its own
    result or its own error. *)
Lemma inv_cases (num md : Z) :
  num <> 0 -> 0 < md ->
  exists t, eqm md (t * num) (Z.gcd num md)
            /\ Noble.inv num md
               = if Z.gcd num md =? 1 then Ok (t mod md) else Throw NoInverse.
Proof.
  intros Hnum Hmd. unfold Noble.inv.
  destruct (Z.eqb_spec num 0); [contradiction |].
  destruct (Z.leb_spec md 0); [lia |]. cbn [orb].
  rewrite mod_ok by exact Hmd. cbn [mbind result_bind].
  pose proof (Z.mod_pos_bound num md Hmd) as Ha.
  destruct (inv_loop_spec num md (Z.to_nat (2 * Z.log2_up md + 2))
              (num mod md) md 0 1 1 0 Ha (inv_fuel _ _ Ha)) as (t & Ht & Hc).
  - unfold eqm. rewrite Z.mul_0_l, Z_mod_same_full. reflexivity.
  - rewrite Z.mul_1_l. symmetry. apply Zmod_eqm.
  - rewrite Z.gcd_mod, Z.gcd_comm in Ht, Hc by lia.
    exists t. split; [exact Hc |]. rewrite Ht. cbn [mbind result_bind].
    destruct (Z.gcd num md =? 1); [apply mod_ok; exact Hmd | reflexivity].
Qed.

Lemma inv_coprime (num md : Z) :
  num <> 0 -> 0 < md -> Z.gcd num md = 1 ->
  exists r, Noble.inv num md = Ok r /\ 0 <= r < md /\ (num * r) mod md = 1 mod md.
Proof.
  intros Hnum Hmd Hg.
  destruct (inv_cases num md Hnum Hmd) as (t & Hc & ->).
  rewrite Hg in *. cbn [Z.eqb Pos.eqb].
  exists (t mod md). split; [reflexivity |].
  split; [apply Z.mod_pos_bound; exact Hmd |].
  rewrite Zmult_mod_idemp_r, Z.mul_comm. exact Hc.
Qed.

Lemma inv_no_inverse (num md : Z) :
  num = 0 \/ md <= 0 \/ Z.gcd num md <> 1 -> Noble.inv num md = Throw NoInverse.
Proof.
  intros H.
  destruct (Z.eq_dec num 0) as [-> | Hnum]; [reflexivity |].
  destruct (Z_le_gt_dec md 0) as [Hmd | Hmd].
  { unfold Noble.inv. destruct (Z.leb_spec md 0); [| lia].
    rewrite orb_true_r. reflexivity. }
  destruct H as [? | [? | Hg]]; [contradiction | lia |].
  destruct (inv_cases num md Hnum ltac:(lia)) as (t & _ & ->).
  destruct (Z.eqb_spec (Z.gcd num md) 1); [contradiction | reflexivity].
Qed.

(** X7. [inv(num, md)] raises "no inverse" when [num] is [0], when [md] is
    not positive, and when [num] and [md] have a common divisor; otherwise
    it returns the inverse of [num] modulo [md], in [[0, md - 1]]. *)
Theorem inv_modular_inverse (num md : Z) :
  (num = 0 \/ md <= 0 \/ Z.gcd num md <> 1 -> Noble.inv num md = Throw NoInverse)
  /\ (num <> 0 -> 0 < md -> Z.gcd num md = 1 ->
      exists r, Noble.inv num md = Ok r /\ 0 <= r < md /\ (num * r) mod md = 1 mod md).
Proof. split; [apply inv_no_inverse | apply inv_coprime]. Qed.

Lemma inv_modular_inverse_witness :
  (Z.gcd 6 9 <> 1 /\ Noble.inv 6 9 = Throw NoInverse)
  /\ 3 <> 0 /\ 0 < 7 /\ Z.gcd 3 7 = 1
  /\ exists r, Noble.inv 3 7 = Ok r /\ 0 <= r < 7 /\ (3 * r) mod 7 = 1 mod 7.
Proof.
  assert (H69 : Z.gcd 6 9 <> 1) by discriminate.
  split; [split; [exact H69 |]; apply (inv_modular_inverse 6 9); auto |].
  split; [discriminate |]. split; [reflexivity |]. split; [reflexivity |].
  exact (proj2 (inv_modular_inverse 3 7) ltac:(discriminate) ltac:(reflexivity)
           ltac:(reflexivity)).
Defined.

Example inv_of_three : Noble.inv 3 7 = Ok 5.
Proof. reflexivity. Qed.

(** ** Affine form *)

Lemma toAffine_cases (p : Noble.SECP256K1Point) :
  Noble.toAffine p
  = if Noble.equals p Noble.I then Ok (0, 0)
    else if Noble.pz p =? 1 then Ok (Noble.px p, Noble.py p)
    else match Noble.inv (Noble.pz p) Noble.P with
         | Ok iz => Ok ((Noble.px p * iz) mod Noble.P, (Noble.py p * iz) mod Noble.P)
         | Throw e => Throw e
         end.
Proof.
  destruct p as [x y z]. unfold Noble.toAffine. cbn [Noble.px Noble.py Noble.pz].
  destruct (Noble.equals (Noble.mkPoint x y z) Noble.I) eqn:HI; [reflexivity |].
  destruct (z =? 1); [reflexivity |].
  apply equals_I_false in HI. cbn [Noble.pz] in HI.
  assert (Hz : z <> 0) by (intros ->; apply HI; apply Zmod_0_l).
  pose proof P_gt_1 as HP.
  destruct (Z.eq_dec (Z.gcd z Noble.P) 1) as [Hg | Hg].
  - destruct (inv_coprime z Noble.P Hz ltac:(lia) Hg) as (iz & -> & _ & Hinv).
    cbn [mbind result_bind]. rewrite !modP_mod, Hinv, Z.mod_1_l by exact HP.
    reflexivity.
  - rewrite inv_no_inverse by tauto. reflexivity.
Qed.

Lemma toAffine_coprime (p : Noble.SECP256K1Point) :
  Z.gcd (Noble.pz p) Noble.P = 1 ->
  Noble.equals p Noble.I = false
  /\ exists x y, Noble.toAffine p = Ok (x, y)
                 /\ (x * Noble.pz p) mod Noble.P = Noble.px p mod Noble.P
                 /\ (y * Noble.pz p) mod Noble.P = Noble.py p mod Noble.P.
Proof.
  pose proof P_gt_1 as HP. intros Hg.
  assert (HI : Noble.pz p mod Noble.P <> 0).
  { intros E. apply Z.mod_divide in E; [| lia].
    assert (Hd : (Noble.P | Z.gcd (Noble.pz p) Noble.P))
      by (apply Z.gcd_greatest; [exact E | apply Z.divide_refl]).
    rewrite Hg in Hd. apply Z.divide_1_r in Hd. lia. }
  apply equals_I_false in HI. split; [exact HI |].
  rewrite toAffine_cases, HI.
  destruct (Z.eqb_spec (Noble.pz p) 1) as [H1 | H1].
  - exists (Noble.px p), (Noble.py p). rewrite H1, !Z.mul_1_r. tauto.
  - assert (Hz : Noble.pz p <> 0) by (intros E; rewrite E, Z.gcd_0_l in Hg; lia).
    destruct (inv_coprime (Noble.pz p) Noble.P Hz ltac:(lia) Hg) as (iz & -> & _ & Hinv).
    assert (Hinv' : eqm Noble.P (Noble.pz p * iz) 1) by exact Hinv.
    eexists _, _. split; [reflexivity |].
    split.
    + change (eqm Noble.P ((Noble.px p * iz) mod Noble.P * Noble.pz p) (Noble.px p)).
      rewrite Zmod_eqm.
      transitivity (Noble.px p * (Noble.pz p * iz)); [unfold eqm; f_equal; ring |].
      rewrite Hinv'. unfold eqm. f_equal. ring.
    + change (eqm Noble.P ((Noble.py p * iz) mod Noble.P * Noble.pz p) (Noble.py p)).
      rewrite Zmod_eqm.
      transitivity (Noble.py p * (Noble.pz p * iz)); [unfold eqm; f_equal; ring |].
      rewrite Hinv'. unfold eqm. f_equal. ring.
Qed.

Lemma toAffine_fromAffine (xy : Z * Z) : Noble.toAffine (Noble.fromAffine xy) = Ok xy.
Proof.
  destruct xy as [x y]. rewrite toAffine_cases. unfold Noble.fromAffine.
  cbn [fst snd Noble.px Noble.py Noble.pz].
  assert (HI : Noble.equals (Noble.mkPoint x y 1) Noble.I = false).
  { apply equals_I_false. cbn [Noble.pz]. rewrite Z.mod_1_l by exact P_gt_1. lia. }
  rewrite HI. reflexivity.
Qed.

(** X8. [toAffine] never raises "invalid inverse": the inverse [inv]
    returns passes the check made on it.  [toAffine] returns [(0, 0)] for a
    triple whose [z] is a multiple of [P], and for a triple whose [z] is
    prime to [P] the pair [(x / z, y / z)] modulo [P]. *)
Theorem toAffine_quotients (p : Noble.SECP256K1Point) :
  Noble.toAffine p <> Throw InvalidInverse
  /\ (Noble.pz p mod Noble.P = 0 -> Noble.toAffine p = Ok (0, 0))
  /\ (Z.gcd (Noble.pz p) Noble.P = 1 ->
      exists x y, Noble.toAffine p = Ok (x, y)
                  /\ (x * Noble.pz p) mod Noble.P = Noble.px p mod Noble.P
                  /\ (y * Noble.pz p) mod Noble.P = Noble.py p mod Noble.P).
Proof.
  split; [| split].
  - rewrite toAffine_cases. destruct (Noble.equals p Noble.I); [discriminate |].
    destruct (Noble.pz p =? 1); [discriminate |].
    destruct (Z.eq_dec (Noble.pz p) 0) as [Hz | Hz].
    { rewrite inv_no_inverse by tauto. discriminate. }
    pose proof P_gt_1 as HP.
    destruct (inv_cases (Noble.pz p) Noble.P Hz ltac:(lia)) as (t & _ & ->).
    destruct (Z.gcd (Noble.pz p) Noble.P =? 1); discriminate.
  - intros Hz. rewrite toAffine_cases. apply equals_I in Hz. rewrite Hz. reflexivity.
  - intros Hg. apply toAffine_coprime. exact Hg.
Qed.

Lemma toAffine_quotients_witness :
  (0 mod Noble.P = 0 /\ Noble.toAffine (Noble.mkPoint 3 4 0) = Ok (0, 0))
  /\ Z.gcd 2 Noble.P = 1
  /\ exists x y, Noble.toAffine (Noble.mkPoint 6 10 2) = Ok (x, y)
                 /\ (x * 2) mod Noble.P = 6 mod Noble.P
                 /\ (y * 2) mod Noble.P = 10 mod Noble.P.
Proof.
  assert (H0 : 0 mod Noble.P = 0) by reflexivity.
  assert (Hg : Z.gcd 2 Noble.P = 1) by reflexivity.
  split; [split; [exact H0 |];
          exact (proj1 (proj2 (toAffine_quotients (Noble.mkPoint 3 4 0))) H0) |].
  split; [exact Hg |].
  exact (proj2 (proj2 (toAffine_quotients (Noble.mkPoint 6 10 2))) Hg).
Defined.

Example toAffine_halves : Noble.toAffine (Noble.mkPoint 6 10 2) = Ok (3, 5).
Proof. vm_compute. reflexivity. Qed.

(** X9. The affine form and back.  [fromAffine] followed by [toAffine]
    returns the pair it started from, whatever the pair; and when
    [toAffine] returns a pair for a triple that is not equal to [I], the
    triple [fromAffine] builds from the pair equals the triple. *)
Theorem affine_round_trip (p : Noble.SECP256K1Point) (xy : Z * Z) :
  Noble.toAffine (Noble.fromAffine xy) = Ok xy
  /\ (Noble.equals p Noble.I = false -> Noble.toAffine p = Ok xy ->
      Noble.equals (Noble.fromAffine xy) p = true).
Proof.
  split; [apply toAffine_fromAffine |].
  intros HI Haff.
  destruct (Z.eq_dec (Z.gcd (Noble.pz p) Noble.P) 1) as [Hg | Hg].
  - destruct (toAffine_coprime p Hg) as (_ & x & y & E & Hx & Hy).
    rewrite E in Haff. injection Haff as <-.
    apply equals_true. unfold Noble.fromAffine.
    cbn [fst snd Noble.px Noble.py Noble.pz]. rewrite !Z.mul_1_r. tauto.
  - rewrite toAffine_cases, HI in Haff.
    destruct (Z.eqb_spec (Noble.pz p) 1) as [H1 | H1].
    + injection Haff as <-. destruct p as [x y z]. cbn [Noble.pz] in H1. subst z.
      apply equals_true. split; reflexivity.
    + rewrite inv_no_inverse in Haff by tauto. discriminate.
Qed.

Lemma affine_round_trip_witness :
  Noble.equals (Noble.mkPoint 6 10 2) Noble.I = false
  /\ Noble.toAffine (Noble.mkPoint 6 10 2) = Ok (3, 5)
  /\ Noble.equals (Noble.fromAffine (3, 5)) (Noble.mkPoint 6 10 2) = true.
Proof.
  assert (HI : Noble.equals (Noble.mkPoint 6 10 2) Noble.I = false) by reflexivity.
  assert (Ha : Noble.toAffine (Noble.mkPoint 6 10 2) = Ok (3, 5))
    by (vm_compute; reflexivity).
  split; [exact HI |]. split; [exact Ha |].
  exact (proj2 (affine_round_trip (Noble.mkPoint 6 10 2) (3, 5)) HI Ha).
Defined.

(** ** Validity of a point, in the two places that check it *)

(** X10. On secp256k1, [Curve.isOnCurve] accepts a pair of coordinates
    exactly when [assertValidity] accepts the point [fromAffine] builds from
    it: both ask for [0 < x, y < P] and [y² = x³ + 7] modulo [P]. *)
Theorem assertValidity_isOnCurve (x y : Z) :
  isOnCurve secp256k1 (x, y) = Ok (is_ok (Noble.assertValidity (Noble.fromAffine (x, y))))
  /\ (is_ok (Noble.assertValidity (Noble.fromAffine (x, y))) = true
      <-> 0 < x < Noble.P /\ 0 < y < Noble.P
          /\ (y * y) mod Noble.P = (x * x * x + 7) mod Noble.P).
Proof.
  pose proof P_gt_1 as HP.
  assert (Hcrv : Noble.crv x = (x * x * x + 7) mod Noble.P).
  { unfold Noble.crv. residues. }
  assert (Hv : is_ok (Noble.assertValidity (Noble.fromAffine (x, y))) = true
      <-> 0 < x < Noble.P /\ 0 < y < Noble.P
          /\ (y * y) mod Noble.P = (x * x * x + 7) mod Noble.P).
  { unfold Noble.assertValidity.
    rewrite toAffine_fromAffine. cbn [mbind result_bind].
    unfold Noble.fe. rewrite Hcrv, modP_mod.
    destruct (Z.ltb_spec 0 x), (Z.ltb_spec x Noble.P), (Z.ltb_spec 0 y),
      (Z.ltb_spec y Noble.P); cbn [andb negb orb is_ok];
      try (split; [discriminate | lia]).
    destruct (Z.eqb_spec ((y * y) mod Noble.P) ((x * x * x + 7) mod Noble.P));
      cbn [is_ok]; split; try tauto; try discriminate. }
  split; [| exact Hv].
  unfold isOnCurve. change (curve_name secp256k1) with SECP256K1.
  change (curve_P secp256k1) with Noble.P. rewrite String.eqb_refl.
  assert (Hcong : (x ^ 3 + 7 - y ^ 2) mod Noble.P = 0
                  <-> (y * y) mod Noble.P = (x * x * x + 7) mod Noble.P).
  { rewrite (Z.cong_iff_0 (y * y)).
    replace (x ^ 3 + 7 - y ^ 2) with (- (y * y - (x * x * x + 7))) by ring.
    split; intros E.
    - apply Z.mod_divide in E; [| lia]. apply Z.mod_divide; [lia |].
      exact (proj1 (Z.divide_opp_r _ _) E).
    - apply Z.mod_divide in E; [| lia]. apply Z.mod_divide; [lia |].
      exact (proj2 (Z.divide_opp_r _ _) E). }
  destruct (is_ok (Noble.assertValidity (Noble.fromAffine (x, y)))).
  - destruct (proj1 Hv eq_refl) as (Hx & Hy & Hc).
    destruct (Z.leb_spec Noble.P x); [lia |]. destruct (Z.leb_spec Noble.P y); [lia |].
    destruct (Z.leb_spec x 0); [lia |]. destruct (Z.leb_spec y 0); [lia |].
    cbn [orb]. unfold modulo. rewrite mod_ok by lia. cbn [mbind result_bind].
    f_equal. apply Z.eqb_eq, Hcong, Hc.
  - destruct (Z.leb_spec Noble.P x); [reflexivity |].
    destruct (Z.leb_spec Noble.P y); [reflexivity |].
    destruct (Z.leb_spec x 0); [reflexivity |]. destruct (Z.leb_spec y 0); [reflexivity |].
    cbn [orb]. unfold modulo. rewrite mod_ok by lia. cbn [mbind result_bind].
    f_equal. apply Z.eqb_neq. intros E. apply Hcong in E.
    assert (false = true) by (apply Hv; lia). discriminate.
Qed.

Example generator_is_valid :
  Noble.assertValidity Noble.G = Ok Noble.G
  /\ isOnCurve secp256k1 (Noble.Gx, Noble.Gy) = Ok true.
Proof. split; vm_compute; reflexivity. Qed.

(** * Hexadecimal encoding *)

Example toString16_values :
  toString16 0 = "0" /\ toString16 255 = "ff" /\ toString16 4096 = "1000"
  /\ toString16 (-26) = "-1a".
Proof. repeat split; reflexivity. Qed.

Example parseInt16_values :
  parseInt16 "ff" = Some 255 /\ parseInt16 "0x" = None /\ parseInt16 " 7" = Some 7
  /\ parseInt16 "-a" = Some (-10) /\ parseInt16 "1g" = Some 1 /\ parseInt16 "g1" = None.
Proof. repeat split; reflexivity. Qed.

Lemma append_assoc (s t u : string) : (s +:+ t) +:+ u = s +:+ (t +:+ u).
Proof.
  induction s as [| ch s IH]; [reflexivity |].
  change (String ch ((s +:+ t) +:+ u) = String ch (s +:+ (t +:+ u))). f_equal. exact IH.
Qed.

Lemma append_nil_r (s : string) : s +:+ "" = s.
Proof.
  induction s as [| ch s IH]; [reflexivity |].
  change (String ch (s +:+ "") = String ch s). f_equal. exact IH.
Qed.

Lemma length_append (s t : string) :
  String.length (s +:+ t) = (String.length s + String.length t)%nat.
Proof.
  induction s as [| ch s IH]; [reflexivity |].
  change (S (String.length (s +:+ t)) = S (String.length s + String.length t)).
  f_equal. exact IH.
Qed.

Lemma hexs_cons (d : nat) (ds : list nat) : hexs (d :: ds) = String (hex_char d) (hexs ds).
Proof. reflexivity. Qed.

Lemma hexs_app (ds es : list nat) : hexs (ds ++ es) = hexs ds +:+ hexs es.
Proof.
  induction ds as [| d ds IH]; [reflexivity |].
  cbn [app]. rewrite !hexs_cons, IH. reflexivity.
Qed.

Lemma hexs_length (ds : list nat) : String.length (hexs ds) = length ds.
Proof.
  induction ds as [| d ds IH]; [reflexivity |].
  rewrite hexs_cons. cbn [String.length length]. rewrite IH. reflexivity.
Qed.

Lemma digits_value_app (ds es : list nat) (a : Z) :
  fold_left (fun a d => 16 * a + Z.of_nat d) (ds ++ es) a
  = fold_left (fun a d => 16 * a + Z.of_nat d) es
      (fold_left (fun a d => 16 * a + Z.of_nat d) ds a).
Proof. apply fold_left_app. Qed.

(** The digits [hex_digits] writes before [acc]. *)
Lemma hex_digits_spec (fuel : nat) : forall n acc,
  0 <= n ->
  exists ds,
    Forall (fun d => (d < 16)%nat) ds
    /\ hex_digits fuel n acc = hexs ds +:+ acc
    /\ (n < 2 ^ Z.of_nat fuel -> forall a,
          fold_left (fun a d => 16 * a + Z.of_nat d) ds a = a * 16 ^ Z.of_nat (length ds) + n)
    /\ (forall k, (1 <= k)%nat -> n < 16 ^ Z.of_nat k -> (length ds <= k)%nat).
Proof.
  induction fuel as [| fuel IH]; intros n acc Hn.
  - exists []. split; [constructor |]. split; [reflexivity |]. split.
    + intros H a. cbn in H |- *. lia.
    + intros k Hk _. cbn. lia.
  - cbn [hex_digits].
    pose proof (Z.mod_pos_bound n 16 ltac:(lia)) as Hm.
    pose proof (Z.div_mod n 16 ltac:(lia)) as Hdiv.
    assert (Hd : (Z.to_nat (n mod 16) < 16)%nat) by lia.
    destruct (Z.eqb_spec (n / 16) 0) as [Hq | Hq].
    + exists [Z.to_nat (n mod 16)]. split; [constructor; [exact Hd | constructor] |].
      split; [reflexivity |]. split.
      * intros _ a. cbn. rewrite Z2Nat.id by lia. lia.
      * intros k Hk _. cbn. lia.
    + assert (Hq0 : 0 < n / 16) by (pose proof (Z.div_pos n 16 Hn ltac:(lia)); lia).
      destruct (IH (n / 16) (String (hex_char (Z.to_nat (n mod 16))) acc) ltac:(lia))
        as (ds & Hall & Heq & Hval & Hlen).
      exists (ds ++ [Z.to_nat (n mod 16)]).
      split; [apply Forall_app; split; [exact Hall | constructor; [exact Hd | constructor]] |].
      split; [rewrite Heq, hexs_app, append_assoc; reflexivity |]. split.
      * intros Hfuel a. rewrite digits_value_app, Hval.
        -- cbn [fold_left]. rewrite length_app, Nat2Z.inj_add. cbn [length].
           rewrite Z.pow_add_r by lia. rewrite Z2Nat.id by lia.
           change (16 ^ Z.of_nat 1) with 16. lia.
        -- rewrite Nat2Z.inj_succ, Z.pow_succ_r in Hfuel by lia.
           apply Z.div_lt_upper_bound; lia.
      * intros k Hk Hnk. destruct k as [| k]; [lia |].
        rewrite length_app. cbn [length].
        destruct k as [| k].
        -- change (16 ^ Z.of_nat 1) with 16 in Hnk. exfalso.
           assert (n / 16 = 0) by (apply Z.div_small; lia). contradiction.
        -- enough (length ds <= S k)%nat by lia. apply Hlen; [lia |].
           rewrite (Nat2Z.inj_succ (S k)), Z.pow_succ_r in Hnk by lia.
           apply Z.div_lt_upper_bound; lia.
Qed.

Lemma toString16_digits (n : Z) :
  0 <= n ->
  exists ds,
    Forall (fun d => (d < 16)%nat) ds
    /\ toString16 n = hexs ds
    /\ digits_value ds = n
    /\ (forall k, (1 <= k)%nat -> n < 16 ^ Z.of_nat k -> (length ds <= k)%nat).
Proof.
  intros Hn. unfold toString16. destruct (Z.ltb_spec n 0); [lia |].
  destruct (hex_digits_spec (S (Z.to_nat (Z.log2 n))) n "" Hn)
    as (ds & Hall & Heq & Hval & Hlen).
  exists ds. split; [exact Hall |].
  split; [rewrite Heq; apply append_nil_r |]. split; [| exact Hlen].
  unfold digits_value. rewrite Hval; [lia |].
  rewrite Nat2Z.inj_succ, Z2Nat.id by apply Z.log2_nonneg.
  destruct (Z.eq_dec n 0) as [-> | ?]; [reflexivity |].
  apply Z.log2_spec. lia.
Qed.

Lemma zeros_hexs (k : nat) (ds : list nat) : zeros k (hexs ds) = hexs (replicate k 0%nat ++ ds).
Proof.
  induction k as [| k IH]; [reflexivity |].
  cbn [zeros replicate app]. rewrite hexs_cons, IH. reflexivity.
Qed.

Lemma digits_value_zeros (k : nat) (ds : list nat) :
  digits_value (replicate k 0%nat ++ ds) = digits_value ds.
Proof.
  unfold digits_value. rewrite fold_left_app. f_equal.
  induction k as [| k IH]; [reflexivity |]. cbn. exact IH.
Qed.

(** [padh(n, pad)] for [0 <= n < 16 ^ pad]: [pad] digits that stand for [n]. *)
Lemma padh_digits (n : Z) (pad : nat) :
  (1 <= pad)%nat -> 0 <= n < 16 ^ Z.of_nat pad ->
  exists ds,
    Forall (fun d => (d < 16)%nat) ds /\ length ds = pad
    /\ padh n pad = hexs ds /\ digits_value ds = n.
Proof.
  intros Hpad Hn.
  destruct (toString16_digits n ltac:(lia)) as (ds & Hall & Heq & Hval & Hlen).
  specialize (Hlen pad Hpad ltac:(lia)).
  exists (replicate (pad - length ds) 0%nat ++ ds).
  split; [apply Forall_app; split; [apply Forall_replicate; lia | exact Hall] |].
  split; [rewrite length_app, length_replicate; lia |].
  split; [| rewrite digits_value_zeros; exact Hval].
  unfold padh, padStart0. rewrite Heq, hexs_length. apply zeros_hexs.
Qed.

Lemma hex_value_hexs (ds : list nat) : forall a,
  Forall (fun d => (d < 16)%nat) ds ->
  hex_value a (hexs ds) = Some (fold_left (fun a d => 16 * a + Z.of_nat d) ds a).
Proof.
  induction ds as [| d ds IH]; intros a Hall; [reflexivity |].
  apply Forall_cons in Hall as [Hd Hall]. rewrite hexs_cons. cbn [hex_value fold_left].
  rewrite hex_char_digit by exact Hd. apply IH. exact Hall.
Qed.

(** A string of digits has no white space for [BigInt] to drop. *)
Lemma trimEnd_hexs (ds : list nat) :
  Forall (fun d => (d < 16)%nat) ds -> trimEnd (hexs ds) = hexs ds.
Proof.
  induction ds as [| d ds IH]; intros Hall; [reflexivity |].
  apply Forall_cons in Hall as [Hd Hall]. rewrite hexs_cons. cbn [trimEnd].
  rewrite IH by exact Hall.
  destruct (hexs ds); [rewrite hex_char_not_space by exact Hd |]; reflexivity.
Qed.

(** Two digits and their byte. *)
Lemma padh_byte (d1 d2 : nat) :
  (d1 < 16)%nat -> (d2 < 16)%nat ->
  padh (Z.of_nat (16 * d1 + d2)) 2 = String (hex_char d1) (String (hex_char d2) "").
Proof.
  intros H1 H2.
  do 16 (destruct d1 as [| d1];
         [do 16 (destruct d2 as [| d2]; [reflexivity |]); lia |]).
  lia.
Qed.

Lemma parseInt16_byte (d1 d2 : nat) :
  (d1 < 16)%nat -> (d2 < 16)%nat ->
  parseInt16 (String (hex_char d1) (String (hex_char d2) "")) = Some (Z.of_nat (16 * d1 + d2)).
Proof.
  intros H1 H2.
  do 16 (destruct d1 as [| d1];
         [do 16 (destruct d2 as [| d2]; [reflexivity |]); lia |]).
  lia.
Qed.

Lemma substring_skip (pre s : string) (m : nat) :
  substring (String.length pre) m (pre +:+ s) = substring 0 m s.
Proof. induction pre as [| ch pre IH]; [reflexivity |]. cbn. exact IH. Qed.

Lemma b2h_bytes_of (n : nat) : forall ds,
  length ds = (2 * n)%nat -> Forall (fun d => (d < 16)%nat) ds ->
  b2h (bytes_of ds) = hexs ds.
Proof.
  induction n as [| n IH]; intros ds Hlen Hall.
  - destruct ds; [reflexivity | discriminate].
  - destruct ds as [| d1 [| d2 ds]]; [discriminate | cbn in Hlen; lia |].
    apply Forall_cons in Hall as [H1 Hall]. apply Forall_cons in Hall as [H2 Hall].
    cbn [bytes_of]. rewrite !hexs_cons.
    change (b2h (Z.of_nat (16 * d1 + d2) :: bytes_of ds))
      with (padh (Z.of_nat (16 * d1 + d2)) 2 +:+ b2h (bytes_of ds)).
    rewrite padh_byte by assumption. rewrite IH; [reflexivity | cbn in Hlen; lia | exact Hall].
Qed.

Lemma h2b_loop_hexs (n : nat) : forall ds pre i arr,
  length ds = (2 * n)%nat -> Forall (fun d => (d < 16)%nat) ds ->
  String.length pre = (i * 2)%nat ->
  length arr = (i + n)%nat ->
  h2b_loop (pre +:+ hexs ds) n i arr = inr (take i arr ++ bytes_of ds).
Proof.
  induction n as [| n IH]; intros ds pre i arr Hlen Hall Hpre Harr.
  - destruct ds; [| discriminate]. cbn. rewrite app_nil_r, take_ge by lia. reflexivity.
  - destruct ds as [| d1 [| d2 ds]]; [discriminate | cbn in Hlen; lia |].
    apply Forall_cons in Hall as [H1 Hall]. apply Forall_cons in Hall as [H2 Hall].
    cbn [h2b_loop]. rewrite <- Hpre, substring_skip.
    rewrite !hexs_cons. cbn [substring].
    replace (substring 0 0 (hexs ds)) with EmptyString by (destruct (hexs ds); reflexivity).
    rewrite parseInt16_byte by assumption.
    destruct (Z.ltb_spec (Z.of_nat (16 * d1 + d2)) 0); [lia |].
    rewrite Z.mod_small by lia.
    replace (pre +:+ String (hex_char d1) (String (hex_char d2) (hexs ds)))
      with ((pre +:+ String (hex_char d1) (String (hex_char d2) "")) +:+ hexs ds)
      by (rewrite append_assoc; reflexivity).
    rewrite IH.
    + f_equal. cbn [bytes_of].
      rewrite (take_S_r _ i (Z.of_nat (16 * d1 + d2)))
        by (apply list_lookup_insert_eq; lia).
      rewrite take_insert_ge by lia. rewrite <- app_assoc. reflexivity.
    + cbn in Hlen. lia.
    + exact Hall.
    + rewrite length_append, Hpre. cbn. lia.
    + rewrite length_insert. lia.
Qed.

Lemma h2b_hexs (ds : list nat) :
  Nat.Even (length ds) -> Forall (fun d => (d < 16)%nat) ds ->
  h2b (hexs ds) = inr (bytes_of ds).
Proof.
  intros [n Hn] Hall. unfold h2b. rewrite hexs_length, Hn.
  replace ((2 * n) mod 2)%nat with 0%nat
    by (symmetry; rewrite Nat.mul_comm; apply Nat.Div0.mod_mul).
  cbn [Nat.eqb negb].
  replace (2 * n / 2)%nat with n by (rewrite Nat.mul_comm, Nat.div_mul; lia).
  apply (h2b_loop_hexs n ds "" 0 (replicate n 0) Hn Hall eq_refl).
  rewrite length_replicate. reflexivity.
Qed.

(** The digits of a list of bytes. *)
Lemma bytes_digits (bs : list Z) :
  Forall (fun e => 0 <= e < 256) bs ->
  exists ds, length ds = (2 * length bs)%nat /\ Forall (fun d => (d < 16)%nat) ds
             /\ bytes_of ds = bs.
Proof.
  induction bs as [| e bs IH]; intros Hall.
  - exists []. split; [reflexivity |]. split; [constructor | reflexivity].
  - apply Forall_cons in Hall as [He Hall]. destruct (IH Hall) as (ds & Hlen & Hds & Hbs).
    pose proof (Z.mod_pos_bound e 16 ltac:(lia)) as Hm.
    pose proof (Z.div_mod e 16 ltac:(lia)) as Hdiv.
    assert (0 <= e / 16 < 16)
      by (split; [apply Z.div_pos; lia | apply Z.div_lt_upper_bound; lia]).
    exists (Z.to_nat (e / 16) :: Z.to_nat (e mod 16) :: ds).
    split; [cbn; lia |].
    split; [repeat (apply Forall_cons; split; [lia |]); exact Hds |].
    cbn [bytes_of]. rewrite Hbs. f_equal. lia.
Qed.

(** X11. Bytes to hexadecimal and back: [h2b(b2h(b))] is [b], for every
    list [b] of bytes; and [b2h(b)] has two characters for each byte. *)
Theorem h2b_b2h (b : list Z) :
  Forall (fun e => 0 <= e < 256) b ->
  h2b (b2h b) = inr b /\ String.length (b2h b) = (2 * length b)%nat.
Proof.
  intros Hall. destruct (bytes_digits b Hall) as (ds & Hlen & Hds & <-).
  rewrite (b2h_bytes_of (length (bytes_of ds))) by assumption.
  split; [| rewrite hexs_length; exact Hlen].
  apply h2b_hexs; [exists (length (bytes_of ds)); exact Hlen | exact Hds].
Qed.

Lemma h2b_b2h_witness :
  Forall (fun e => 0 <= e < 256) [0; 7; 171; 255]
  /\ b2h [0; 7; 171; 255] = "0007abff"
  /\ h2b "0007abff" = inr [0; 7; 171; 255].
Proof.
  assert (H : Forall (fun e => 0 <= e < 256) [0; 7; 171; 255])
    by (repeat constructor; lia).
  split; [exact H |]. split; [reflexivity |].
  exact (proj1 (h2b_b2h [0; 7; 171; 255] H)).
Defined.

(** X12. [n2h] writes a number of [[0, 2^256 - 1]] as 64 hexadecimal
    digits that [BigInt("0x" + ...)] reads back as the number; it is
    [padh(num, 64)], the bytes in between change nothing.  Any other number
    is refused with "bigint expected". *)
Theorem n2h_round_trip (num : Z) :
  (0 <= num < Noble.B256 ->
   n2h num = inr (padh num 64)
   /\ String.length (padh num 64) = 64%nat
   /\ BigInt_0x (padh num 64) = Ok num)
  /\ (~ 0 <= num < Noble.B256 -> n2h num = inl BigintExpected).
Proof.
  split.
  - intros Hn.
    destruct (padh_digits num 64 ltac:(lia)) as (ds & Hall & Hlen & Heq & Hval).
    { change (16 ^ Z.of_nat 64) with Noble.B256. exact Hn. }
    assert (Hs : String.length (padh num 64) = 64%nat) by (rewrite Heq, hexs_length; exact Hlen).
    split; [| split; [exact Hs |]].
    + unfold n2h, n2b. destruct (Z.leb_spec 0 num); [| lia].
      destruct (Z.ltb_spec num Noble.B256); [| lia]. cbn [andb].
      change (2 * 32)%nat with 64%nat. rewrite Heq.
      rewrite h2b_hexs; [| exists 32%nat; exact Hlen | exact Hall].
      rewrite (b2h_bytes_of 32) by assumption. reflexivity.
    + unfold BigInt_0x. rewrite Heq in Hs |- *. rewrite trimEnd_hexs by exact Hall.
      destruct (hexs ds) eqn:E; [discriminate Hs |]. rewrite <- E.
      rewrite hex_value_hexs by exact Hall. fold (digits_value ds). rewrite Hval. reflexivity.
  - intros Hn. unfold n2h, n2b.
    destruct (Z.leb_spec 0 num); destruct (Z.ltb_spec num Noble.B256); try lia; reflexivity.
Qed.

Lemma n2h_round_trip_witness :
  0 <= 255 < Noble.B256
  /\ n2h 255 = inr (padh 255 64)
  /\ String.length (padh 255 64) = 64%nat
  /\ BigInt_0x (padh 255 64) = Ok 255
  /\ n2h (-1) = inl BigintExpected.
Proof.
  assert (H : 0 <= 255 < Noble.B256) by (split; [discriminate | reflexivity]).
  destruct (n2h_round_trip 255) as [Hin _].
  destruct (n2h_round_trip (-1)) as [_ Hout].
  destruct (Hin H) as (H1 & H2 & H3).
  split; [exact H |]. split; [exact H1 |]. split; [exact H2 |]. split; [exact H3 |].
  apply Hout. intros [Hneg _]. apply Hneg. reflexivity.
Defined.

Lemma bytes_of_length (n : nat) : forall ds,
  length ds = (2 * n)%nat -> length (bytes_of ds) = n.
Proof.
  induction n as [| n IH]; intros ds Hlen.
  - destruct ds; [reflexivity | discriminate].
  - destruct ds as [| d1 [| d2 ds]]; [discriminate | cbn in Hlen; lia |].
    cbn [bytes_of length]. rewrite IH; [reflexivity | cbn in Hlen; lia].
Qed.

(** X13. [toHex] and [toRawBytes] of a point whose affine coordinates are
    in [[0, 2^256 - 1]].  Compressed: the prefix [02] or [03], by the parity
    of [y], and the 64 digits of [x]; 33 bytes.  Uncompressed: the prefix
    [04], the 64 digits of [x] and the 64 digits of [y]; 65 bytes.  The
    first byte is the prefix, and [b2h] of the bytes is the string. *)
Theorem toHex_encoding (this : Noble.SECP256K1Point) (x y : Z) (isCompressed : bool) :
  Noble.toAffine this = Ok (x, y) ->
  0 <= x < Noble.B256 -> 0 <= y < Noble.B256 ->
  let head := if isCompressed then (if Z.even y then "02" else "03") else "04" in
  let tag := if isCompressed then (if Z.even y then 2 else 3) else 4 in
  let hex := head +:+ padh x 64 +:+ (if isCompressed then "" else padh y 64) in
  toHex this isCompressed = Ok (inr hex)
  /\ String.length hex = (if isCompressed then 66 else 130)%nat
  /\ exists bytes,
       toRawBytes this isCompressed = Ok (inr (tag :: bytes))
       /\ length bytes = (if isCompressed then 32 else 64)%nat
       /\ b2h (tag :: bytes) = hex.
Proof.
  intros Haff Hx Hy head tag hex.
  destruct (padh_digits x 64 ltac:(lia)) as (dx & Hallx & Hlenx & Heqx & _).
  { change (16 ^ Z.of_nat 64) with Noble.B256. exact Hx. }
  destruct (padh_digits y 64 ltac:(lia)) as (dy & Hally & Hleny & Heqy & _).
  { change (16 ^ Z.of_nat 64) with Noble.B256. exact Hy. }
  assert (Hnx : n2h x = inr (hexs dx)).
  { unfold n2h, n2b. destruct (Z.leb_spec 0 x); [| lia].
    destruct (Z.ltb_spec x Noble.B256); [| lia]. cbn [andb].
    change (2 * 32)%nat with 64%nat. rewrite Heqx.
    rewrite h2b_hexs; [| exists 32%nat; exact Hlenx | exact Hallx].
    rewrite (b2h_bytes_of 32) by assumption. reflexivity. }
  assert (Hny : n2h y = inr (hexs dy)).
  { unfold n2h, n2b. destruct (Z.leb_spec 0 y); [| lia].
    destruct (Z.ltb_spec y Noble.B256); [| lia]. cbn [andb].
    change (2 * 32)%nat with 64%nat. rewrite Heqy.
    rewrite h2b_hexs; [| exists 32%nat; exact Hleny | exact Hally].
    rewrite (b2h_bytes_of 32) by assumption. reflexivity. }
  assert (Hpar : (Z.land y 1 =? 0) = Z.even y).
  { change 1 with (Z.ones 1). rewrite Z.land_ones by lia. change (2 ^ 1) with 2.
    rewrite Zeven_mod. reflexivity. }
  set (t := if isCompressed then (if Z.even y then 2%nat else 3%nat) else 4%nat).
  set (ds := (0%nat :: t :: dx) ++ (if isCompressed then [] else dy)).
  assert (Hhex : hex = hexs ds).
  { unfold hex, head, ds, t. rewrite Heqx, Heqy, hexs_app.
    destruct isCompressed; [destruct (Z.even y) |]; reflexivity. }
  assert (Hall : Forall (fun d => (d < 16)%nat) ds).
  { unfold ds, t. apply Forall_app. split.
    - constructor; [lia |]. constructor; [| exact Hallx].
      destruct isCompressed; [destruct (Z.even y) |]; lia.
    - destruct isCompressed; [constructor | exact Hally]. }
  assert (Hlen : length ds = (2 * (if isCompressed then 33 else 65))%nat).
  { unfold ds. rewrite length_app. cbn [length]. rewrite Hlenx.
    destruct isCompressed; [reflexivity | rewrite Hleny; reflexivity]. }
  assert (HtoHex : toHex this isCompressed = Ok (inr hex)).
  { unfold toHex. rewrite Haff. cbn [mbind result_bind]. rewrite Hnx, Hny, Hpar.
    unfold hex, head. rewrite Heqx, Heqy.
    destruct isCompressed; [| rewrite append_assoc; reflexivity].
    rewrite !append_nil_r. reflexivity. }
  split; [exact HtoHex |].
  split; [rewrite Hhex, hexs_length, Hlen; destruct isCompressed; reflexivity |].
  exists (bytes_of (dx ++ (if isCompressed then [] else dy))).
  assert (Hbytes : bytes_of ds = tag :: bytes_of (dx ++ (if isCompressed then [] else dy))).
  { unfold ds, t, tag. cbn [app bytes_of].
    destruct isCompressed; [destruct (Z.even y) |]; reflexivity. }
  split; [| split].
  - unfold toRawBytes. rewrite HtoHex. cbn [mbind result_bind]. rewrite Hhex.
    rewrite h2b_hexs; [| eexists; exact Hlen | exact Hall]. rewrite Hbytes. reflexivity.
  - apply bytes_of_length. rewrite length_app, Hlenx.
    destruct isCompressed; [reflexivity | rewrite Hleny; reflexivity].
  - rewrite <- Hbytes, Hhex. eapply b2h_bytes_of; [exact Hlen | exact Hall].
Qed.

Lemma toHex_encoding_witness :
  Noble.toAffine Noble.G = Ok (Noble.Gx, Noble.Gy)
  /\ 0 <= Noble.Gx < Noble.B256 /\ 0 <= Noble.Gy < Noble.B256
  /\ toHex Noble.G true
     = Ok (inr "0279be667ef9dcbbac55a06295ce870b07029bfcdb2dce28d959f2815b16f81798")
  /\ exists bytes, toRawBytes Noble.G true = Ok (inr (2 :: bytes))
                   /\ length bytes = 32%nat.
Proof.
  assert (Ha : Noble.toAffine Noble.G = Ok (Noble.Gx, Noble.Gy)) by reflexivity.
  assert (Hx : 0 <= Noble.Gx < Noble.B256) by (split; [discriminate | reflexivity]).
  assert (Hy : 0 <= Noble.Gy < Noble.B256) by (split; [discriminate | reflexivity]).
  destruct (toHex_encoding Noble.G Noble.Gx Noble.Gy true Ha Hx Hy)
    as (Hhex & _ & bytes & Hraw & Hlen & _).
  split; [exact Ha |]. split; [exact Hx |]. split; [exact Hy |].
  split; [rewrite Hhex; vm_compute; reflexivity |].
  exists bytes. split; [exact Hraw | exact Hlen].
Defined.

(** * Curves *)

(** X14. The constructor knows one curve.  It returns secp256k1 for the
    name "SECP256K1" and raises "unknown curve" for any other name; the
    generator of the curve it returns is on the curve.  [isOnCurve] raises
    nothing, on any curve record, and answers [false] on a curve of another
    name. *)
Theorem curve_constructor (name : string) (c : Curve) (point : Z * Z) :
  (Curve_new name = Ok c ->
   name = SECP256K1 /\ c = secp256k1 /\ isOnCurve c (curve_G c) = Ok true)
  /\ (name <> SECP256K1 -> Curve_new name = Throw UnknownCurve)
  /\ (exists b, isOnCurve c point = Ok b)
  /\ (curve_name c <> SECP256K1 -> isOnCurve c point = Ok false).
Proof.
  split; [| split; [| split]].
  - unfold Curve_new. destruct (String.eqb_spec name SECP256K1) as [-> | Hn]; [| discriminate].
    intros [= <-]. split; [reflexivity |]. split; [reflexivity |].
    vm_compute. reflexivity.
  - intros Hn. unfold Curve_new. destruct (String.eqb_spec name SECP256K1); [contradiction |].
    reflexivity.
  - apply isOnCurve_total.
  - intros Hn. destruct point as [x y]. unfold isOnCurve.
    destruct (String.eqb_spec (curve_name c) SECP256K1); [contradiction | reflexivity].
Qed.

Lemma curve_constructor_witness :
  Curve_new "SECP256K1" = Ok secp256k1
  /\ isOnCurve secp256k1 (curve_G secp256k1) = Ok true
  /\ "ED25519" <> SECP256K1
  /\ Curve_new "ED25519" = Throw UnknownCurve
  /\ isOnCurve Zn_curve (1, 0) = Ok false.
Proof.
  assert (Hnew : Curve_new "SECP256K1" = Ok secp256k1) by reflexivity.
  assert (Hed : "ED25519" <> SECP256K1) by discriminate.
  assert (Hzn : curve_name Zn_curve <> SECP256K1) by discriminate.
  destruct (curve_constructor "SECP256K1" secp256k1 (0, 0)) as (Hok & _ & _ & _).
  destruct (curve_constructor "ED25519" Zn_curve (1, 0)) as (_ & Hunknown & _ & Hfalse).
  destruct (Hok Hnew) as (_ & _ & HG).
  split; [exact Hnew |]. split; [exact HG |]. split; [exact Hed |].
  split; [exact (Hunknown Hed) | exact (Hfalse Hzn)].
Defined.

(** * The ring-signature class: further properties *)

Section RingProtocolFurther.

Context {lib : Library}.

(** ** Signing in two steps *)

Lemma partialSign_inv w ring msg K cv ps :
  partialSign w ring msg K cv = Ok ps ->
  length ring <> 0%nat /\
  exists raw c0 cpi,
    signature w cv ring (inr K) msg = Ok raw /\
    at_index (raw_cees raw) 0 = Ok c0 /\
    at_index (raw_cees raw) (raw_pi raw) = Ok cpi /\
    ps = mkPartialSignature msg (raw_ring raw) c0 cpi (raw_responses raw)
           (Integer (Z.of_nat (raw_pi raw))) (raw_alpha raw) cv.
Proof.
  unfold partialSign. destruct (Nat.eqb_spec (length ring) 0); [discriminate |].
  intros H. split; [assumption |].
  apply bind_Ok in H as (raw & Eraw & H).
  apply bind_Ok in H as (c0 & Ec0 & H).
  apply bind_Ok in H as (cpi & Ecpi & H).
  injection H as <-. exists raw, c0, cpi. auto.
Qed.

(** X15. Signing in two steps is signing in one.  If [partialSign] is given
    the public key [derivePubKey] returns for the private key, and the
    response of [piSignature] for the partial signature's [alpha] and [cpi]
    is handed to [combine], the result is the signature [sign] returns for
    the same draws. *)
Theorem partialSign_combine_sign w ring key msg cv K ps r :
  String.eqb (curve_name cv) ED25519 = false ->
  derivePubKey w key cv = Ok K ->
  partialSign w ring msg K cv = Ok ps ->
  piSignature (ps_alpha ps) (ps_cpi ps) key cv = Ok r ->
  combine ps r = sign w ring key msg cv.
Proof.
  intros Hcv HK Hps Hr.
  apply partialSign_inv in Hps as (Hne & raw & c0 & cpi & Eraw & Ec0 & Ecpi & ->).
  cbn [ps_alpha ps_cpi] in Hr.
  unfold sign. rewrite Hcv.
  destruct (Nat.eqb_spec (length ring) 0); [contradiction |].
  rewrite signature_inl, HK. cbn [mbind result_bind].
  rewrite Eraw. cbn [mbind result_bind].
  rewrite Ecpi. cbn [mbind result_bind].
  rewrite Hr. cbn [mbind result_bind].
  rewrite Ec0. cbn [mbind result_bind].
  unfold combine. cbn [ps_message ps_ring ps_c ps_responses ps_pi ps_curve].
  rewrite slice_splice. reflexivity.
Qed.

(** ** Where the signer's key goes *)

Lemma last_splice {A} (a : list A) (i : nat) (v : A) :
  (i < length a)%nat -> last (splice a i i v) = last a.
Proof.
  intros Hi. unfold splice.
  rewrite <- (take_drop i a) at 3. rewrite !last_app. cbn [app].
  destruct (drop i a) as [| x rest] eqn:E.
  - apply (f_equal length) in E. rewrite length_drop in E. cbn in E. lia.
  - rewrite last_cons. destruct (last rest); reflexivity.
Qed.

Lemma delete_splice {A} (a : list A) (i : nat) (v : A) :
  (i <= length a)%nat -> delete i (splice a i i v) = a.
Proof.
  intros Hi. unfold splice. cbn [app].
  rewrite <- (length_take_le a i) at 1 by exact Hi.
  rewrite delete_middle. apply take_drop.
Qed.

Lemma sign_inv w ring key msg cv sig :
  String.eqb (curve_name cv) ED25519 = false ->
  length ring <> 0%nat ->
  sign w ring key msg cv = Ok sig ->
  exists raw cpi sr c0,
    signature w cv ring (inl key) msg = Ok raw /\
    at_index (raw_cees raw) (raw_pi raw) = Ok cpi /\
    piSignature (raw_alpha raw) cpi key cv = Ok sr /\
    at_index (raw_cees raw) 0 = Ok c0 /\
    sig = mkRingSignature msg (raw_ring raw) c0
            (splice (raw_responses raw) (raw_pi raw) (raw_pi raw + 1) sr) cv.
Proof.
  intros Hcv Hne H. unfold sign in H. rewrite Hcv in H.
  destruct (Nat.eqb_spec (length ring) 0); [contradiction |].
  apply bind_Ok in H as (raw & Eraw & H).
  apply bind_Ok in H as (cpi & Ecpi & H).
  apply bind_Ok in H as (sr & Esr & H).
  apply bind_Ok in H as (c0 & Ec0 & H).
  apply RingSignature_new_Ok in H. exists raw, cpi, sr, c0. auto.
Qed.

(** X16. The ring of a signature.  [sign] inserts the signer's public key
    into the ring at the drawn index [pi] and leaves the other keys in their
    order; as [pi] is drawn from [[0, ring.length - 1]], the last key of the
    signature's ring is the last key of the ring given, never the signer's.
    The responses are the values drawn, but for the one at [pi]. *)
Theorem sign_ring_layout w ring key msg cv sig :
  String.eqb (curve_name cv) ED25519 = false ->
  (securedNumber_draw w < length ring)%nat ->
  sign w ring key msg cv = Ok sig ->
  let pi := securedNumber_draw w in
  sig_message sig = msg /\ sig_curve sig = cv
  /\ (exists K, val K = smul key (GtoPoint cv)
                /\ sig_ring sig = take pi ring ++ K :: drop pi ring)
  /\ delete pi (sig_ring sig) = ring
  /\ last (sig_ring sig) = last ring
  /\ length (sig_responses sig) = S (length ring)
  /\ (forall i, i <> pi -> (i <= length ring)%nat ->
        sig_responses sig !! i = Some (randomBigint_draw w (S i))).
Proof.
  intros Hcv Hpi H pi.
  apply sign_inv in H as (raw & cpi & sr & c0 & Eraw & _ & _ & _ & ->);
    [| exact Hcv | lia].
  destruct (signature_inv _ _ _ _ _ _ Eraw Hpi)
    as (Ks & _ & _ & _ & HK & Hring & Hrpi & _ & Hresp & _).
  cbn [sig_message sig_curve sig_ring sig_responses].
  split; [reflexivity |]. split; [reflexivity |].
  rewrite Hring, Hrpi, Hresp. fold pi.
  split; [| split; [| split; [| split]]].
  - exists Ks. split; [| reflexivity].
    apply Point_mult_Ok in HK as [_ HK]. exact HK.
  - apply delete_splice. lia.
  - apply last_splice. exact Hpi.
  - rewrite splice_insert by (rewrite length_fmap, length_seq; lia).
    rewrite length_insert, length_fmap, length_seq. reflexivity.
  - intros i Hi Hle.
    rewrite splice_insert by (rewrite length_fmap, length_seq; lia).
    rewrite list_lookup_insert_ne by congruence.
    rewrite list_lookup_fmap, lookup_seq_lt by lia. reflexivity.
Qed.

(** ** The duplicate check of [signature], for its callers *)

(** X17. [signature] and [partialSign] raise "Ring contains duplicates"
    exactly when the ring, with the signer's key inserted at the drawn
    index, holds one object twice: the objects' identities are compared, not
    their coordinates. *)
Theorem duplicates_by_identity w cv ring K msg :
  let ring' := splice ring (securedNumber_draw w) (securedNumber_draw w) K in
  (signature w cv ring (inr K) msg = Throw DuplicateRingMember
   <-> ~ NoDup (addr <$> ring'))
  /\ (partialSign w ring msg K cv = Throw DuplicateRingMember
      <-> length ring <> 0%nat /\ ~ NoDup (addr <$> ring')).
Proof.
  intros ring'.
  pose proof (signature_public_key_duplicates w cv ring K msg) as Hsig.
  fold ring' in Hsig. split; [exact Hsig |].
  unfold partialSign. destruct (Nat.eqb_spec (length ring) 0) as [H0 | H0].
  - split; [discriminate | intros [H _]; contradiction].
  - destruct (signature w cv ring (inr K) msg) as [raw | e];
      cbn [mbind result_bind].
    + split.
      * intros H. exfalso. unfold at_index in H.
        destruct (raw_cees raw !! 0%nat); cbn [mbind result_bind] in H; [| discriminate H].
        destruct (raw_cees raw !! raw_pi raw); cbn [mbind result_bind] in H; discriminate H.
      * intros [_ H]. apply Hsig in H. discriminate H.
    + split.
      * intros [= ->]. split; [exact H0 | apply Hsig; reflexivity].
      * intros [_ H]. apply Hsig in H. injection H as ->. reflexivity.
Qed.

(** ** The constructor *)

Lemma verify_no_mismatch (this : RingSignature) :
  length (sig_ring this) = length (sig_responses this) ->
  verify this <> Throw RingResponseLengthMismatch.
Proof.
  intros Hlen. destruct (Nat.eq_dec (length (sig_ring this)) 0%nat) as [H0 | H0].
  - unfold verify. rewrite H0. discriminate.
  - destruct (verify_cases this H0 Hlen) as [[b ->] | (e & -> & Hce)]; [discriminate |].
    intros [= ->]. destruct Hce as [H | [H | [H | H]]]; discriminate H.
Qed.

(** X18. The constructor refuses a ring and responses of different lengths
    and nothing else, unless [safeMode] is set, when it also refuses a ring
    with a point whose curve has another name.  A signature it returns holds
    the arguments as given, and [verify] cannot raise its length error on
    it. *)
Theorem constructor_checks message ring c responses cv safeMode :
  (RingSignature_new message ring c responses cv safeMode = Throw RingResponseLengthMismatch
   <-> length ring <> length responses)
  /\ (RingSignature_new message ring c responses cv safeMode = Throw CurveMismatch
      <-> length ring = length responses /\ safeMode = true
          /\ exists K, K ∈ ring /\ curve_name (point_curve (val K)) <> curve_name cv)
  /\ (forall sig, RingSignature_new message ring c responses cv safeMode = Ok sig ->
        sig = mkRingSignature message ring c responses cv
        /\ length (sig_ring sig) = length (sig_responses sig)
        /\ verify sig <> Throw RingResponseLengthMismatch).
Proof.
  unfold RingSignature_new.
  set (bad := existsb (fun i => negb (String.eqb (curve_name (point_curve (val i)))
                                                  (curve_name cv))) ring).
  assert (Hbad : bad = true
                 <-> exists K, K ∈ ring /\ curve_name (point_curve (val K)) <> curve_name cv).
  { unfold bad. rewrite existsb_exists. split; intros (K & HK & Hn); exists K.
    - split; [apply list_elem_of_In; exact HK |].
      apply negb_true_iff, String.eqb_neq in Hn. exact Hn.
    - split; [apply list_elem_of_In; exact HK |].
      apply negb_true_iff, String.eqb_neq. exact Hn. }
  assert (Hret : forall sig : RingSignature,
            length ring = length responses ->
            Ok (mkRingSignature message ring c responses cv) = Ok sig ->
            sig = mkRingSignature message ring c responses cv
            /\ length (sig_ring sig) = length (sig_responses sig)
            /\ verify sig <> Throw RingResponseLengthMismatch).
  { intros sig Hlen [= <-]. split; [reflexivity |]. split; [exact Hlen |].
    apply verify_no_mismatch. exact Hlen. }
  destruct (Nat.eqb_spec (length ring) (length responses)) as [Hlen | Hlen]; cbn [negb].
  - split; [split; [destruct (safeMode && bad); discriminate | contradiction] |].
    destruct safeMode; cbn [andb].
    + destruct bad.
      * split; [| discriminate]. split; [| reflexivity].
        intros _. split; [exact Hlen |]. split; [reflexivity |]. apply Hbad. reflexivity.
      * split; [| intros sig; apply Hret; exact Hlen].
        split; [discriminate |]. intros (_ & _ & H). apply Hbad in H. discriminate H.
    + split; [| intros sig; apply Hret; exact Hlen].
      split; [discriminate |]. intros (_ & H & _). discriminate H.
  - split; [split; [intros _; exact Hlen | reflexivity] |].
    split; [| discriminate]. split; [discriminate | intros [H _]; contradiction].
Qed.

(** ** What [verify] reads of the ring *)

Lemma ring_toString_val (ring ring' : list PointObj) :
  val <$> ring = val <$> ring' -> ring_toString ring = ring_toString ring'.
Proof.
  intros E. unfold ring_toString. f_equal.
  change (fun K => Point_toString (val K)) with (Point_toString ∘ val).
  rewrite !list_fmap_compose, E. reflexivity.
Qed.

Lemma at_index_val {B} (ring ring' : list PointObj) (i : nat) (f : Point -> result B) :
  val <$> ring = val <$> ring' ->
  (at_index ring i ≫= fun K => f (val K)) = (at_index ring' i ≫= fun K => f (val K)).
Proof.
  intros E. apply (f_equal (fun l => l !! i)) in E. rewrite !list_lookup_fmap in E.
  unfold at_index. destruct (ring !! i), (ring' !! i); cbn in E |- *; congruence.
Qed.

Lemma computeC_val ring ring' md G N r c K :
  val <$> ring = val <$> ring' ->
  computeC ring md G N r c K = computeC ring' md G N r c K.
Proof. intros E. unfold computeC. rewrite (ring_toString_val _ _ E). reflexivity. Qed.

Lemma chain_step_val ring ring' md G N resp j c :
  val <$> ring = val <$> ring' ->
  chain_step ring md G N resp j c = chain_step ring' md G N resp j c.
Proof.
  intros E. unfold chain_step. destruct (at_index resp j); [| reflexivity].
  cbn [mbind result_bind].
  rewrite (at_index_val ring ring' j (fun v => computeC ring md G N a c v) E).
  destruct (at_index ring' j); [| reflexivity]. cbn [mbind result_bind].
  apply computeC_val, E.
Qed.

Lemma chain_run_ext (step step' : nat -> Z -> result Z) (slots : list nat) :
  (forall j c, step j c = step' j c) ->
  forall c, chain_run step slots c = chain_run step' slots c.
Proof.
  intros E. induction slots as [| j slots IH]; intros c; [reflexivity |].
  cbn [chain_run]. rewrite E. destruct (step' j c); [apply IH | reflexivity].
Qed.

Lemma verify_val (this that : RingSignature) :
  sig_message this = sig_message that ->
  sig_c this = sig_c that ->
  sig_responses this = sig_responses that ->
  sig_curve this = sig_curve that ->
  val <$> sig_ring this = val <$> sig_ring that ->
  verify this = verify that.
Proof.
  intros Hm Hc Hr Hcv Hring.
  assert (Hlen : length (sig_ring this) = length (sig_ring that)).
  { rewrite <- (length_fmap val (sig_ring this)), Hring. apply length_fmap. }
  destruct (decide (1 < length (sig_ring this))%nat) as [Hbig | Hsmall].
  - destruct (decide (length (sig_ring this) = length (sig_responses this))) as [Heq | Hne].
    + rewrite (verify_chain_run this Hbig Heq).
      rewrite (verify_chain_run that) by congruence.
      rewrite <- Hm, <- Hc, <- Hr, <- Hcv, <- Hlen.
      rewrite (chain_run_ext _ _ _
                 (fun j c => chain_step_val (sig_ring this) (sig_ring that) _ _ _ _ j c Hring)).
      reflexivity.
    + unfold verify. rewrite <- Hlen, <- Hr.
      destruct (length (sig_ring this) =? 0)%nat; [reflexivity |].
      destruct (Nat.eqb_spec (length (sig_ring this)) (length (sig_responses this)));
        [contradiction | reflexivity].
  - unfold verify. rewrite <- Hlen, <- Hr, <- Hc, <- Hcv.
    destruct (length (sig_ring this) =? 0)%nat; [reflexivity |].
    destruct (negb (length (sig_ring this) =? length (sig_responses this))%nat);
      [reflexivity |].
    destruct (Nat.ltb_spec 1 (length (sig_ring this))); [lia |].
    apply (at_index_val (sig_ring this) (sig_ring that) 0
             (fun v => at_index (sig_responses this) 0 ≫= fun r0 =>
                       modulo (2 * sig_c this + 1) (curve_N (sig_curve this)) ≫= fun alpha =>
                       verifyPiSignature_call (PointValue v) (Bigint r0) (Bigint alpha)
                         (Bigint (sig_c this)) (sig_curve this))).
    exact Hring.
Qed.

(** X19. [verify] reads the coordinates of the ring's points and nothing
    else of them: two signatures that differ only in which objects hold the
    points get the same answer.  In particular [verify] does not repeat the
    duplicate check of [signature]. *)
Theorem verify_reads_coordinates (this : RingSignature) (ring' : list PointObj) :
  val <$> ring' = val <$> sig_ring this ->
  verify (mkRingSignature (sig_message this) ring' (sig_c this) (sig_responses this)
            (sig_curve this))
  = verify this.
Proof. intros E. apply verify_val; auto. Qed.


(** ** A partial signature, completed *)

Variable curve : Curve.
Hypothesis smul_curve : forall k, point_curve (smul k (GtoPoint curve)) = curve.
Hypothesis smul_add : forall a b,
  padd (smul a (GtoPoint curve)) (smul b (GtoPoint curve)) = smul (a + b) (GtoPoint curve).
Hypothesis smul_mul : forall a b,
  smul a (smul b (GtoPoint curve)) = smul (a * b) (GtoPoint curve).
Hypothesis smul_order : forall a,
  smul (a mod curve_N curve) (GtoPoint curve) = smul a (GtoPoint curve).

(** X20. A partial signature made for the public key of a private key,
    completed by [combine] with the response [piSignature] computes from its
    [alpha] and [cpi], is accepted by [verify]; but when the challenge [cpi]
    or the response is [0], [verify] raises "invalid scalar". *)
Theorem partialSign_combine_verifies w ring key msg K ps r :
  (securedNumber_draw w < length ring)%nat ->
  derivePubKey w key curve = Ok K ->
  partialSign w ring msg K curve = Ok ps ->
  piSignature (ps_alpha ps) (ps_cpi ps) key curve = Ok r ->
  exists sig,
    combine ps r = Ok sig
    /\ verify sig
       = if (ps_cpi ps =? 0) || (r =? 0) then Throw InvalidScalar else Ok true.
Proof.
  intros Hpi HK Hps Hr.
  apply partialSign_inv in Hps as (Hne & raw & c0 & cpi & Eraw & Ec0 & Ecpi & ->).
  cbn [ps_alpha ps_cpi] in Hr |- *.
  assert (Eraw' : signature w curve ring (inl key) msg = Ok raw)
    by (rewrite signature_inl, HK; exact Eraw).
  destruct (signature_inv _ _ _ _ _ _ Eraw Hpi)
    as (Ks & _ & _ & _ & _ & Hring & Hrpi & _ & Hresp & _).
  eexists. split.
  - unfold combine, RingSignature_new.
    cbn [ps_message ps_ring ps_c ps_responses ps_pi ps_curve].
    rewrite slice_splice.
    rewrite Hring, Hrpi, Hresp, splice_length.
    rewrite splice_insert by (rewrite length_fmap, length_seq; lia).
    rewrite length_insert, length_fmap, length_seq, Nat.eqb_refl. reflexivity.
  - rewrite <- (signed_ring_verifies curve smul_curve smul_add smul_mul smul_order
                  w ring key msg raw cpi r c0 Eraw' Hpi Ecpi Hr Ec0).
    rewrite Hring, Hrpi, Hresp.
    rewrite splice_insert by (rewrite length_fmap, length_seq; lia).
    reflexivity.
Qed.

End RingProtocolFurther.

Section SignFailures.

Context {lib : Library}.

(** ** How [sign] can fail *)

Lemma computeC_hex ring md G N r c K :
  digest_is_hex -> 0 < N ->
  (exists c', computeC ring md G N r c K = Ok c')
  \/ computeC ring md G N r c K = Throw InvalidScalar.
Proof.
  intros Hhex HN.
  destruct (computeC_cases ring md G N r c K) as [Hok | (e & He & _ & Hinv)];
    [left; exact Hok |].
  right. rewrite He, (Hinv Hhex HN). reflexivity.
Qed.

Lemma cValuesPI1N_loop_total ring md G N resp pi steps : forall i cV,
  digest_is_hex -> 0 < N ->
  i = (pi + 1 + length cV)%nat -> (1 <= length cV)%nat ->
  (i + steps <= S (length resp))%nat -> (i + steps <= S (length ring))%nat ->
  (exists L, cValuesPI1N_loop ring md G N resp pi steps i cV = Ok L)
  \/ cValuesPI1N_loop ring md G N resp pi steps i cV = Throw InvalidScalar.
Proof.
  induction steps as [| steps IH]; intros i cV Hhex HN Hi HcV Hresp Hring;
    [left; eexists; reflexivity |].
  cbn [cValuesPI1N_loop]. unfold at_index.
  destruct (lookup_lt_is_Some_2 resp (i - 1)%nat ltac:(lia)) as [r ->].
  destruct (lookup_lt_is_Some_2 cV (i - pi - 2)%nat ltac:(lia)) as [c ->].
  destruct (lookup_lt_is_Some_2 ring (i - 1)%nat ltac:(lia)) as [K ->].
  cbn [mbind result_bind].
  destruct (computeC_hex ring md G N r c (val K) Hhex HN) as [[cnew ->] | ->];
    [| right; reflexivity].
  cbn [mbind result_bind].
  apply IH; try assumption; rewrite ?length_app; cbn [length]; lia.
Qed.

Lemma cValues0PI_loop_total ring md G N resp steps : forall i cV,
  digest_is_hex -> 0 < N ->
  i = length cV -> (1 <= length cV)%nat ->
  (i + steps <= S (length resp))%nat -> (i + steps <= S (length ring))%nat ->
  (exists M, cValues0PI_loop ring md G N resp steps i cV = Ok M)
  \/ cValues0PI_loop ring md G N resp steps i cV = Throw InvalidScalar.
Proof.
  induction steps as [| steps IH]; intros i cV Hhex HN Hi HcV Hresp Hring;
    [left; eexists; reflexivity |].
  cbn [cValues0PI_loop]. unfold at_index.
  destruct (lookup_lt_is_Some_2 resp (i - 1)%nat ltac:(lia)) as [r ->].
  destruct (lookup_lt_is_Some_2 cV (i - 1)%nat ltac:(lia)) as [c ->].
  destruct (lookup_lt_is_Some_2 ring (i - 1)%nat ltac:(lia)) as [K ->].
  cbn [mbind result_bind].
  destruct (computeC_hex ring md G N r c (val K) Hhex HN) as [[cnew ->] | ->];
    [| right; reflexivity].
  cbn [mbind result_bind]. subst i. rewrite array_set_push. cbn [mbind result_bind].
  apply IH; try assumption; rewrite ?length_app; cbn [length]; lia.
Qed.

Lemma signature_failures w cv ring K msg :
  digest_is_hex -> 0 < curve_N cv ->
  (forall k, 0 < randomBigint_draw w k < curve_N cv) ->
  (securedNumber_draw w < length ring)%nat ->
  (exists raw, signature w cv ring (inr K) msg = Ok raw)
  \/ signature w cv ring (inr K) msg = Throw DuplicateRingMember
  \/ signature w cv ring (inr K) msg = Throw InvalidScalar.
Proof.
  intros Hhex HN Hdraw Hpi. unfold signature. cbn [mbind result_bind].
  set (pi := securedNumber_draw w) in *.
  set (ring' := splice ring pi pi K).
  assert (Hlen : length ring' = S (length ring)) by apply splice_length.
  destruct (negb (Set_size ring' =? length ring')%nat); [right; left; reflexivity |].
  set (resp := (fun i => randomBigint_draw w (S i)) <$> seq 0 (length ring')).
  assert (Hresp : length resp = S (length ring)).
  { unfold resp. rewrite length_fmap, length_seq. exact Hlen. }
  assert (HaG : Point_mult (GtoPoint cv) (randomBigint_draw w 0)
                = Ok (smul (randomBigint_draw w 0) (GtoPoint cv))).
  { apply Point_mult_Ok. split; [apply Hdraw | reflexivity]. }
  rewrite HaG. cbn [mbind result_bind].
  destruct (Hhex (ring_toString ring' +:+ keccak256 msg
                  +:+ Point_toString (smul (randomBigint_draw w 0) (GtoPoint cv))))
    as [h ->].
  cbn [mbind result_bind].
  assert (Hmod : modulo h (curve_N cv) = Ok (h mod curve_N cv))
    by (unfold modulo; apply mod_ok; exact HN).
  rewrite Hmod. cbn [mbind result_bind].
  destruct (cValuesPI1N_loop_total ring' (keccak256 msg) (GtoPoint cv) (curve_N cv) resp pi
              (length ring' - (pi + 2)) (pi + 2) [h mod curve_N cv] Hhex HN)
    as [[L EL] | ->]; [cbn [length]; lia .. | | right; right; reflexivity].
  rewrite EL. cbn [mbind result_bind].
  apply cValuesPI1N_loop_spec in EL; [| cbn; lia | cbn; lia].
  destruct EL as (extL & -> & HextL & _).
  unfold at_index.
  destruct (lookup_lt_is_Some_2 resp (length resp - 1)%nat ltac:(lia)) as [rl ->].
  set (L := [h mod curve_N cv] ++ extL).
  assert (HL : (1 <= length L)%nat) by (unfold L; rewrite length_app; cbn [length]; lia).
  destruct (lookup_lt_is_Some_2 L (length L - 1)%nat ltac:(lia)) as [cl ->].
  destruct (lookup_lt_is_Some_2 ring' (length ring' - 1)%nat ltac:(lia)) as [Kl ->].
  cbn [mbind result_bind].
  destruct (computeC_hex ring' (keccak256 msg) (GtoPoint cv) (curve_N cv) rl cl (val Kl)
              Hhex HN) as [[c0 ->] | ->]; [| right; right; reflexivity].
  cbn [mbind result_bind].
  destruct (cValues0PI_loop_total ring' (keccak256 msg) (GtoPoint cv) (curve_N cv) resp
              pi 1 [c0] Hhex HN)
    as [[M ->] | ->]; [cbn [length]; lia .. | | right; right; reflexivity].
  left. eexists. reflexivity.
Qed.

(** X21. How [sign] can fail.  With a key and draws in their ranges, a
    digest of hexadecimal digits and a curve other than ed25519, [sign]
    returns a signature or raises one of two errors: "Ring contains
    duplicates", or the "invalid scalar" of a scalar multiplication. *)
Theorem sign_failures w ring key msg cv :
  String.eqb (curve_name cv) ED25519 = false ->
  digest_is_hex ->
  0 < key < curve_N cv ->
  draws_in_range w ring cv ->
  (exists sig, sign w ring key msg cv = Ok sig)
  \/ sign w ring key msg cv = Throw DuplicateRingMember
  \/ sign w ring key msg cv = Throw InvalidScalar.
Proof.
  intros Hcv Hhex Hkey [Hdraw Hpi].
  assert (HN : 0 < curve_N cv) by lia.
  assert (HK : Point_mult (GtoPoint cv) key = Ok (smul key (GtoPoint cv)))
    by (apply Point_mult_Ok; split; [exact Hkey | reflexivity]).
  assert (Hsr : forall alpha c, exists sr, piSignature alpha c key cv = Ok sr).
  { intros alpha c. unfold piSignature.
    destruct (Z.eqb_spec key 0); [lia |]. destruct (Z.leb_spec (curve_N cv) key); [lia |].
    cbn [orb]. unfold modulo. rewrite mod_ok by exact HN. eexists. reflexivity. }
  unfold sign. rewrite Hcv.
  destruct (Nat.eqb_spec (length ring) 0) as [Hempty | Hne].
  - left.
    assert (Hmod : modulo (2 * randomBigint_draw w 0 + 1) (curve_N cv)
                   = Ok ((2 * randomBigint_draw w 0 + 1) mod curve_N cv))
      by (unfold modulo; apply mod_ok; exact HN).
    rewrite Hmod. cbn [mbind result_bind].
    destruct (Hsr ((2 * randomBigint_draw w 0 + 1) mod curve_N cv) (randomBigint_draw w 0))
      as [sr ->].
    cbn [mbind result_bind]. rewrite HK. cbn [mbind result_bind].
    eexists. reflexivity.
  - assert (Hpi' : (securedNumber_draw w < length ring)%nat) by lia.
    rewrite signature_inl. unfold derivePubKey. rewrite HK. cbn [mbind result_bind].
    destruct (signature_failures w cv ring (mkObj (fresh_addr w) (smul key (GtoPoint cv)))
                msg Hhex HN Hdraw Hpi')
      as [[raw Eraw] | [-> | ->]]; [| right; left; reflexivity | right; right; reflexivity].
    rewrite Eraw. cbn [mbind result_bind]. left.
    destruct (signature_inv _ _ _ _ _ _ Eraw Hpi')
      as (Ks & _ & _ & _ & _ & Hring & Hrpi & _ & Hresp & Hcees & _).
    unfold at_index.
    destruct (lookup_lt_is_Some_2 (raw_cees raw) (raw_pi raw) ltac:(lia)) as [cpi ->].
    cbn [mbind result_bind].
    destruct (Hsr (raw_alpha raw) cpi) as [sr ->]. cbn [mbind result_bind].
    destruct (lookup_lt_is_Some_2 (raw_cees raw) 0%nat ltac:(lia)) as [c0 ->].
    cbn [mbind result_bind]. unfold RingSignature_new.
    rewrite Hring, Hrpi, Hresp, splice_length.
    rewrite splice_insert by (rewrite length_fmap, length_seq; lia).
    rewrite length_insert, length_fmap, length_seq, Nat.eqb_refl. cbn [negb andb].
    eexists. reflexivity.
Qed.

End SignFailures.

(** ** The further properties at concrete inputs *)

Lemma partialSign_combine_sign_witness :
  String.eqb (curve_name Zn_curve) ED25519 = false
  /\ exists K ps r,
       derivePubKey (lib := Zn_library) Zn_world 7 Zn_curve = Ok K
       /\ partialSign (lib := Zn_library) Zn_world Zn_ring "hello" K Zn_curve = Ok ps
       /\ piSignature (ps_alpha ps) (ps_cpi ps) 7 Zn_curve = Ok r
       /\ combine ps r = sign (lib := Zn_library) Zn_world Zn_ring 7 "hello" Zn_curve.
Proof.
  assert (Hcv : String.eqb (curve_name Zn_curve) ED25519 = false) by reflexivity.
  split; [exact Hcv |].
  eexists _, _, _.
  split; [vm_compute; reflexivity |].
  split; [vm_compute; reflexivity |].
  split; [vm_compute; reflexivity |].
  eapply (partialSign_combine_sign (lib := Zn_library) Zn_world Zn_ring 7 "hello" Zn_curve);
    [exact Hcv | vm_compute; reflexivity ..].
Defined.

Lemma sign_ring_layout_witness :
  String.eqb (curve_name Zn_curve) ED25519 = false
  /\ (securedNumber_draw Zn_world < length Zn_ring)%nat
  /\ exists sig,
       sign (lib := Zn_library) Zn_world Zn_ring 7 "hello" Zn_curve = Ok sig
       /\ delete 1%nat (sig_ring sig) = Zn_ring
       /\ last (sig_ring sig) = last Zn_ring
       /\ length (sig_responses sig) = 4%nat.
Proof.
  assert (Hcv : String.eqb (curve_name Zn_curve) ED25519 = false) by reflexivity.
  assert (Hpi : (securedNumber_draw Zn_world < length Zn_ring)%nat) by (cbn; lia).
  split; [exact Hcv |]. split; [exact Hpi |].
  eexists. split; [vm_compute; reflexivity |].
  destruct (sign_ring_layout (lib := Zn_library) Zn_world Zn_ring 7 "hello" Zn_curve _
              Hcv Hpi ltac:(vm_compute; reflexivity))
    as (_ & _ & _ & Hdel & Hlast & Hlen & _).
  split; [exact Hdel |]. split; [exact Hlast | exact Hlen].
Defined.

Lemma duplicates_by_identity_witness :
  let w := mkWorld (fun _ => 1) 0 2 in
  let K := mkObj 0 (secp_smul 5 (GtoPoint secp256k1)) in
  length twin_ring <> 0%nat
  /\ ~ NoDup (addr <$> splice twin_ring (securedNumber_draw w) (securedNumber_draw w) K)
  /\ partialSign (lib := secp_run) w twin_ring "m" K secp256k1 = Throw DuplicateRingMember.
Proof.
  cbv zeta.
  assert (Hne : length twin_ring <> 0%nat) by discriminate.
  assert (Hdup : ~ NoDup (addr <$> splice twin_ring 0 0
                            (mkObj 0 (secp_smul 5 (GtoPoint secp256k1))))).
  { intros H. apply NoDup_cons in H as [H _]. apply H. cbn. repeat constructor. }
  split; [exact Hne |]. split; [exact Hdup |].
  apply (duplicates_by_identity (lib := secp_run)). split; [exact Hne | exact Hdup].
Defined.

Lemma constructor_checks_witness :
  length (sig_ring Zn_tampered) = length (sig_responses Zn_tampered)
  /\ RingSignature_new "hello" (sig_ring Zn_tampered) 75 (sig_responses Zn_tampered)
       Zn_curve true = Ok Zn_tampered
  /\ verify (lib := Zn_library) Zn_tampered <> Throw RingResponseLengthMismatch
  /\ RingSignature_new "hello" (sig_ring Zn_tampered) 75 [1] Zn_curve true
     = Throw RingResponseLengthMismatch.
Proof.
  assert (Hlen : length (sig_ring Zn_tampered) = length (sig_responses Zn_tampered))
    by reflexivity.
  assert (Hnew : RingSignature_new "hello" (sig_ring Zn_tampered) 75
                   (sig_responses Zn_tampered) Zn_curve true = Ok Zn_tampered)
    by reflexivity.
  destruct (constructor_checks (lib := Zn_library) "hello" (sig_ring Zn_tampered) 75
              (sig_responses Zn_tampered) Zn_curve true) as (_ & _ & Hok).
  destruct (constructor_checks (lib := Zn_library) "hello" (sig_ring Zn_tampered) 75
              [1] Zn_curve true) as (Hmis & _ & _).
  destruct (Hok Zn_tampered Hnew) as (_ & _ & Hv).
  split; [exact Hlen |]. split; [exact Hnew |]. split; [exact Hv |].
  apply Hmis. discriminate.
Defined.

Lemma verify_reads_coordinates_witness :
  let ring' := [mkObj 5 (mkPt Zn_curve 17 0); mkObj 5 (mkPt Zn_curve 7 0);
                mkObj 5 (mkPt Zn_curve 42 0); mkObj 5 (mkPt Zn_curve 5 0)] in
  val <$> ring' = val <$> sig_ring Zn_tampered
  /\ verify (lib := Zn_library)
       (mkRingSignature (sig_message Zn_tampered) ring' (sig_c Zn_tampered)
          (sig_responses Zn_tampered) (sig_curve Zn_tampered))
     = verify (lib := Zn_library) Zn_tampered.
Proof.
  cbv zeta.
  assert (Hval : val <$> [mkObj 5 (mkPt Zn_curve 17 0); mkObj 5 (mkPt Zn_curve 7 0);
                          mkObj 5 (mkPt Zn_curve 42 0); mkObj 5 (mkPt Zn_curve 5 0)]
                 = val <$> sig_ring Zn_tampered) by reflexivity.
  split; [exact Hval |].
  exact (verify_reads_coordinates (lib := Zn_library) Zn_tampered _ Hval).
Defined.

Lemma partialSign_combine_verifies_witness :
  (securedNumber_draw Zn_world < length Zn_ring)%nat
  /\ exists K ps r sig,
       derivePubKey (lib := Zn_library) Zn_world 7 Zn_curve = Ok K
       /\ partialSign (lib := Zn_library) Zn_world Zn_ring "hello" K Zn_curve = Ok ps
       /\ piSignature (ps_alpha ps) (ps_cpi ps) 7 Zn_curve = Ok r
       /\ combine ps r = Ok sig
       /\ verify (lib := Zn_library) sig = Ok true.
Proof.
  assert (Hpi : (securedNumber_draw Zn_world < length Zn_ring)%nat) by (cbn; lia).
  split; [exact Hpi |].
  assert (HK : derivePubKey (lib := Zn_library) Zn_world 7 Zn_curve
               = Ok (mkObj 99 (mkPt Zn_curve 7 0))) by reflexivity.
  exists (mkObj 99 (mkPt Zn_curve 7 0)).
  destruct (partialSign (lib := Zn_library) Zn_world Zn_ring "hello"
              (mkObj 99 (mkPt Zn_curve 7 0)) Zn_curve) as [ps | e] eqn:Hps;
    [| vm_compute in Hps; discriminate Hps].
  exists ps.
  destruct (piSignature (ps_alpha ps) (ps_cpi ps) 7 Zn_curve) as [r | e] eqn:Hr;
    [| vm_compute in Hps; injection Hps as <-; vm_compute in Hr; discriminate Hr].
  exists r.
  destruct (partialSign_combine_verifies (lib := Zn_library) Zn_curve
              Zn_smul_curve Zn_smul_add Zn_smul_mul Zn_smul_order
              Zn_world Zn_ring 7 "hello" _ ps r Hpi HK Hps Hr)
    as (sig & Hsig & Hv).
  exists sig.
  split; [exact HK |]. split; [reflexivity |]. split; [reflexivity |].
  split; [exact Hsig |]. rewrite Hv.
  vm_compute in Hps. injection Hps as <-. vm_compute in Hr. injection Hr as <-.
  reflexivity.
Defined.

Lemma sign_failures_witness :
  String.eqb (curve_name Zn_curve) ED25519 = false
  /\ digest_is_hex (lib := Zn_library)
  /\ 0 < 7 < curve_N Zn_curve
  /\ draws_in_range Zn_world Zn_ring Zn_curve
  /\ exists sig, sign (lib := Zn_library) Zn_world Zn_ring 7 "hello" Zn_curve = Ok sig.
Proof.
  assert (Hcv : String.eqb (curve_name Zn_curve) ED25519 = false) by reflexivity.
  assert (Hkey : 0 < 7 < curve_N Zn_curve) by (split; reflexivity).
  split; [exact Hcv |]. split; [exact checksum_digest_hex |]. split; [exact Hkey |].
  split; [exact Zn_draws_in_range |].
  destruct (sign_failures (lib := Zn_library) Zn_world Zn_ring 7 "hello" Zn_curve
              Hcv checksum_digest_hex Hkey Zn_draws_in_range) as [Hok | [H | H]].
  - exact Hok.
  - vm_compute in H. discriminate H.
  - vm_compute in H. discriminate H.
Defined.

Section SignatureScalars.

Context {lib : Library}.

(** ** The scalars of a signature *)

(** X24. The scalars of a signature returned by [sign] are residues: with
    draws in their ranges and a curve other than ed25519, the challenge [c]
    and every response of the signature lie in [[0, N-1]], and there are as
    many responses as ring members. *)
Theorem sign_scalar_ranges w ring key msg cv sig :
  String.eqb (curve_name cv) ED25519 = false ->
  draws_in_range w ring cv ->
  sign w ring key msg cv = Ok sig ->
  0 <= sig_c sig < curve_N cv
  /\ Forall (fun r => 0 <= r < curve_N cv) (sig_responses sig)
  /\ length (sig_responses sig) = length (sig_ring sig).
Proof.
  intros Hcv [Hdraw Hpi] H.
  assert (HN : 0 < curve_N cv) by (specialize (Hdraw 0%nat); lia).
  destruct (Nat.eq_dec (length ring) 0%nat) as [Hempty | Hne].
  - unfold sign in H. rewrite Hcv, Hempty in H. cbn [Nat.eqb] in H.
    apply bind_Ok in H as (alpha & _ & H).
    apply bind_Ok in H as (sr & Esr & H).
    apply bind_Ok in H as (K & _ & H).
    apply RingSignature_new_Ok in H. subst sig. cbn [sig_c sig_responses sig_ring].
    apply piSignature_Ok in Esr as (_ & _ & ->); [| exact HN].
    split; [specialize (Hdraw 0%nat); lia |].
    split; [| reflexivity].
    constructor; [apply Z.mod_pos_bound; exact HN | constructor].
  - assert (Hpi' : (securedNumber_draw w < length ring)%nat) by lia.
    apply sign_inv in H as (raw & cpi & sr & c0 & Eraw & _ & Esr & Ec0 & ->);
      [| exact Hcv | exact Hne].
    cbn [sig_c sig_responses sig_ring].
    destruct (signature_inv _ _ _ _ _ _ Eraw Hpi')
      as (Ks & _ & _ & _ & _ & Hring & Hrpi & _ & Hresp & _).
    apply piSignature_Ok in Esr as (_ & _ & ->); [| exact HN].
    split; [| split].
    + apply at_index_Ok in Ec0.
      exact (signature_cees_range cv w ring (inl key) msg raw Eraw Hpi' HN 0%nat c0 Ec0).
    + rewrite Hrpi, Hresp.
      rewrite splice_insert by (rewrite length_fmap, length_seq; lia).
      apply Forall_insert; [| apply Z.mod_pos_bound; exact HN].
      apply Forall_fmap, Forall_forall. intros i _. cbn. specialize (Hdraw (S i)). lia.
    + rewrite Hring, Hrpi, Hresp, splice_length.
      rewrite splice_insert by (rewrite length_fmap, length_seq; lia).
      rewrite length_insert, length_fmap, length_seq. reflexivity.
Qed.

End SignatureScalars.

Lemma sign_scalar_ranges_witness :
  String.eqb (curve_name Zn_curve) ED25519 = false
  /\ draws_in_range Zn_world Zn_ring Zn_curve
  /\ exists sig,
       sign (lib := Zn_library) Zn_world Zn_ring 7 "hello" Zn_curve = Ok sig
       /\ 0 <= sig_c sig < curve_N Zn_curve
       /\ Forall (fun r => 0 <= r < curve_N Zn_curve) (sig_responses sig).
Proof.
  assert (Hcv : String.eqb (curve_name Zn_curve) ED25519 = false) by reflexivity.
  split; [exact Hcv |]. split; [exact Zn_draws_in_range |].
  eexists. split; [vm_compute; reflexivity |].
  destruct (sign_scalar_ranges (lib := Zn_library) Zn_world Zn_ring 7 "hello" Zn_curve _
              Hcv Zn_draws_in_range ltac:(vm_compute; reflexivity)) as (Hc & Hr & _).
  split; [exact Hc | exact Hr].
Defined.

(** * The array version's duplicate check *)

(** X22. The pairwise check of the array version of [sign] and
    [partialSign] raises "Ring contains duplicate public keys" exactly when
    two entries of the ring have the same coordinates, and passes every
    other ring. *)
Theorem pairwise_duplicate_check (ring : list (Z * Z)) :
  (check_duplicates ring = Throw DuplicateRingMember <-> ~ NoDup ring)
  /\ (check_duplicates ring = Ok tt <-> NoDup ring).
Proof.
  split; [apply check_duplicates_spec |].
  induction ring as [| Ki rest IH].
  - split; [constructor | reflexivity].
  - cbn [check_duplicates]. destruct (duplicate_of_spec Ki rest) as [H1 H2].
    destruct (decide (Ki ∈ rest)) as [Hin | Hnin].
    + rewrite H1 by exact Hin. split; [discriminate |].
      intros Hnd. apply NoDup_cons in Hnd as [Hnd _]. contradiction.
    + rewrite H2 by exact Hnin. cbn [mbind result_bind]. rewrite IH.
      split; [intros H; apply NoDup_cons; auto | intros H; apply NoDup_cons in H; tauto].
Qed.

Example pairwise_duplicate_check_twins :
  check_duplicates (coordinates <$> twin_ring) = Throw DuplicateRingMember.
Proof. reflexivity. Qed.

(** * What [assertValidity] lets through *)

Lemma assertValidity_Ok (p q : Noble.SECP256K1Point) :
  Noble.assertValidity p = Ok q
  <-> q = p
      /\ exists x y, Noble.toAffine p = Ok (x, y)
                     /\ 0 < x < Noble.P /\ 0 < y < Noble.P
                     /\ (y * y) mod Noble.P = (x * x * x + 7) mod Noble.P.
Proof.
  assert (Hcrv : forall x, Noble.crv x = (x * x * x + 7) mod Noble.P).
  { intros x. unfold Noble.crv. residues. }
  unfold Noble.assertValidity.
  destruct (Noble.toAffine p) as [[x y] | e]; cbn [mbind result_bind].
  - unfold Noble.fe. rewrite Hcrv, modP_mod.
    destruct (Z.ltb_spec 0 x), (Z.ltb_spec x Noble.P), (Z.ltb_spec 0 y),
      (Z.ltb_spec y Noble.P); cbn [andb negb orb];
      try (split; [discriminate | intros (_ & x' & y' & [= <- <-] & ?); lia]).
    destruct (Z.eqb_spec ((y * y) mod Noble.P) ((x * x * x + 7) mod Noble.P)) as [E | E].
    + split.
      * intros [= <-]. split; [reflexivity |]. exists x, y. auto.
      * intros [-> _]. reflexivity.
    + split; [discriminate |]. intros (_ & x' & y' & [= <- <-] & _ & _ & E'). contradiction.
  - split; [discriminate |]. intros (_ & x & y & H & _). discriminate H.
Qed.

Lemma assertValidity_not_identity (p q : Noble.SECP256K1Point) :
  Noble.assertValidity p = Ok q -> Noble.equals p Noble.I = false.
Proof.
  intros H. apply assertValidity_Ok in H as (_ & x & y & Haff & Hx & _).
  destruct (Noble.equals p Noble.I) eqn:HI; [| reflexivity].
  rewrite toAffine_cases, HI in Haff. injection Haff as <- <-. lia.
Qed.

(** X23. [assertValidity] returns the point it is called on, and only when
    the point is not equal to [I] and its affine coordinates are in
    [[1, P-1]] and satisfy [y² = x³ + 7] modulo [P].  So the sum
    [mulAddQUns] returns is never the identity; for two zero scalars, where
    the sum is [I], it raises "Point invalid". *)
Theorem assertValidity_accepts (p q R : Noble.SECP256K1Point) (u1 u2 : Z) :
  (Noble.assertValidity p = Ok q
   <-> q = p
       /\ exists x y, Noble.toAffine p = Ok (x, y)
                      /\ 0 < x < Noble.P /\ 0 < y < Noble.P
                      /\ (y * y) mod Noble.P = (x * x * x + 7) mod Noble.P)
  /\ (Noble.assertValidity p = Ok q -> Noble.equals p Noble.I = false)
  /\ (mulAddQUns p R u1 u2 = Ok q ->
      exists a b, Noble.mul p u1 false = Ok a /\ Noble.mul R u2 false = Ok b
                  /\ q = Noble.add a b /\ Noble.equals q Noble.I = false)
  /\ mulAddQUns p R 0 0 = Throw PointInvalid.
Proof.
  split; [apply assertValidity_Ok |]. split; [apply assertValidity_not_identity |].
  split; [| reflexivity].
  unfold mulAddQUns. intros H.
  destruct (Noble.mul p u1 false) as [a | e]; [| discriminate H].
  destruct (Noble.mul R u2 false) as [b | e]; [| discriminate H].
  cbn [mbind result_bind] in H. exists a, b.
  split; [reflexivity |]. split; [reflexivity |].
  pose proof (assertValidity_not_identity _ _ H) as HI.
  apply assertValidity_Ok in H as [-> _]. split; [reflexivity | exact HI].
Qed.

Lemma assertValidity_accepts_witness :
  Noble.assertValidity Noble.G = Ok Noble.G
  /\ Noble.equals Noble.G Noble.I = false
  /\ (exists Q, mulAddQUns Noble.G Noble.G 1 0 = Ok Q /\ Noble.equals Q Noble.I = false)
  /\ mulAddQUns Noble.G Noble.G 0 0 = Throw PointInvalid.
Proof.
  assert (HG : Noble.assertValidity Noble.G = Ok Noble.G) by (vm_compute; reflexivity).
  destruct (mulAddQUns Noble.G Noble.G 1 0) as [Q | e] eqn:HQ;
    [| vm_compute in HQ; discriminate HQ].
  destruct (assertValidity_accepts Noble.G Noble.G Noble.G 1 0) as (_ & Hnot & _ & Hzero).
  destruct (assertValidity_accepts Noble.G Q Noble.G 1 0) as (_ & _ & Hsum & _).
  destruct (Hsum HQ) as (a & b & _ & _ & _ & HI).
  split; [exact HG |]. split; [exact (Hnot HG) |].
  split; [exists Q; split; [reflexivity | exact HI] | exact Hzero].
Defined.

(** * The curve equation *)

Lemma add_polynomials (X1 Y1 Z1 X2 Y2 Z2 : Z) :
  Noble.add (Noble.mkPoint X1 Y1 Z1) (Noble.mkPoint X2 Y2 Z2)
  = Noble.mkPoint (add_x X1 Y1 Z1 X2 Y2 Z2 mod Noble.P)
                  (add_y X1 Y1 Z1 X2 Y2 Z2 mod Noble.P)
                  (add_z X1 Y1 Z1 X2 Y2 Z2 mod Noble.P).
Proof.
  unfold Noble.add, add_x, add_y, add_z. f_equal; residues.
Qed.

Lemma eqm_sub_0 (a b : Z) : a mod Noble.P = b mod Noble.P <-> eqm Noble.P (a - b) 0.
Proof.
  unfold eqm. split; intros H.
  - rewrite Zminus_mod, H, Z.sub_diag. reflexivity.
  - replace a with ((a - b) + b) by ring.
    rewrite Zplus_mod, H, Zmod_0_l, Z.add_0_l, Z.mod_mod by discriminate. reflexivity.
Qed.

Lemma on_curve_eqm (x y z : Z) :
  on_curve (Noble.mkPoint x y z) <-> eqm Noble.P (y * y * z - x * x * x - 7 * (z * z * z)) 0.
Proof.
  unfold on_curve, Noble.CURVE_b; cbn [Noble.px Noble.py Noble.pz]. rewrite eqm_sub_0.
  replace (y * y * z - (x * x * x + 7 * (z * z * z)))
    with (y * y * z - x * x * x - 7 * (z * z * z)) by ring.
  reflexivity.
Qed.

Lemma on_curve_mod (x y z : Z) :
  on_curve (Noble.mkPoint (x mod Noble.P) (y mod Noble.P) (z mod Noble.P))
  <-> on_curve (Noble.mkPoint x y z).
Proof.
  rewrite !on_curve_eqm.
  assert (E : eqm Noble.P
                (y mod Noble.P * (y mod Noble.P) * (z mod Noble.P)
                 - x mod Noble.P * (x mod Noble.P) * (x mod Noble.P)
                 - 7 * (z mod Noble.P * (z mod Noble.P) * (z mod Noble.P)))
                (y * y * z - x * x * x - 7 * (z * z * z))).
  { repeat setoid_rewrite (Zmod_eqm Noble.P). reflexivity. }
  rewrite E. reflexivity.
Qed.

(** The equation of the sum is a combination of the equations of the two
    terms, as polynomials over the integers. *)
Lemma add_curve_equation (X1 Y1 Z1 X2 Y2 Z2 : Z) :
  let F x y z := y * y * z - x * x * x - 7 * (z * z * z) in
  exists A B,
    F (add_x X1 Y1 Z1 X2 Y2 Z2) (add_y X1 Y1 Z1 X2 Y2 Z2) (add_z X1 Y1 Z1 X2 Y2 Z2)
    = A * F X1 Y1 Z1 + B * F X2 Y2 Z2.
Proof.
  intros F.
  exists (189 * X1^3 * X2^3 * Y2^3 - 11907 * X1^3 * X2^3 * Y2 * Z2^2
       + 567 * X1^2 * Y1 * X2^4 * Y2^2 - 11907 * X1^2 * Y1 * X2^4 * Z2^2
       - 23814 * X1^2 * Z1 * X2^4 * Y2 * Z2 + 567 * X1 * Y1^2 * X2^5 * Y2
       - 189 * X1 * Y1^2 * X2^2 * Y2^3 * Z2 - 3969 * X1 * Y1^2 * X2^2 * Y2 * Z2^3
       - 23814 * X1 * Y1 * Z1 * X2^5 * Z2 + 189 * X1 * Y1 * Z1 * X2^2 * Y2^4
       - 83349 * X1 * Y1 * Z1 * X2^2 * Z2^4 - 11907 * X1 * Z1^2 * X2^5 * Y2
       + 3969 * X1 * Z1^2 * X2^2 * Y2^3 * Z2 + 83349 * X1 * Z1^2 * X2^2 * Y2 * Z2^3
       + 189 * Y1^3 * X2^6 + Y1^3 * Y2^6 - 63 * Y1^3 * Y2^4 * Z2^2 + 1323 * Y1^3 * Y2^2 * Z2^4
       - 9261 * Y1^3 * Z2^6 + 189 * Y1^2 * Z1 * X2^3 * Y2^3
       - 11907 * Y1^2 * Z1 * X2^3 * Y2 * Z2^2 - 126 * Y1^2 * Z1 * Y2^5 * Z2
       + 5292 * Y1^2 * Z1 * Y2^3 * Z2^3 - 55566 * Y1^2 * Z1 * Y2 * Z2^5
       - 11907 * Y1 * Z1^2 * X2^6 + 5292 * Y1 * Z1^2 * Y2^4 * Z2^2
       - 111132 * Y1 * Z1^2 * Y2^2 * Z2^4 - 1323 * Z1^3 * X2^3 * Y2^3
       + 83349 * Z1^3 * X2^3 * Y2 * Z2^2 - 74088 * Z1^3 * Y2^3 * Z2^3),
         (189 * X1^2 * Y1^4 * X2 * Y2 * Z2 + 378 * X1^2 * Y1^3 * Z1 * X2 * Y2^2
       - 7938 * X1^2 * Y1^3 * Z1 * X2 * Z2^2 - 23814 * X1^2 * Y1^2 * Z1^2 * X2 * Y2 * Z2
       - 7938 * X1^2 * Y1 * Z1^3 * X2 * Y2^2 + 166698 * X1^2 * Y1 * Z1^3 * X2 * Z2^2
       + 83349 * X1^2 * Z1^4 * X2 * Y2 * Z2 + 567 * X1 * Y1^4 * Z1 * X2^2 * Y2
       - 23814 * X1 * Y1^3 * Z1^2 * X2^2 * Z2 - 15876 * X1 * Y1^2 * Z1^3 * X2^2 * Y2
       + 166698 * X1 * Y1 * Z1^4 * X2^2 * Z2 + 83349 * X1 * Z1^5 * X2^2 * Y2 + Y1^6 * Y2^3
       + 189 * Y1^5 * Z1 * X2^3 + 63 * Y1^5 * Z1 * Y2^2 * Z2 - 1323 * Y1^5 * Z1 * Z2^3
       + 126 * Y1^4 * Z1^2 * Y2^3 - 6615 * Y1^4 * Z1^2 * Y2 * Z2^2 - 13230 * Y1^3 * Z1^3 * X2^3
       - 7938 * Y1^3 * Z1^3 * Y2^2 * Z2 + 18522 * Y1^3 * Z1^3 * Z2^3
       - 1323 * Y1^2 * Z1^4 * Y2^3 + 55566 * Y1^2 * Z1^4 * Y2 * Z2^2 + 83349 * Y1 * Z1^5 * X2^3
       + 27783 * Y1 * Z1^5 * Y2^2 * Z2 - 583443 * Y1 * Z1^5 * Z2^3 - 583443 * Z1^6 * Y2 * Z2^2).
  unfold F, add_x, add_y, add_z. ring.
Qed.

Lemma add_on_curve (p q : Noble.SECP256K1Point) :
  on_curve p -> on_curve q -> on_curve (Noble.add p q).
Proof.
  destruct p as [X1 Y1 Z1], q as [X2 Y2 Z2]. intros Hp Hq.
  rewrite add_polynomials, on_curve_mod, on_curve_eqm.
  apply on_curve_eqm in Hp, Hq.
  destruct (add_curve_equation X1 Y1 Z1 X2 Y2 Z2) as (A & B & E).
  cbv zeta beta in E. rewrite E, Hp, Hq. unfold eqm. f_equal. ring.
Qed.

Lemma on_curve_I : on_curve Noble.I.
Proof. reflexivity. Qed.

Lemma on_curve_G : on_curve Noble.G.
Proof. vm_compute. reflexivity. Qed.

Lemma negate_on_curve (p : Noble.SECP256K1Point) : on_curve p -> on_curve (Noble.negate p).
Proof.
  destruct p as [x y z]. unfold Noble.negate; cbn [Noble.px Noble.py Noble.pz].
  rewrite modP_mod, !on_curve_eqm. intros H.
  assert (E : eqm Noble.P ((- y) mod Noble.P * ((- y) mod Noble.P) * z - x * x * x
                           - 7 * (z * z * z))
                          (y * y * z - x * x * x - 7 * (z * z * z))).
  { repeat setoid_rewrite (Zmod_eqm Noble.P). unfold eqm. f_equal. ring. }
  rewrite E. exact H.
Qed.

Lemma iter_double_on_curve (p : Noble.SECP256K1Point) (i : nat) :
  on_curve p -> on_curve (Nat.iter i Noble.double p).
Proof.
  intros H. induction i as [| i IH]; [exact H |].
  cbn [Nat.iter]. apply add_on_curve; exact IH.
Qed.

Lemma ladder_sum_on_curve (this : Noble.SECP256K1Point) (n : Z) (start : Noble.SECP256K1Point) :
  on_curve this -> on_curve start -> on_curve (ladder_sum this n start).
Proof.
  intros Hp. unfold ladder_sum. generalize (seq 0 (bit_length n)) as l.
  intros l. revert start. induction l as [| i l IH]; intros start Hs; [exact Hs |].
  cbn [fold_left]. apply IH. destruct (Z.testbit n (Z.of_nat i)); [| exact Hs].
  apply add_on_curve; [exact Hs | apply iter_double_on_curve; exact Hp].
Qed.

Lemma mul_on_curve (p r : Noble.SECP256K1Point) (n : Z) (safe : bool) :
  on_curve p -> Noble.mul p n safe = Ok r -> on_curve r.
Proof.
  intros Hp. unfold Noble.mul, Noble.mul_ops.
  destruct (negb safe && (n =? 0)).
  - intros [= <-]. exact on_curve_I.
  - destruct (Noble.ge n) eqn:Hge; [| discriminate].
    cbn [negb fmap result_fmap fst]. intros [= <-].
    destruct n as [| k | k]; [discriminate | | discriminate].
    cbn [Noble.mul_loopZ]. rewrite mul_loop_sum.
    apply ladder_sum_on_curve; [exact Hp | exact on_curve_I].
Qed.

(** The affine coordinates [toAffine] returns for a point other than [I]
    are the quotients by [z]; [z] has an inverse whenever they exist. *)
Lemma toAffine_Ok (p : Noble.SECP256K1Point) (x y : Z) :
  Noble.toAffine p = Ok (x, y) -> Noble.equals p Noble.I = false ->
  exists iz, eqm Noble.P (Noble.pz p * iz) 1
             /\ eqm Noble.P x (Noble.px p * iz) /\ eqm Noble.P y (Noble.py p * iz).
Proof.
  intros H HI. rewrite toAffine_cases, HI in H.
  destruct (Z.eqb_spec (Noble.pz p) 1) as [E | E].
  - injection H as <- <-. exists 1. rewrite E, !Z.mul_1_r. repeat split; reflexivity.
  - destruct (Noble.inv (Noble.pz p) Noble.P) as [iz |] eqn:Hinv; [| discriminate H].
    injection H as <- <-. exists iz.
    assert (Hz : Noble.pz p <> 0).
    { intros E0. apply equals_I_false in HI. rewrite E0 in HI. apply HI. reflexivity. }
    pose proof P_gt_1 as HP.
    destruct (Z.eq_dec (Z.gcd (Noble.pz p) Noble.P) 1) as [Hg | Hg].
    + destruct (inv_coprime (Noble.pz p) Noble.P Hz ltac:(lia) Hg) as (r & Hr & _ & Hm).
      rewrite Hinv in Hr. injection Hr as <-.
      split; [exact Hm |]. split; unfold eqm; apply Z.mod_mod; lia.
    + rewrite inv_no_inverse in Hinv by tauto. discriminate Hinv.
Qed.

Lemma on_curve_affine (p : Noble.SECP256K1Point) (x y : Z) :
  Noble.toAffine p = Ok (x, y) -> Noble.equals p Noble.I = false ->
  (on_curve p <-> (y * y) mod Noble.P = (x * x * x + 7) mod Noble.P).
Proof.
  intros H HI. destruct (toAffine_Ok p x y H HI) as (iz & Hz & Hx & Hy).
  destruct p as [X Y Z]. cbn [Noble.px Noble.py Noble.pz] in Hz, Hx, Hy.
  rewrite on_curve_eqm, eqm_sub_0.
  assert (E1 : eqm Noble.P (y * y - (x * x * x + 7))
                 ((iz * iz * iz) * (Y * Y * Z - X * X * X - 7 * (Z * Z * Z)))).
  { rewrite Hx, Hy.
    transitivity (Y * Y * iz * iz * (Z * iz) - X * iz * (X * iz) * (X * iz)
                  - 7 * ((Z * iz) * (Z * iz) * (Z * iz))).
    - rewrite Hz. unfold eqm. f_equal. ring.
    - unfold eqm. f_equal. ring. }
  assert (E2 : eqm Noble.P (Y * Y * Z - X * X * X - 7 * (Z * Z * Z))
                 ((Z * Z * Z) * (y * y - (x * x * x + 7)))).
  { rewrite E1.
    transitivity ((Z * iz) * (Z * iz) * (Z * iz) * (Y * Y * Z - X * X * X - 7 * (Z * Z * Z))).
    - rewrite Hz. unfold eqm. f_equal. ring.
    - unfold eqm. f_equal. ring. }
  split; intros Hc.
  - rewrite E1, Hc. unfold eqm. f_equal. ring.
  - rewrite E2, Hc. unfold eqm. f_equal. ring.
Qed.

Lemma assertValidity_on_curve (p q : Noble.SECP256K1Point) :
  Noble.assertValidity p = Ok q -> on_curve p.
Proof.
  intros H. pose proof (assertValidity_not_identity _ _ H) as HI.
  apply assertValidity_Ok in H as (_ & x & y & Haff & _ & _ & E).
  apply (on_curve_affine p x y Haff HI). exact E.
Qed.

(** The affine coordinates of a point with reduced coordinates are
    residues as well. *)
Lemma toAffine_range (p : Noble.SECP256K1Point) (x y : Z) :
  reduced p -> Noble.toAffine p = Ok (x, y) -> 0 <= x < Noble.P /\ 0 <= y < Noble.P.
Proof.
  intros (Hx & Hy & _) H. pose proof P_gt_1 as HP. rewrite toAffine_cases in H.
  destruct (Noble.equals p Noble.I); [injection H as <- <-; lia |].
  destruct (Noble.pz p =? 1); [injection H as <- <-; tauto |].
  destruct (Noble.inv (Noble.pz p) Noble.P); [| discriminate H].
  injection H as <- <-. split; apply Z.mod_pos_bound; lia.
Qed.

Lemma assertValidity_result (r : Noble.SECP256K1Point) (x y : Z) :
  on_curve r -> reduced r ->
  Noble.toAffine r = Ok (x, y) -> Noble.equals r Noble.I = false ->
  Noble.assertValidity r
  = if (x =? 0) || (y =? 0) then Throw PointInvalid else Ok r.
Proof.
  intros Hc Hr Haff HI.
  destruct (toAffine_range r x y Hr Haff) as [Hx Hy].
  apply (on_curve_affine r x y Haff HI) in Hc.
  destruct (Z.eqb_spec x 0) as [Ex | Ex]; [| destruct (Z.eqb_spec y 0) as [Ey | Ey]];
    cbn [orb].
  - destruct (Noble.assertValidity r) as [q | e] eqn:H.
    + apply assertValidity_Ok in H as (_ & x' & y' & Haff' & Hx' & _).
      rewrite Haff in Haff'. injection Haff' as <- <-. lia.
    + unfold Noble.assertValidity in H. rewrite Haff in H. cbn [mbind result_bind] in H.
      destruct (negb (Noble.fe x) || negb (Noble.fe y)); [congruence |].
      destruct (Noble.modP (y * y) =? Noble.crv x); congruence.
  - destruct (Noble.assertValidity r) as [q | e] eqn:H.
    + apply assertValidity_Ok in H as (_ & x' & y' & Haff' & _ & Hy' & _).
      rewrite Haff in Haff'. injection Haff' as <- <-. lia.
    + unfold Noble.assertValidity in H. rewrite Haff in H. cbn [mbind result_bind] in H.
      destruct (negb (Noble.fe x) || negb (Noble.fe y)); [congruence |].
      destruct (Noble.modP (y * y) =? Noble.crv x); congruence.
  - apply assertValidity_Ok. split; [reflexivity |]. exists x, y.
    split; [exact Haff |]. split; [lia |]. split; [lia | exact Hc].
Qed.

(** X26. [add] computes the complete addition formulas of a curve with
    [a = 0] and [3b = 21]: its forty steps give the three polynomials
    [add_x], [add_y] and [add_z] of the six coordinates, reduced modulo
    [P]. *)
Theorem add_closed_form (X1 Y1 Z1 X2 Y2 Z2 : Z) :
  Noble.add (Noble.mkPoint X1 Y1 Z1) (Noble.mkPoint X2 Y2 Z2)
  = Noble.mkPoint (Noble.modP (add_x X1 Y1 Z1 X2 Y2 Z2))
                  (Noble.modP (add_y X1 Y1 Z1 X2 Y2 Z2))
                  (Noble.modP (add_z X1 Y1 Z1 X2 Y2 Z2)).
Proof.
  rewrite !modP_mod. apply add_polynomials.
Qed.

(** X27. The group operations stay on the curve: when two triples satisfy
    [Y²Z = X³ + 7Z³] modulo [P], so do their sum, the double and the
    negation of each, and every point [mul] returns for one of them,
    whatever the scalar and the mode. *)
Theorem curve_closed (p q : Noble.SECP256K1Point) (n : Z) (safe : bool) :
  on_curve p -> on_curve q ->
  on_curve (Noble.add p q)
  /\ on_curve (Noble.double p)
  /\ on_curve (Noble.negate p)
  /\ (forall r, Noble.mul p n safe = Ok r -> on_curve r).
Proof.
  intros Hp Hq. split; [apply add_on_curve; assumption |].
  split; [apply add_on_curve; assumption |].
  split; [apply negate_on_curve; assumption |].
  intros r. apply mul_on_curve. exact Hp.
Qed.

(** X28. For a point other than [I] whose affine form exists, the
    homogeneous equation of the triple is the affine equation
    [y² = x³ + 7] of its affine coordinates, and [assertValidity] accepts
    the point exactly when it is on the curve with both affine coordinates
    in [[1, P-1]].  Every point [assertValidity] accepts is on the curve. *)
Theorem on_curve_validity (p : Noble.SECP256K1Point) (x y : Z) :
  Noble.toAffine p = Ok (x, y) -> Noble.equals p Noble.I = false ->
  (on_curve p <-> (y * y) mod Noble.P = (x * x * x + 7) mod Noble.P)
  /\ (Noble.assertValidity p = Ok p
      <-> on_curve p /\ 0 < x < Noble.P /\ 0 < y < Noble.P)
  /\ (forall q, Noble.assertValidity q = Ok q -> on_curve q).
Proof.
  intros Haff HI. pose proof (on_curve_affine p x y Haff HI) as Hiff.
  split; [exact Hiff |]. split; [| intros q; apply assertValidity_on_curve].
  rewrite assertValidity_Ok. split.
  - intros (_ & x' & y' & Haff' & Hx & Hy & E).
    rewrite Haff in Haff'. injection Haff' as <- <-.
    split; [apply Hiff; exact E | tauto].
  - intros (Hc & Hx & Hy). split; [reflexivity |]. exists x, y.
    split; [exact Haff |]. split; [exact Hx |]. split; [exact Hy | apply Hiff; exact Hc].
Qed.

(** X29. A sum or a multiple of points that [assertValidity] accepts is
    accepted in turn as soon as it is not [I], its affine form exists and
    neither affine coordinate is zero; with a zero coordinate it raises
    "Point invalid". *)
Theorem valid_results (p q r : Noble.SECP256K1Point) (n : Z) (safe : bool) (x y : Z) :
  Noble.assertValidity p = Ok p -> Noble.assertValidity q = Ok q ->
  r = Noble.add p q \/ Noble.mul p n safe = Ok r ->
  Noble.toAffine r = Ok (x, y) -> Noble.equals r Noble.I = false ->
  Noble.assertValidity r
  = if (x =? 0) || (y =? 0) then Throw PointInvalid else Ok r.
Proof.
  intros Hp Hq Hr Haff HI.
  apply assertValidity_on_curve in Hp, Hq.
  apply assertValidity_result; [| | exact Haff | exact HI].
  - destruct Hr as [-> | Hr]; [apply add_on_curve; assumption |].
    exact (mul_on_curve p r n safe Hp Hr).
  - destruct Hr as [-> | Hr]; [apply add_reduced |].
    unfold Noble.mul, Noble.mul_ops in Hr.
    destruct (negb safe && (n =? 0)).
    + injection Hr as <-. discriminate HI.
    + destruct (Noble.ge n) eqn:Hge; [| discriminate Hr].
      cbn [negb fmap result_fmap fst] in Hr. injection Hr as <-.
      destruct n as [| k | k]; [discriminate | | discriminate].
      cbn [Noble.mul_loopZ]. rewrite mul_loop_sum. apply ladder_sum_reduced. lia.
Qed.

Lemma curve_closed_witness :
  on_curve Noble.G
  /\ on_curve (Noble.add Noble.G Noble.G)
  /\ on_curve (Noble.double Noble.G)
  /\ on_curve (Noble.negate Noble.G)
  /\ (forall r, Noble.mul Noble.G 5 true = Ok r -> on_curve r).
Proof.
  assert (HG : on_curve Noble.G) by (vm_compute; reflexivity).
  split; [exact HG | exact (curve_closed Noble.G Noble.G 5 true HG HG)].
Defined.

Lemma on_curve_validity_witness :
  Noble.toAffine Noble.G = Ok (Noble.Gx, Noble.Gy)
  /\ Noble.equals Noble.G Noble.I = false
  /\ (on_curve Noble.G
      <-> (Noble.Gy * Noble.Gy) mod Noble.P
          = (Noble.Gx * Noble.Gx * Noble.Gx + 7) mod Noble.P)
  /\ (Noble.assertValidity Noble.G = Ok Noble.G
      <-> on_curve Noble.G /\ 0 < Noble.Gx < Noble.P /\ 0 < Noble.Gy < Noble.P).
Proof.
  assert (Haff : Noble.toAffine Noble.G = Ok (Noble.Gx, Noble.Gy)) by reflexivity.
  assert (HI : Noble.equals Noble.G Noble.I = false) by reflexivity.
  destruct (on_curve_validity Noble.G Noble.Gx Noble.Gy Haff HI) as (H1 & H2 & _).
  split; [exact Haff |]. split; [exact HI |]. split; [exact H1 | exact H2].
Defined.

Lemma valid_results_witness :
  Noble.assertValidity Noble.G = Ok Noble.G
  /\ Noble.equals (Noble.add Noble.G Noble.G) Noble.I = false
  /\ exists x y,
       Noble.toAffine (Noble.add Noble.G Noble.G) = Ok (x, y)
       /\ Noble.assertValidity (Noble.add Noble.G Noble.G)
          = if (x =? 0) || (y =? 0) then Throw PointInvalid
            else Ok (Noble.add Noble.G Noble.G).
Proof.
  assert (HG : Noble.assertValidity Noble.G = Ok Noble.G) by (vm_compute; reflexivity).
  assert (HI : Noble.equals (Noble.add Noble.G Noble.G) Noble.I = false)
    by (vm_compute; reflexivity).
  split; [exact HG |]. split; [exact HI |].
  destruct (Noble.toAffine (Noble.add Noble.G Noble.G)) as [[x y] | e] eqn:Haff;
    [| vm_compute in Haff; discriminate Haff].
  exists x, y. split; [reflexivity |].
  exact (valid_results Noble.G Noble.G (Noble.add Noble.G Noble.G) 1 true x y
           HG HG (or_introl eq_refl) Haff HI).
Defined.

(** * The slot [combine] writes *)

Lemma slice_index_0 (len : nat) : slice_index len (Integer 0) = 0%nat.
Proof. cbn. lia. Qed.

(** X25. The slot [combine] writes, for every number [pi].  With [n]
    responses: an index [0 <= pi < n] has its response replaced; [pi >= n],
    and [Infinity], append the signer's response; [pi = -1] puts it after
    all responses but the last and then repeats them all;
    [-n <= pi <= -2] replaces the response at [n + pi]; a smaller [pi],
    [NaN] and [-Infinity] put it in front of all responses.  [combine]
    returns the signature with these responses if the ring has as many
    members, and raises the length error of the constructor otherwise; it
    raises no other error. *)
Theorem combine_slot (partialSig : PartialSignature) (signerResponse : Z) :
  let rs := ps_responses partialSig in
  let len := Z.of_nat (length rs) in
  let responses :=
    match ps_pi partialSig with
    | Integer z =>
        if (0 <=? z) && (z <? len) then <[Z.to_nat z := signerResponse]> rs
        else if len <=? z then rs ++ [signerResponse]
        else if z =? -1 then take (length rs - 1) rs ++ signerResponse :: rs
        else if - len <=? z then <[Z.to_nat (len + z) := signerResponse]> rs
        else signerResponse :: rs
    | Infinity => rs ++ [signerResponse]
    | NaN | MinusInfinity => signerResponse :: rs
    end in
  combine partialSig signerResponse
  = if (length (ps_ring partialSig) =? length responses)%nat
    then Ok (mkRingSignature (ps_message partialSig) (ps_ring partialSig) (ps_c partialSig)
               responses (ps_curve partialSig))
    else Throw RingResponseLengthMismatch.
Proof.
  cbv zeta. unfold combine, RingSignature_new.
  set (rs := ps_responses partialSig).
  assert (E : slice rs (Integer 0) (Some (ps_pi partialSig)) ++ [signerResponse]
              ++ slice rs (number_succ (ps_pi partialSig)) None
              = match ps_pi partialSig with
                | Integer z =>
                    if (0 <=? z) && (z <? Z.of_nat (length rs))
                    then <[Z.to_nat z := signerResponse]> rs
                    else if Z.of_nat (length rs) <=? z then rs ++ [signerResponse]
                    else if z =? -1 then take (length rs - 1) rs ++ signerResponse :: rs
                    else if - Z.of_nat (length rs) <=? z
                         then <[Z.to_nat (Z.of_nat (length rs) + z) := signerResponse]> rs
                    else signerResponse :: rs
                | Infinity => rs ++ [signerResponse]
                | NaN | MinusInfinity => signerResponse :: rs
                end).
  { unfold slice. rewrite slice_index_0, drop_0, Nat.sub_0_r.
    assert (G : forall k k' : nat,
               take k rs ++ [signerResponse] ++ take (length rs - k') (drop k' rs)
               = take k rs ++ signerResponse :: drop k' rs).
    { intros k k'. rewrite (take_ge (drop k' rs)) by (rewrite length_drop; lia).
      reflexivity. }
    rewrite G. clear G.
    destruct (ps_pi partialSig) as [z | | |]; cbn [number_succ slice_index].
    - destruct (Z.leb_spec 0 z) as [H0 | H0]; cbn [andb].
      + destruct (Z.ltb_spec z 0) as [? | _]; [lia |].
        destruct (Z.ltb_spec (z + 1) 0) as [? | _]; [lia |].
        destruct (Z.ltb_spec z (Z.of_nat (length rs))) as [Hlt | Hge].
        * replace (Z.to_nat (Z.min z (Z.of_nat (length rs)))) with (Z.to_nat z) by lia.
          replace (Z.to_nat (Z.min (z + 1) (Z.of_nat (length rs)))) with (S (Z.to_nat z)) by lia.
          rewrite insert_take_drop by lia. reflexivity.
        * destruct (Z.leb_spec (Z.of_nat (length rs)) z) as [_ | ?]; [| lia].
          replace (Z.to_nat (Z.min z (Z.of_nat (length rs)))) with (length rs) by lia.
          replace (Z.to_nat (Z.min (z + 1) (Z.of_nat (length rs)))) with (length rs) by lia.
          rewrite take_ge, drop_ge by lia. reflexivity.
      + destruct (Z.ltb_spec z 0) as [_ | ?]; [| lia].
        destruct (Z.leb_spec (Z.of_nat (length rs)) z) as [? | _]; [lia |].
        destruct (Z.eqb_spec z (-1)) as [Hz | Hne].
        * destruct (Z.ltb_spec (z + 1) 0) as [? | _]; [lia |].
          replace (Z.to_nat (Z.min (z + 1) (Z.of_nat (length rs)))) with 0%nat by lia.
          replace (Z.to_nat (Z.max (Z.of_nat (length rs) + z) 0))
            with (length rs - 1)%nat by lia.
          reflexivity.
        * destruct (Z.ltb_spec (z + 1) 0) as [_ | ?]; [| lia].
          destruct (Z.leb_spec (- Z.of_nat (length rs)) z) as [Hin | Hout].
          -- replace (Z.to_nat (Z.max (Z.of_nat (length rs) + z) 0))
               with (Z.to_nat (Z.of_nat (length rs) + z)) by lia.
             replace (Z.to_nat (Z.max (Z.of_nat (length rs) + (z + 1)) 0))
               with (S (Z.to_nat (Z.of_nat (length rs) + z))) by lia.
             rewrite insert_take_drop by lia. reflexivity.
          -- replace (Z.to_nat (Z.max (Z.of_nat (length rs) + z) 0)) with 0%nat by lia.
             replace (Z.to_nat (Z.max (Z.of_nat (length rs) + (z + 1)) 0)) with 0%nat by lia.
             reflexivity.
    - reflexivity.
    - rewrite take_ge, drop_ge by lia. reflexivity.
    - reflexivity. }
  fold rs. rewrite E.
  destruct (length (ps_ring partialSig) =? _)%nat; reflexivity.
Qed.

Example combine_negative_index :
  combine (mkPartialSignature "m" twin_ring 5 7 [11] (Integer (-1)) 3 secp256k1) 9
  = Ok (mkRingSignature "m" twin_ring 5 [9; 11] secp256k1).
Proof. reflexivity. Qed.

Example combine_past_the_end :
  combine (mkPartialSignature "m" twin_ring 5 7 [11] (Integer 6) 3 secp256k1) 9
  = Ok (mkRingSignature "m" twin_ring 5 [11; 9] secp256k1).
Proof. reflexivity. Qed.

Example combine_not_a_number :
  combine (mkPartialSignature "m" twin_ring 5 7 [11] NaN 3 secp256k1) 9
  = Ok (mkRingSignature "m" twin_ring 5 [9; 11] secp256k1).
Proof. reflexivity. Qed.

(** * The array version *)

Example curveConst_values :
  ArrayVersion.SECP256K1.P = Noble.P /\
  ArrayVersion.SECP256K1.G = (Noble.Gx, Noble.Gy) /\
  ArrayVersion.SECP256K1.l = Noble.N.
Proof. repeat split; reflexivity. Qed.

Section ArrayVersionProperties.

Context {utils : ArrayVersion.Utils}.

(** [verify] runs no chain on a ring of one key or none: it returns [false]
    once the two lengths agree and the curve is secp256k1. *)
Lemma array_verify_short (this : ArrayVersion.RingSignature) :
  (length (ArrayVersion.sig_ring this) <= 1)%nat ->
  ArrayVersion.verify this =
    if negb (length (ArrayVersion.sig_ring this) =? length (ArrayVersion.sig_responses this))%nat
    then Throw RingResponseLengthMismatch
    else match ArrayVersion.sig_curve this with
         | ArrayVersion.Curve_SECP256K1 => Ok false
         | ArrayVersion.Curve_ED25519 => Throw NotImplemented
         | ArrayVersion.Curve_other => Throw UnknownCurve
         end.
Proof.
  intros Hlen. unfold ArrayVersion.verify.
  destruct (negb _); [reflexivity |].
  destruct (ArrayVersion.sig_curve this); try reflexivity.
  destruct (Nat.ltb_spec 1 (length (ArrayVersion.sig_ring this))); [lia | reflexivity].
Qed.

Lemma array_verify_short_not_true (this : ArrayVersion.RingSignature) :
  (length (ArrayVersion.sig_ring this) <= 1)%nat ->
  ArrayVersion.verify this <> Ok true.
Proof.
  intros Hlen. rewrite array_verify_short by exact Hlen.
  destruct (negb _); [discriminate |].
  destruct (ArrayVersion.sig_curve this); discriminate.
Qed.






Lemma mapM_result_length {A B} (f : A -> result B) (l : list A) (k : list B) :
  mapM f l = Ok k -> length k = length l.
Proof.
  revert k. induction l as [| a l IH]; intros k H; cbn in H.
  - injection H as <-. reflexivity.
  - apply bind_Ok in H as (b & Eb & H). apply bind_Ok in H as (k' & Ek & H).
    injection H as <-. cbn. f_equal. apply IH. exact Ek.
Qed.


End ArrayVersionProperties.

(** * The two versions side by side *)





Section TwoVersions.

Context {lib : Library} {utils : ArrayVersion.Utils}.








(** C4. A signature of one member.  On an empty ring, and a curve other than
    ed25519, [sign] of the class version returns exactly the signature of
    the signer's key alone, with the challenge drawn, [alpha = (2c + 1) mod N]
    and the response [piSignature] gives for them.  On a signature of one
    key, [verify] of the class version recomputes [alpha] and returns the
    result of the call of [verifyPiSignature] on the key, the response,
    [alpha] and [c], in this order; [verify] of the array version returns
    [false] on every signature of one key, and [true] on no signature of
    fewer than two. *)
Theorem single_member_signature :
  (forall w key msg cv sig,
     String.eqb (curve_name cv) ED25519 = false ->
     (sign w [] key msg cv = Ok sig <->
      exists alpha r K,
        modulo (2 * randomBigint_draw w 0 + 1) (curve_N cv) = Ok alpha /\
        piSignature alpha (randomBigint_draw w 0) key cv = Ok r /\
        Point_mult (GtoPoint cv) key = Ok K /\
        sig = mkRingSignature msg [mkObj (fresh_addr w) K] (randomBigint_draw w 0) [r] cv))
  /\ (forall msg K c r cv,
        verify (mkRingSignature msg [K] c [r] cv) =
          (alpha ← modulo (2 * c + 1) (curve_N cv);
           verifyPiSignature_call (PointValue (val K)) (Bigint r) (Bigint alpha) (Bigint c) cv))
  /\ (forall msg K c R,
        ArrayVersion.verify
          (ArrayVersion.mkRingSignature msg [K] c [R] ArrayVersion.Curve_SECP256K1)
        = Ok false)
  /\ (forall this : ArrayVersion.RingSignature,
        (length (ArrayVersion.sig_ring this) <= 1)%nat ->
        ArrayVersion.verify this <> Ok true).
Proof.
  split; [| split; [| split]].
  - intros w key msg cv sig Hcv. unfold sign. rewrite Hcv. cbn [length Nat.eqb].
    split.
    + intros H.
      apply bind_Ok in H as (alpha & Ealpha & H).
      apply bind_Ok in H as (r & Er & H).
      apply bind_Ok in H as (K & EK & H).
      apply RingSignature_new_Ok in H. exists alpha, r, K. auto.
    + intros (alpha & r & K & -> & Er & EK & ->). cbn [mbind result_bind].
      rewrite Er. cbn [mbind result_bind]. rewrite EK. reflexivity.
  - reflexivity.
  - reflexivity.
  - apply array_verify_short_not_true.
Qed.

(** C1, on the empty ring.  Whatever the utilities are, a signature [sign]
    of the array version returns on an empty ring has one key, and [verify]
    of that version does not return [true] on it: it returns [false] when
    the index drawn is [0]. *)
Theorem sign_empty_ring_rejected (w : world) (key : Z) (msg : string)
    (curve : ArrayVersion.Curve) (sig : ArrayVersion.RingSignature) :
  ArrayVersion.sign w [] key msg curve = Ok sig ->
  length (ArrayVersion.sig_ring sig) = 1%nat
  /\ ArrayVersion.verify sig <> Ok true
  /\ (securedNumber_draw w = 0%nat -> ArrayVersion.verify sig = Ok false).
Proof.
  intros H.
  assert (Hcv : curve = ArrayVersion.Curve_SECP256K1)
    by (destruct curve; [reflexivity | discriminate H | discriminate H]).
  subst curve.
  unfold ArrayVersion.sign in H.
  apply bind_Ok in H as (Ks & _ & H).
  assert (Hring : splice (@nil (Z * Z)) (securedNumber_draw w) (securedNumber_draw w) Ks = [Ks]).
  { unfold splice. rewrite take_nil, drop_nil. reflexivity. }
  rewrite Hring in H.
  apply bind_Ok in H as ([] & _ & H).
  apply bind_Ok in H as (resp & Eresp & H).
  apply bind_Ok in H as (aG & _ & H).
  apply bind_Ok in H as (cpi1 & _ & H).
  apply bind_Ok in H as (L & _ & H).
  apply bind_Ok in H as (rl & _ & H).
  apply bind_Ok in H as (cl & _ & H).
  apply bind_Ok in H as (Kl & _ & H).
  apply bind_Ok in H as (c0 & _ & H).
  apply bind_Ok in H as (M & _ & H).
  apply bind_Ok in H as (cpi & _ & H).
  apply bind_Ok in H as (sr & _ & H).
  apply bind_Ok in H as (c & _ & H).
  injection H as <-. cbn [ArrayVersion.sig_ring].
  split; [reflexivity |].
  split; [apply array_verify_short_not_true; cbn; lia |].
  intros Hpi. rewrite Hpi.
  apply mapM_result_length in Eresp. cbn in Eresp.
  destruct resp as [| R [| R' resp]]; try discriminate Eresp. reflexivity.
Qed.

End TwoVersions.

(** ** The two versions at concrete inputs *)

Lemma sign_empty_ring_rejected_witness :
  let sig := ArrayVersion.mkRingSignature "hello" [(94, 0)] 120 [(31, 0)]
               ArrayVersion.Curve_SECP256K1 in
  ArrayVersion.sign (utils := Zn_utils checksum_digest) Zn_world_0 [] 7 "hello"
    ArrayVersion.Curve_SECP256K1 = Ok sig
  /\ length (ArrayVersion.sig_ring sig) = 1%nat
  /\ ArrayVersion.verify (utils := Zn_utils checksum_digest) sig = Ok false.
Proof.
  intros sig.
  assert (H : ArrayVersion.sign (utils := Zn_utils checksum_digest) Zn_world_0 [] 7 "hello"
                ArrayVersion.Curve_SECP256K1 = Ok sig) by (vm_compute; reflexivity).
  split; [exact H |].
  destruct (sign_empty_ring_rejected (utils := Zn_utils checksum_digest) _ _ _ _ _ H)
    as (Hlen & _ & Hv).
  split; [exact Hlen | apply Hv; reflexivity].
Defined.

Lemma single_member_signature_witness :
  let sig := mkRingSignature "hello" [mkObj 99 (mkPt Zn_curve 7 0)] 1 [97] Zn_curve in
  sign (lib := Zn_library) Zn_world [] 7 "hello" Zn_curve = Ok sig
  /\ verify (lib := Zn_library) sig
     = verifyPiSignature_call (lib := Zn_library) (PointValue (mkPt Zn_curve 7 0))
         (Bigint 97) (Bigint 3) (Bigint 1) Zn_curve
  /\ ArrayVersion.verify (utils := Zn_utils checksum_digest)
       (ArrayVersion.mkRingSignature "hello" [(94, 0)] 120 [(31, 0)]
          ArrayVersion.Curve_SECP256K1) = Ok false
  /\ ArrayVersion.verify (utils := Zn_utils checksum_digest)
       (ArrayVersion.mkRingSignature "hello" [] 120 [] ArrayVersion.Curve_SECP256K1)
     <> Ok true.
Proof.
  intros sig.
  destruct (single_member_signature (lib := Zn_library) (utils := Zn_utils checksum_digest))
    as (Hsign & Hverify & Hone & Hshort).
  split; [| split; [| split]].
  - apply (proj2 (Hsign Zn_world 7 "hello" Zn_curve sig eq_refl)).
    exists 3, 97, (mkPt Zn_curve 7 0). repeat split; reflexivity.
  - unfold sig. rewrite Hverify. reflexivity.
  - apply Hone.
  - apply Hshort. cbn. lia.
Defined.




